(** * Muninn-Faster-Whisper: the AI content humanizer (humanizer.py)

    A shallow embedding of [ContentHumanizer] and [detect_ai_tells]: Python
    [str] values are lists of Unicode code points, [re.sub] and [re.findall]
    are a backtracking matcher over the fragment of regular expressions the
    module uses, and the operations that can raise ([s[0]], [match.group(n)])
    live in a small error monad. *)

From Stdlib Require Import List NArith Bool Arith Lia String Ascii.
Import ListNotations.

Set Implicit Arguments.

(** ** Python strings *)

Module Py.

Definition char := N.
Definition str := list char.

(** [utf8] reads a source literal (UTF-8 bytes) as code points, so that the
    literals of humanizer.py can be written as they stand. *)
Fixpoint utf8_go (need : nat) (acc : N) (bs : list N) : str :=
  match bs with
  | [] => []
  | b :: bs' =>
      match need with
      | O =>
          if (b <? 128)%N then b :: utf8_go 0 0 bs'
          else if (b <? 224)%N then utf8_go 1 (b - 192) bs'
          else if (b <? 240)%N then utf8_go 2 (b - 224) bs'
          else utf8_go 3 (b - 240) bs'
      | S O => (acc * 64 + (b - 128))%N :: utf8_go 0 0 bs'
      | S n => utf8_go n (acc * 64 + (b - 128))%N bs'
      end
  end.

Definition utf8 (s : string) : str :=
  utf8_go 0 0 (map N_of_ascii (list_ascii_of_string s)).

Definition em_dash : char := 8212%N.

(** Exceptions the modelled operations can raise. *)
Inductive exn := IndexError | ReError.

Inductive result (A : Type) : Type :=
| Ok (a : A)
| Raise (e : exn).
Arguments Ok {A} a.
Arguments Raise {A} e.

Definition bind {A B} (x : result A) (f : A -> result B) : result B :=
  match x with
  | Ok a => f a
  | Raise e => Raise e
  end.

(** Unicode data outside ASCII.  The classification of the 128 ASCII code
    points, of the em dash and of white space is written out below; what
    CPython's tables say about the other code points is a parameter. *)
Class Unicode := {
  (** [str.isalnum] (what [\w] and [\b] consult) *)
  isalnum_hi : char -> bool;
  (** [str.islower] of one character *)
  islower_hi : char -> bool;
  (** [str.isupper] or [str.istitle] of one character *)
  isupper_hi : char -> bool;
  (** [str.upper] of one character (up to three code points) *)
  upper_hi : char -> str;
  (** [str.lower] of one character between the text before and after it
      (the final-sigma rule reads both) *)
  lower_hi : str -> char -> str -> str;
  (** the simple lower-case mapping [re] folds the text with under
      IGNORECASE *)
  sre_lower_hi : char -> char;
  (** a character that folds to an ASCII letter, or to the dotless i or the
      long s that [re] treats as equal to i and s, is a letter *)
  fold_alnum : forall c,
    (128 <= c)%N ->
    ((sre_lower_hi c <? 128) || (sre_lower_hi c =? 305) || (sre_lower_hi c =? 383))%N = true ->
    isalnum_hi c = true;
  (** upper-casing never produces an em dash, nor the empty string *)
  upper_no_dash : forall c,
    (128 <= c)%N -> c <> em_dash -> ~ In em_dash (upper_hi c);
  upper_some : forall c,
    (128 <= c)%N -> c <> em_dash -> upper_hi c <> []
}.

Section Strings.
Context {U : Unicode}.

Definition is_ascii (c : char) : bool := (c <? 128)%N.
Definition ascii_isupper (c : char) : bool := (65 <=? c)%N && (c <=? 90)%N.
Definition ascii_islower (c : char) : bool := (97 <=? c)%N && (c <=? 122)%N.
Definition ascii_isdigit (c : char) : bool := (48 <=? c)%N && (c <=? 57)%N.
Definition ascii_isalpha (c : char) : bool := ascii_isupper c || ascii_islower c.
Definition ascii_lower (c : char) : char := if ascii_isupper c then (c + 32)%N else c.
Definition ascii_upper (c : char) : char := if ascii_islower c then (c - 32)%N else c.

(** [str.isspace] of one character: the code points CPython's
    [_PyUnicode_IsWhitespace] lists. *)
Definition isspace (c : char) : bool :=
  ((9 <=? c) && (c <=? 13) || (28 <=? c) && (c <=? 32) ||
   (c =? 133) || (c =? 160) || (c =? 5760) ||
   (8192 <=? c) && (c <=? 8202) || (c =? 8232) || (c =? 8233) ||
   (c =? 8239) || (c =? 8287) || (c =? 12288))%N.

Definition isalnum (c : char) : bool :=
  if is_ascii c then ascii_isalpha c || ascii_isdigit c
  else if (c =? em_dash)%N then false
  else isalnum_hi c.

(** [\w]: alphanumeric or underscore. *)
Definition isword (c : char) : bool := isalnum c || (c =? 95)%N.

Definition islower1 (c : char) : bool :=
  if is_ascii c then ascii_islower c
  else if (c =? em_dash)%N then false
  else islower_hi c.

Definition isupper1 (c : char) : bool :=
  if is_ascii c then ascii_isupper c
  else if (c =? em_dash)%N then false
  else isupper_hi c.

Definition upper1 (c : char) : str :=
  if is_ascii c then [ascii_upper c]
  else if (c =? em_dash)%N then [c]
  else upper_hi c.

Definition lower1 (before : str) (c : char) (after : str) : str :=
  if is_ascii c then [ascii_lower c]
  else if (c =? em_dash)%N then [c]
  else lower_hi before c after.

(** [s.upper()] *)
Definition upper (s : str) : str := flat_map upper1 s.

(** [s.lower()] *)
Fixpoint lower_from (before : str) (s : str) : str :=
  match s with
  | [] => []
  | c :: s' => lower1 before c s' ++ lower_from (before ++ [c]) s'
  end.
Definition lower (s : str) : str := lower_from [] s.

(** [s.islower()]: no upper- or title-case character and at least one
    lower-case one. *)
Definition islower (s : str) : bool :=
  forallb (fun c => negb (isupper1 c)) s && existsb islower1 s.

(** [s.strip()] *)
Fixpoint lstrip (s : str) : str :=
  match s with
  | c :: s' => if isspace c then lstrip s' else s
  | [] => []
  end.
Definition rstrip (s : str) : str := rev (lstrip (rev s)).
Definition strip (s : str) : str := rstrip (lstrip s).

(** [c in s] for a one-character [c] *)
Definition contains (c : char) (s : str) : bool := existsb (N.eqb c) s.

(** [s.count(c)] for a one-character [c] *)
Definition count (c : char) (s : str) : nat :=
  List.length (filter (N.eqb c) s).

(** [s.split(c)] for a one-character separator: never an empty list. *)
Fixpoint split (c : char) (s : str) : list str :=
  match s with
  | [] => [[]]
  | x :: s' =>
      if (x =? c)%N then [] :: split c s'
      else match split c s' with
           | p :: ps => (x :: p) :: ps
           | [] => [[x]]
           end
  end.

(** [sep.join(parts)] *)
Fixpoint join (sep : str) (parts : list str) : str :=
  match parts with
  | [] => []
  | [p] => p
  | p :: ps => p ++ sep ++ join sep ps
  end.

(** [s.startswith(p)] and [p in s] for strings *)
Fixpoint startswith (p s : str) : bool :=
  match p, s with
  | [], _ => true
  | a :: p', b :: s' => (a =? b)%N && startswith p' s'
  | _ :: _, [] => false
  end.

Fixpoint substring_in (p s : str) : bool :=
  startswith p s ||
  match s with
  | [] => false
  | _ :: s' => substring_in p s'
  end.

(** [a == b] on strings *)
Fixpoint str_eqb (a b : str) : bool :=
  match a, b with
  | [], [] => true
  | x :: a', y :: b' => (x =? y)%N && str_eqb a' b'
  | _, _ => false
  end.

(** [s[0]]: raises IndexError on the empty string. *)
Definition index0 (s : str) : result char :=
  match s with
  | c :: _ => Ok c
  | [] => Raise IndexError
  end.

(** [s[1:]]: slicing never raises. *)
Definition slice1 (s : str) : str := tl s.

End Strings.

End Py.

Notation "x <- e ;; k" := (Py.bind e (fun x => k))
  (at level 61, e at next level, right associativity).

(** ** The regular expressions of the module ([re]) *)

Module Re.
Import Py.

(** What one pattern position accepts. *)
Inductive cls :=
| Lit (c : char)                     (** a literal character *)
| OneOf (ranges : list (char * char)) (** [[...]]: characters and ranges *)
| Space.                             (** [\s] *)

(** The fragment of [re] syntax the module's patterns are written in.
    Repetition ([+], [*], [{n,}]) is only ever applied to one character or
    class, which is what [Rep] offers. *)
Inductive re :=
| Eps
| One (c : cls)
| Cat (r1 r2 : re)
| Alt (r1 r2 : re)          (** [r1|r2] *)
| Opt (r : re)              (** [(?:r)?], greedy *)
| Rep (n : nat) (c : cls)   (** [c{n,}], greedy *)
| Grp (r : re)              (** [(r)], a capturing group *)
| Bnd                       (** [\b] *)
| Bol                       (** [^] *)
| Eol.                      (** [$] *)

Record flags := { ignorecase : bool; multiline : bool }.
Definition NOFLAG := {| ignorecase := false; multiline := false |}.
Definition IGNORECASE := {| ignorecase := true; multiline := false |}.
Definition MULTILINE := {| ignorecase := false; multiline := true |}.

(** A match object: group 0 and the capturing groups in order. *)
Record mobj := { g0 : str; caps : list str }.

Section Matcher.
Context {U : Unicode}.

(** [re]'s case folding of a text character. *)
Definition sre_lower (c : char) : char :=
  if is_ascii c then ascii_lower c
  else if (c =? em_dash)%N then c
  else sre_lower_hi c.

(** The characters [re] also accepts for a folded pattern letter
    ([_ignorecase_fixes]): dotless i for i, long s for s. *)
Definition sre_fixes (lo : char) : list char :=
  if (lo =? 105)%N then [305%N]
  else if (lo =? 115)%N then [383%N]
  else [].

(** A literal of the pattern (always ASCII here) against a text character
    under IGNORECASE: an uncased literal compares exactly, a letter compares
    folded. *)
Definition ci_match (p c : char) : bool :=
  if ascii_isalpha p then
    let lo := ascii_lower p in
    (sre_lower c =? lo)%N || existsb (N.eqb (sre_lower c)) (sre_fixes lo)
  else (c =? p)%N.

Definition in_ranges (rs : list (char * char)) (c : char) : bool :=
  existsb (fun r => (fst r <=? c)%N && (c <=? snd r)%N) rs.

(** The only set the module matches under IGNORECASE is [[!.]], which has
    no cased member; [re] compiles such a set to a plain, case-sensitive
    test. *)
Definition mem (fl : flags) (k : cls) (c : char) : bool :=
  match k with
  | Lit p => if ignorecase fl then ci_match p c else (c =? p)%N
  | OneOf rs => in_ranges rs c
  | Space => isspace c
  end.

Definition isword_at (c : option char) : bool :=
  match c with
  | Some x => isword x
  | None => false
  end.

Section Run.
Variable fl : flags.
Variable A : Type.

(** The matcher is written in continuation-passing style: [k] receives the
    character before the current position, the text still to read and the
    groups captured so far, and answers [None] to make the matcher
    backtrack. *)
Definition cont := option char -> str -> list str -> option A.

Fixpoint rep (c : cls) (n : nat) (prev : option char) (s : str)
    (gs : list str) (k : cont) : option A :=
  match s with
  | x :: s' =>
      if mem fl c x then
        match rep c (pred n) (Some x) s' gs k with
        | Some a => Some a
        | None => match n with O => k prev s gs | S _ => None end
        end
      else match n with O => k prev s gs | S _ => None end
  | [] => match n with O => k prev s gs | S _ => None end
  end.

Fixpoint run (r : re) (prev : option char) (s : str) (gs : list str)
    (k : cont) : option A :=
  match r with
  | Eps => k prev s gs
  | One c =>
      match s with
      | x :: s' => if mem fl c x then k (Some x) s' gs else None
      | [] => None
      end
  | Cat r1 r2 => run r1 prev s gs (fun p' s' gs' => run r2 p' s' gs' k)
  | Alt r1 r2 =>
      match run r1 prev s gs k with
      | Some a => Some a
      | None => run r2 prev s gs k
      end
  | Opt r1 =>
      match run r1 prev s gs k with
      | Some a => Some a
      | None => k prev s gs
      end
  | Rep n c => rep c n prev s gs k
  | Grp r1 =>
      run r1 prev s gs
        (fun p' s' gs' =>
           k p' s' (gs' ++ [firstn (List.length s - List.length s') s]))
  | Bnd =>
      if xorb (isword_at prev) (isword_at (hd_error s)) then k prev s gs
      else None
  | Bol =>
      match prev with
      | None => k prev s gs
      | Some c => if multiline fl && (c =? 10)%N then k prev s gs else None
      end
  | Eol =>
      match s with
      | [] => k prev s gs
      | c :: s' =>
          if (c =? 10)%N && (multiline fl || match s' with [] => true | _ => false end)
          then k prev s gs else None
      end
  end.

End Run.

(** A match that starts at the current position: its length and groups.
    [must_advance] refuses the empty match (set by [re] right after an empty
    match at the same position). *)
Definition match_at (fl : flags) (r : re) (prev : option char) (s : str)
    (must_advance : bool) : option (nat * list str) :=
  run fl r prev s []
    (fun _ s' gs =>
       if must_advance && (List.length s' =? List.length s)
       then None
       else Some (List.length s - List.length s', gs)).

(** The text cut into the characters no match covers and the matches, left
    to right and non-overlapping: the iteration behind [re.sub] and
    [re.findall]. *)
Inductive piece :=
| Keep (c : char)
| Hit (m : mobj).

Fixpoint scan (fl : flags) (r : re) (prev : option char) (s : str)
    (skip : nat) : list piece :=
  match skip with
  | S k =>
      (* inside the match found last *)
      match s with
      | c :: s' => scan fl r (Some c) s' k
      | [] => []
      end
  | O =>
      match match_at fl r prev s false with
      | None =>
          match s with
          | c :: s' => Keep c :: scan fl r (Some c) s' 0
          | [] => []
          end
      | Some (S n, gs) =>
          Hit {| g0 := firstn (S n) s; caps := gs |} ::
          match s with
          | c :: s' => scan fl r (Some c) s' n
          | [] => []
          end
      | Some (O, gs) =>
          Hit {| g0 := []; caps := gs |} ::
          match s with
          | [] => []
          | c :: s' =>
              match match_at fl r prev s true with
              | Some (S n, gs') =>
                  Hit {| g0 := firstn (S n) s; caps := gs' |} ::
                  scan fl r (Some c) s' n
              | _ => Keep c :: scan fl r (Some c) s' 0
              end
          end
      end
  end.

(** [re.sub(pattern, repl, text, flags)] for a literal [repl]. *)
Definition sub (fl : flags) (r : re) (repl : str) (text : str) : str :=
  flat_map (fun p => match p with Keep c => [c] | Hit _ => repl end)
           (scan fl r None text 0).

(** [match.group(n)]: raises IndexError when the pattern has no group [n]. *)
Definition group (m : mobj) (n : nat) : result str :=
  match n with
  | O => Ok (g0 m)
  | S i => match nth_error (caps m) i with
           | Some g => Ok g
           | None => Raise IndexError
           end
  end.

(** [re.sub] with a function for [repl], called on each match in turn. *)
Fixpoint sub_pieces (repl : mobj -> result str) (ps : list piece) : result str :=
  match ps with
  | [] => Ok []
  | Keep c :: ps' => rest <- sub_pieces repl ps' ;; Ok (c :: rest)
  | Hit m :: ps' =>
      x <- repl m ;; rest <- sub_pieces repl ps' ;; Ok (x ++ rest)
  end.

Definition sub_f (fl : flags) (r : re) (repl : mobj -> result str)
    (text : str) : result str :=
  sub_pieces repl (scan fl r None text 0).

(** A replacement template such as [r'\1 ']: literal text and group
    references. *)
Inductive titem :=
| TText (s : str)
| TGroup (n : nat).

(** A reference to a group the pattern does not have raises [re.error]. *)
Definition template_group (m : mobj) (n : nat) : result str :=
  match group m n with
  | Ok g => Ok g
  | Raise _ => Raise ReError
  end.

Fixpoint expand (t : list titem) (m : mobj) : result str :=
  match t with
  | [] => Ok []
  | TText s :: t' => rest <- expand t' m ;; Ok (s ++ rest)
  | TGroup n :: t' =>
      g <- template_group m n ;; rest <- expand t' m ;; Ok (g ++ rest)
  end.

(** [re.findall] for a pattern without capturing groups: the matched
    texts. *)
Definition findall (fl : flags) (r : re) (text : str) : list str :=
  flat_map (fun p => match p with Keep _ => [] | Hit m => [g0 m] end)
           (scan fl r None text 0).

End Matcher.

(** Pattern-building helpers. *)
Definition lit (s : string) : re :=
  fold_right (fun c r => Cat (One (Lit c)) r) Eps (utf8 s).
Definition seq (rs : list re) : re := fold_right Cat Eps rs.
Fixpoint alts (rs : list re) : re :=
  match rs with
  | [] => Eps
  | [r] => r
  | r :: rs' => Alt r (alts rs')
  end.
Definition chars (s : string) : cls := OneOf (map (fun c => (c, c)) (utf8 s)).

End Re.

(** ** humanizer.py *)

Module Humanizer.
Import Py Re.

Local Open Scope string_scope.
Local Open Scope list_scope.

(** [class ContentHumanizer]: the flag and the rule tables [__init__]
    fills.  A Python dict keeps insertion order, so each table is a list. *)
Record ContentHumanizer := {
  aggressive : bool;
  word_replacements : list (re * str);
  remove_phrases : list re;
  youtube_intro_phrases : list re;
  contractions : list (re * str)
}.

(** [\bword\b] *)
Definition whole (w : string) : re := seq [Bnd; lit w; Bnd].

(** [\bstem(?:a|b|..)?\b] *)
Definition stem (w : string) (suffixes : list string) : re :=
  seq [Bnd; lit w; Opt (alts (map lit suffixes)); Bnd].

Definition the_word_replacements : list (re * str) :=
  [ (* High-priority AI tells *)
    (stem "delve" ["s"; "d"], utf8 "explore");
    (whole "delving", utf8 "exploring");
    (stem "leverage" ["s"; "d"], utf8 "use");
    (whole "leveraging", utf8 "using");
    (stem "utilize" ["s"; "d"], utf8 "use");
    (whole "utilizing", utf8 "using");
    (* Overly formal transitions *)
    (whole "moreover", utf8 "also");
    (whole "furthermore", utf8 "also");
    (whole "additionally", utf8 "plus");
    (whole "hence", utf8 "so");
    (whole "thus", utf8 "so");
    (* Marketing buzzwords *)
    (stem "unlock" ["s"; "ed"; "ing"], utf8 "discover");
    (stem "harness" ["es"; "ed"; "ing"], utf8 "use");
    (stem "seamless" ["ly"], utf8 "smooth");
    (whole "robust", utf8 "strong");
    (whole "comprehensive", utf8 "complete");
    (* Gaming-specific AI tells *)
    (* \bembark(?:s|ed|ing)? on (?:a|an) (?:epic )?(?:journey|adventure)\b *)
    (seq [Bnd; lit "embark"; Opt (alts [lit "s"; lit "ed"; lit "ing"]);
          lit " on "; alts [lit "a"; lit "an"]; lit " ";
          Opt (lit "epic "); alts [lit "journey"; lit "adventure"]; Bnd],
     utf8 "start your adventure");
    (whole "master the art of", utf8 "learn");
    (* \bunleash(?:s|ed|ing)? your potential\b *)
    (seq [Bnd; lit "unleash"; Opt (alts [lit "s"; lit "ed"; lit "ing"]);
          lit " your potential"; Bnd],
     utf8 "improve your skills");
    (* \belevate(?:s|d)? your (?:gameplay|experience)\b *)
    (seq [Bnd; lit "elevate"; Opt (alts [lit "s"; lit "d"]);
          lit " your "; alts [lit "gameplay"; lit "experience"]; Bnd],
     utf8 "improve your game") ].

(** [x?] for one literal character *)
Definition opt (c : string) : re := Opt (lit c).

Definition the_remove_phrases : list re :=
  [ seq [lit "It"; opt "'"; lit "s worth noting that "];
    lit "It is worth noting that ";
    seq [lit "It"; opt "'"; lit "s important to note that "];
    lit "It is important to note that ";
    seq [lit "Generally speaking"; opt ","; lit " "];
    seq [lit "In today"; opt "'"; lit "s digital landscape"; opt ","; lit " "];
    lit "In the world of ";
    seq [lit "As we "; Opt (lit "all "); lit "know"; opt ","; lit " "];
    seq [lit "At the end of the day"; opt ","; lit " "];
    seq [lit "The fact of the matter is"; opt ","; lit " "] ].

Definition the_youtube_intro_phrases : list re :=
  [ (* ^In this video,? (?:we'?ll|we will|I'?ll|I will)  *)
    seq [Bol; lit "In this video"; opt ","; lit " ";
         alts [seq [lit "we"; opt "'"; lit "ll"]; lit "we will";
               seq [lit "I"; opt "'"; lit "ll"]; lit "I will"];
         lit " "];
    (* ^Welcome to (?:this|my) (?:video|channel)[!.]?\s* *)
    seq [Bol; lit "Welcome to "; alts [lit "this"; lit "my"]; lit " ";
         alts [lit "video"; lit "channel"]; Opt (One (chars "!."));
         Rep 0 Space];
    (* ^Today,? (?:we'?re|we are|I'?m|I am) going to  *)
    seq [Bol; lit "Today"; opt ","; lit " ";
         alts [seq [lit "we"; opt "'"; lit "re"]; lit "we are";
               seq [lit "I"; opt "'"; lit "m"]; lit "I am"];
         lit " going to "];
    (* ^(?:Hey|Hi) (?:guys|everyone|folks),?\s* *)
    seq [Bol; alts [lit "Hey"; lit "Hi"]; lit " ";
         alts [lit "guys"; lit "everyone"; lit "folks"]; opt ",";
         Rep 0 Space] ].

Definition the_contractions : list (re * str) :=
  [ (whole "do not", utf8 "don't");
    (whole "does not", utf8 "doesn't");
    (whole "did not", utf8 "didn't");
    (whole "cannot", utf8 "can't");
    (whole "will not", utf8 "won't");
    (whole "should not", utf8 "shouldn't");
    (whole "would not", utf8 "wouldn't");
    (whole "could not", utf8 "couldn't");
    (whole "must not", utf8 "mustn't");
    (whole "you are", utf8 "you're");
    (whole "they are", utf8 "they're");
    (whole "we are", utf8 "we're");
    (whole "it is", utf8 "it's");
    (whole "that is", utf8 "that's");
    (whole "who is", utf8 "who's");
    (whole "what is", utf8 "what's");
    (whole "here is", utf8 "here's");
    (whole "there is", utf8 "there's");
    (whole "I am", utf8 "I'm");
    (whole "you will", utf8 "you'll");
    (whole "they will", utf8 "they'll");
    (whole "we will", utf8 "we'll");
    (whole "I will", utf8 "I'll") ].

(** [ContentHumanizer(aggressive)] *)
Definition init (aggressive : bool) : ContentHumanizer :=
  {| aggressive := aggressive;
     word_replacements := the_word_replacements;
     remove_phrases := the_remove_phrases;
     youtube_intro_phrases := the_youtube_intro_phrases;
     contractions := the_contractions |}.

Section Stages.
Context {U : Unicode}.

(** The truth value of a Python string or list: non-empty. *)
Definition nonempty {A} (s : list A) : bool :=
  match s with [] => false | _ :: _ => true end.

(** [part[0].upper() + part[1:]] *)
Definition capitalize_first (s : str) : result str :=
  c <- index0 s ;; Ok (upper [c] ++ slice1 s).

(** The body of the [for i, part in enumerate(parts)] loop of
    [fix_punctuation_tells], with [cleaned_parts] as the accumulator. *)
Fixpoint em_dash_parts (i : nat) (parts : list str) (cleaned_parts : list str)
    : result (list str) :=
  match parts with
  | [] => Ok cleaned_parts
  | part :: rest =>
      let part := strip part in
      if nonempty part then
        part' <- (if (0 <? i)%nat && nonempty part then
                    if (1 <? List.length part)%nat then capitalize_first part
                    else Ok (upper part)
                  else Ok part) ;;
        em_dash_parts (S i) rest (cleaned_parts ++ [part'])
      else em_dash_parts (S i) rest cleaned_parts
  end.

Definition fix_punctuation_tells (text : str) : result str :=
  text <- (if contains em_dash text then
             cleaned_parts <- em_dash_parts 0 (split em_dash text) [] ;;
             Ok (join (utf8 ". ") cleaned_parts)
           else Ok text) ;;
  let text := sub NOFLAG (Rep 2 (chars "!")) (utf8 "!") text in
  let text := sub NOFLAG (Rep 2 (chars "?")) (utf8 "?") text in
  let text := sub NOFLAG (Rep 3 (chars ".")) (utf8 "...") text in
  Ok text.

(** [for pattern, replacement in table: text = re.sub(...)] *)
Definition sub_all (fl : flags) (table : list (re * str)) (text : str) : str :=
  fold_left (fun t pr => sub fl (fst pr) (snd pr) t) table text.

Definition replace_ai_word_choices (self : ContentHumanizer) (text : str) : str :=
  sub_all IGNORECASE (word_replacements self) text.

(** [text[0].upper() + text[1:]] when the text is non-empty and starts
    with a lower-case character. *)
Definition recapitalize (text : str) : result str :=
  if nonempty text then
    c <- index0 text ;;
    if islower [c] then capitalize_first text else Ok text
  else Ok text.

Definition remove_all (fl : flags) (patterns : list re) (text : str) : str :=
  fold_left (fun t p => sub fl p [] t) patterns text.

Definition remove_hedging_language (self : ContentHumanizer) (text : str)
    : result str :=
  let text := remove_all IGNORECASE (remove_phrases self) text in
  let text := strip text in
  recapitalize text.

Definition buzzwords : list re :=
  [ whole "EPIC"; whole "INCREDIBLE"; whole "AMAZING";
    whole "UNBELIEVABLE"; whole "INSANE"; whole "CRAZY" ].

Definition generic_adjectives : list re :=
  [ whole "ultimate"; whole "complete"; whole "comprehensive";
    whole "definitive" ].

Definition fix_youtube_title_tells (text : str) : str :=
  let text := sub NOFLAG (Rep 2 (chars "!?")) [] text in
  let text :=
    if (30 <? List.length text)%nat then
      fold_left (fun t word => sub NOFLAG (Cat word (Rep 0 Space)) [] t)
                buzzwords text
    else text in
  let text :=
    if (40 <? List.length text)%nat then
      fold_left
        (fun t adj =>
           sub IGNORECASE (Cat adj (seq [Rep 1 Space; lit "guide"; Bnd]))
               (utf8 "guide") t)
        generic_adjectives text
    else text in
  text.

Definition subscribe_patterns : list re :=
  [ (* Don'?t forget to (?:like and )?subscribe[!.]?\s* *)
    seq [lit "Don"; opt "'"; lit "t forget to "; Opt (lit "like and ");
         lit "subscribe"; Opt (One (chars "!.")); Rep 0 Space];
    (* Make sure to (?:hit the )?(?:like button|subscribe)[!.]?\s* *)
    seq [lit "Make sure to "; Opt (lit "hit the ");
         alts [lit "like button"; lit "subscribe"];
         Opt (One (chars "!.")); Rep 0 Space];
    (* Remember to (?:like and )?subscribe[!.]?\s* *)
    seq [lit "Remember to "; Opt (lit "like and "); lit "subscribe";
         Opt (One (chars "!.")); Rep 0 Space] ].

Definition fix_youtube_description_tells (self : ContentHumanizer)
    (text : str) : result str :=
  let text := remove_all IGNORECASE (youtube_intro_phrases self) text in
  let text := remove_all IGNORECASE subscribe_patterns text in
  let text := strip text in
  recapitalize text.

Definition add_contractions (self : ContentHumanizer) (text : str) : str :=
  sub_all IGNORECASE (contractions self) text.

(** The nested function of [clean_whitespace]. *)
Definition add_space_after_punct (m : mobj) : result str :=
  punct <- group m 1 ;;
  following <- group m 2 ;;
  if str_eqb punct (utf8 ".") && islower following
     && (List.length following <=? 4)%nat
  then group m 0
  else Ok (punct ++ utf8 " " ++ following).

Definition clean_whitespace (text : str) : result str :=
  let text := sub NOFLAG (Rep 2 (Lit 32%N)) (utf8 " ") text in
  text <- sub_f NOFLAG
            (seq [Rep 1 Space; Grp (One (chars "!?.,;")); Rep 1 Space])
            (expand [TGroup 1; TText (utf8 " ")]) text ;;
  text <- sub_f MULTILINE
            (seq [Rep 1 Space; Grp (One (chars "!?.,;")); Eol])
            (expand [TGroup 1]) text ;;
  text <- sub_f NOFLAG
            (seq [Grp (One (chars ".,!?;:"));
                  Grp (One (OneOf [(65, 90); (97, 122)]%N))])
            add_space_after_punct text ;;
  let text := sub NOFLAG (Rep 3 (Lit 10%N)) [10; 10]%N text in
  Ok text.

Definition humanize (self : ContentHumanizer) (text : str)
    (content_type : str) : result str :=
  if negb (nonempty text) || negb (nonempty (strip text)) then Ok text
  else
    text <- fix_punctuation_tells text ;;
    let text := replace_ai_word_choices self text in
    text <- remove_hedging_language self text ;;
    text <- (if str_eqb content_type (utf8 "youtube_title") then
               Ok (fix_youtube_title_tells text)
             else if str_eqb content_type (utf8 "youtube_description") then
               fix_youtube_description_tells self text
             else if str_eqb content_type (utf8 "youtube_tags") then
               Ok text
             else Ok text) ;;
    let text := if aggressive self then add_contractions self text else text in
    text <- clean_whitespace text ;;
    Ok (strip text).

Definition humanize_text (text : str) (content_type : str) (aggressive : bool)
    : result str :=
  let humanizer := init aggressive in
  humanize humanizer text content_type.

Definition humanize_title (title : str) : result str :=
  humanize_text title (utf8 "youtube_title") true.

Definition humanize_description (description : str) : result str :=
  humanize_text description (utf8 "youtube_description") false.

Definition humanize_tags (tags : str) : result str :=
  humanize_text tags (utf8 "youtube_tags") false.

(** What a tell record carries besides its label: the matched text, or the
    number of em dashes. *)
Inductive evidence :=
| Matched (s : str)
| Counted (n : nat).

Definition ai_words : list string :=
  [ "delve"; "leverage"; "utilize"; "moreover"; "furthermore";
    "unlock"; "harness"; "seamless"; "robust"; "comprehensive" ].

Definition hedging : list string :=
  [ "it's worth noting"; "generally speaking";
    "in today's digital landscape" ].

(** [r'\b' + word + r'(?:s|d|ing)?\b'] *)
Definition ai_word_pattern (word : string) : re :=
  seq [Bnd; lit word; Opt (alts [lit "s"; lit "d"; lit "ing"]); Bnd].

(** The first loop of [detect_ai_tells], threading [tells]. *)
Fixpoint detect_words (words : list string) (text : str)
    (tells : list (str * evidence)) : list (str * evidence) :=
  match words with
  | [] => tells
  | word :: rest =>
      let matches := findall IGNORECASE (ai_word_pattern word) text in
      let tells :=
        if nonempty matches
        then tells ++ map (fun m => (utf8 word, Matched m)) matches
        else tells in
      detect_words rest text tells
  end.

(** The last loop of [detect_ai_tells]. *)
Fixpoint detect_hedging (phrases : list string) (text : str)
    (tells : list (str * evidence)) : list (str * evidence) :=
  match phrases with
  | [] => tells
  | phrase :: rest =>
      let tells :=
        if substring_in (utf8 phrase) (lower text)
        then tells ++ [(utf8 "hedging", Matched (utf8 phrase))]
        else tells in
      detect_hedging rest text tells
  end.

Definition detect_ai_tells (text : str) : list (str * evidence) :=
  let tells := [] in
  let tells := detect_words ai_words text tells in
  let tells :=
    if contains em_dash text
    then tells ++ [(utf8 "em_dash", Counted (count em_dash text))]
    else tells in
  let tells := detect_hedging hedging text tells in
  tells.

End Stages.

End Humanizer.

(** ** A sample table

    Latin-1 letters and the four characters [re] folds onto ASCII letters;
    every other code point above 127 is uncased and not alphanumeric.  It
    shows the laws of [Unicode] can be met and lets the model run on
    concrete texts. *)

Module Sample.
Import Py.

Definition latin1_upper (c : char) : bool :=
  ((192 <=? c) && (c <=? 222) && negb (c =? 215))%N.
Definition latin1_lower (c : char) : bool :=
  ((223 <=? c) && (c <=? 255) && negb (c =? 247))%N.

Definition alnum (c : char) : bool :=
  (latin1_upper c || latin1_lower c ||
   (c =? 304) || (c =? 305) || (c =? 383) || (c =? 8490))%N.

Definition to_upper (c : char) : str :=
  if (c =? 223)%N then [83; 83]%N
  else if (c =? 255)%N then [376]%N
  else if latin1_lower c then [c - 32]%N
  else if (c =? 305)%N then [73]%N
  else if (c =? 383)%N then [83]%N
  else [c].

Definition to_lower (c : char) : char :=
  if latin1_upper c then (c + 32)%N
  else if (c =? 304)%N then 105%N
  else if (c =? 8490)%N then 107%N
  else c.

Lemma sample_fold_alnum : forall c,
  (128 <= c)%N ->
  ((to_lower c <? 128) || (to_lower c =? 305) || (to_lower c =? 383))%N = true ->
  alnum c = true.
Proof.
  intros c Hc H. unfold to_lower, alnum, latin1_upper, latin1_lower in *.
  destruct (N.leb_spec 192 c), (N.leb_spec c 222), (N.eqb_spec c 215);
    cbn [andb negb orb] in *; try reflexivity;
  destruct (N.eqb_spec c 304); cbn [orb] in *;
    rewrite ?orb_true_r; try reflexivity;
  destruct (N.eqb_spec c 8490); cbn [orb] in *;
    rewrite ?orb_true_r; try reflexivity;
  destruct (N.eqb_spec c 305); cbn [orb] in *;
    rewrite ?orb_true_r; try reflexivity;
  destruct (N.eqb_spec c 383); cbn [orb] in *;
    rewrite ?orb_true_r; try reflexivity;
  destruct (N.ltb_spec c 128); cbn [orb] in *; try discriminate; lia.
Qed.

Lemma sample_upper_no_dash : forall c,
  (128 <= c)%N -> c <> em_dash -> ~ In em_dash (to_upper c).
Proof.
  intros c Hc Hd. unfold to_upper, latin1_lower, em_dash in *.
  destruct (N.eqb_spec c 223); [cbn; intuition discriminate|].
  destruct (N.eqb_spec c 255); [cbn; intuition discriminate|].
  destruct (N.leb_spec 223 c), (N.leb_spec c 255), (N.eqb_spec c 247);
    cbn [andb negb];
    try (cbn; intros [E|[]]; lia);
    (destruct (N.eqb_spec c 305); [cbn; intuition discriminate|]);
    (destruct (N.eqb_spec c 383); [cbn; intuition discriminate|]);
    cbn; intros [E|[]]; lia.
Qed.

Lemma sample_upper_some : forall c,
  (128 <= c)%N -> c <> em_dash -> to_upper c <> [].
Proof.
  intros c Hc Hd. unfold to_upper.
  repeat match goal with
         | |- context [if ?b then _ else _] => destruct b eqn:?
         end; discriminate.
Qed.

#[export] Instance tables : Unicode := {|
  isalnum_hi := alnum;
  islower_hi := fun c => latin1_lower c || (c =? 305)%N || (c =? 383)%N;
  isupper_hi := fun c => latin1_upper c || (c =? 304)%N || (c =? 8490)%N;
  upper_hi := to_upper;
  lower_hi := fun _ c _ => [to_lower c];
  sre_lower_hi := to_lower;
  fold_alnum := sample_fold_alnum;
  upper_no_dash := sample_upper_no_dash;
  upper_some := sample_upper_some
|}.

End Sample.

(** * Properties *)

Import Py Re Humanizer.
Local Open Scope string_scope.
Local Open Scope list_scope.

(** ** Basic facts about the string primitives *)

Section StringFacts.
Context {U : Unicode}.

Lemma str_eqb_eq : forall a b, str_eqb a b = true <-> a = b.
Proof.
  induction a as [|x a IH]; destruct b as [|y b]; cbn; split; intro H;
    try reflexivity; try discriminate.
  - apply andb_true_iff in H as [Hx Hab]. apply N.eqb_eq in Hx.
    apply IH in Hab. now subst.
  - injection H as -> ->. rewrite N.eqb_refl. cbn. now apply IH.
Qed.

Lemma str_eqb_neq : forall a b, a <> b -> str_eqb a b = false.
Proof.
  intros a b H. destruct (str_eqb a b) eqn:E; [|reflexivity].
  apply str_eqb_eq in E. contradiction.
Qed.

Lemma lstrip_all_space : forall s, forallb isspace s = true -> lstrip s = [].
Proof.
  induction s as [|c s IH]; cbn; [reflexivity|].
  intro H. apply andb_true_iff in H as [Hc Hs]. rewrite Hc. auto.
Qed.

Lemma strip_all_space : forall s, forallb isspace s = true -> strip s = [].
Proof.
  intros s H. unfold strip. now rewrite (lstrip_all_space s H).
Qed.

End StringFacts.

(** ** The entry point on blank input, and the content types *)

Section EntryPoint.
Context {U : Unicode}.

(** C7.  On an empty or whitespace-only text [humanize] returns the text
    itself, untrimmed, whatever the content type and the aggressive flag. *)
Theorem humanize_blank_unchanged :
  forall (aggressive : bool) (content_type text : str),
    forallb isspace text = true ->
    humanize (init aggressive) text content_type = Ok text.
Proof.
  intros a ct text H. unfold humanize.
  rewrite (strip_all_space text H). cbn [nonempty negb].
  now rewrite orb_true_r.
Qed.

(** Only the two tags ['youtube_title'] and ['youtube_description'] select a
    specializer; any other content type runs the same stages as
    ['general']. *)
Lemma humanize_other_type :
  forall (self : ContentHumanizer) (text ct : str),
    ct <> utf8 "youtube_title" ->
    ct <> utf8 "youtube_description" ->
    humanize self text ct = humanize self text (utf8 "general").
Proof.
  intros self text ct H1 H2. unfold humanize.
  rewrite (str_eqb_neq H1), (str_eqb_neq H2).
  replace (str_eqb (utf8 "general") (utf8 "youtube_title")) with false
    by reflexivity.
  replace (str_eqb (utf8 "general") (utf8 "youtube_description")) with false
    by reflexivity.
  replace (str_eqb (utf8 "general") (utf8 "youtube_tags")) with false
    by reflexivity.
  destruct (str_eqb ct (utf8 "youtube_tags")); reflexivity.
Qed.

End EntryPoint.

(** The witness of C7: three blanks come back as they are, in title mode
    too. *)
Lemma humanize_blank_unchanged_witness :
  humanize (U := Sample.tables) (init true) (utf8 "   ") (utf8 "youtube_title")
  = Ok (utf8 "   ").
Proof.
  apply (@humanize_blank_unchanged Sample.tables true (utf8 "youtube_title")
           (utf8 "   ")).
  reflexivity.
Defined.

(** ** The documented examples, evaluated *)

Section Examples.
Context {U : Unicode}.

(** C2.  On the spec's example the Hedge Remover deletes both hedge phrases
    and capitalizes the first character of the text only: the sentence
    that followed "Generally speaking, " keeps its lower-case "we". *)
Theorem remove_hedges_example :
  forall aggressive,
    remove_hedging_language (init aggressive)
      (utf8 "It's worth noting that this is important. Generally speaking, we should proceed.")
    = Ok (utf8 "This is important. we should proceed.").
Proof. intros []; vm_compute; reflexivity. Qed.

(** The docstring of [humanize_text] promises ["EPIC GAMING. This is
    amazing!"] for this input; the code leaves "this" in lower case. *)
Lemma humanize_text_docstring_example :
  forall aggressive,
    humanize_text
      (utf8 "EPIC GAMING — it's worth noting that this is amazing!!!")
      (utf8 "general") aggressive
    = Ok (utf8 "EPIC GAMING. this is amazing!").
Proof. intros []; vm_compute; reflexivity. Qed.

(** C4 (as amended).  In title mode the spec's example loses "EPIC", has
    "Comprehensive" replaced by "complete", keeps "ULTIMATE" (no listed
    adjective stands before "guide"), and ends in the single "!" the
    Punctuation Normalizer left of "!!!". *)
Theorem title_example :
  forall aggressive,
    humanize_text
      (utf8 "EPIC GAMING GUIDE — The ULTIMATE Comprehensive Tutorial!!!")
      (utf8 "youtube_title") aggressive
    = Ok (utf8 "GAMING GUIDE. The ULTIMATE complete Tutorial!").
Proof. intros []; vm_compute; reflexivity. Qed.

(** C1.  The Whitespace Normalizer leaves "file.txt" alone and puts a space
    into "word.Next", but it also leaves "Hello.world" alone: the pattern
    captures one letter after the punctuation mark, so the test
    [len(following) <= 4] always holds and any lower-case letter after '.'
    blocks the space. *)
Theorem clean_whitespace_extension_guard :
  clean_whitespace (utf8 "file.txt") = Ok (utf8 "file.txt") /\
  clean_whitespace (utf8 "word.Next") = Ok (utf8 "word. Next") /\
  clean_whitespace (utf8 "Hello.world") = Ok (utf8 "Hello.world") /\
  clean_whitespace (utf8 "See the end.start again")
  = Ok (utf8 "See the end.start again").
Proof. repeat split; vm_compute; reflexivity. Qed.

(** Whatever lower-case letter follows the '.', the guard of
    [add_space_after_punct] holds: group 2 is that one letter. *)
Lemma extension_guard_one_letter : forall (c : char) (whole : str),
  ascii_islower c = true ->
  add_space_after_punct {| g0 := whole; caps := [utf8 "."; [c]] |} = Ok whole.
Proof.
  intros c whole H. unfold add_space_after_punct. cbn [group caps nth_error bind g0].
  replace (str_eqb (utf8 ".") (utf8 ".")) with true by reflexivity.
  assert (Ha : is_ascii c = true).
  { unfold is_ascii, ascii_islower in *. apply andb_true_iff in H as [_ H].
    apply N.leb_le in H. apply N.ltb_lt. lia. }
  assert (Hu : ascii_isupper c = false).
  { unfold ascii_isupper, ascii_islower in *. apply andb_true_iff in H as [H _].
    apply N.leb_le in H. apply andb_false_iff. right. apply N.leb_gt. lia. }
  unfold islower. cbn [forallb existsb]. unfold isupper1, islower1.
  now rewrite Ha, Hu, H.
Qed.

End Examples.

(** The counterexample to C4 as stated: the output still carries the
    all-caps "ULTIMATE", no "guide" was collapsed into, and a terminal "!"
    remains. *)
Lemma title_example_counterexample :
  exists out,
    humanize_title (U := Sample.tables)
      (utf8 "EPIC GAMING GUIDE — The ULTIMATE Comprehensive Tutorial!!!")
    = Ok out /\
    substring_in (utf8 "ULTIMATE") out = true /\
    substring_in (utf8 "guide") out = false /\
    last out 0%N = 33%N.
Proof.
  exists (utf8 "GAMING GUIDE. The ULTIMATE complete Tutorial!").
  repeat split; vm_compute; reflexivity.
Qed.

(** ** The matcher on patterns without repetition

    A pattern built from literals, [\b], concatenation, alternation and
    [?] denotes a finite list of literal sequences, in the order in which
    backtracking tries them; the matcher takes the first that fits. *)

Inductive item :=
| IChar (c : char)
| IBnd.

Fixpoint lang (r : re) : list (list item) :=
  match r with
  | Eps => [[]]
  | One (Lit c) => [[IChar c]]
  | Bnd => [[IBnd]]
  | Cat a b => flat_map (fun x => map (app x) (lang b)) (lang a)
  | Alt a b => lang a ++ lang b
  | Opt a => lang a ++ [[]]
  | _ => []
  end.

Fixpoint plain (r : re) : bool :=
  match r with
  | Eps | One (Lit _) | Bnd => true
  | Cat a b | Alt a b => plain a && plain b
  | Opt a => plain a
  | _ => false
  end.

Fixpoint first_some {X A : Type} (f : X -> option A) (l : list X) : option A :=
  match l with
  | [] => None
  | x :: l' => match f x with
               | Some a => Some a
               | None => first_some f l'
               end
  end.

(** The least number of groups a match of [r] records. *)
Fixpoint groups (r : re) : nat :=
  match r with
  | Cat a b => groups a + groups b
  | Alt a b => Nat.min (groups a) (groups b)
  | Grp a => S (groups a)
  | _ => 0
  end.

Definition lastp (prev : option char) (s : str) : option char :=
  match rev s with
  | c :: _ => Some c
  | [] => prev
  end.

Section MatcherFacts.
Context {U : Unicode}.
Variable fl : flags.

Definition bnd (prev : option char) (s : str) : bool :=
  xorb (isword_at prev) (isword_at (hd_error s)).

(** Reading one literal sequence at the current position. *)
Fixpoint eat (w : list item) (prev : option char) (s : str)
    : option (option char * str) :=
  match w with
  | [] => Some (prev, s)
  | IBnd :: w' => if bnd prev s then eat w' prev s else None
  | IChar p :: w' =>
      match s with
      | x :: s' => if mem fl (Lit p) x then eat w' (Some x) s' else None
      | [] => None
      end
  end.

Lemma first_some_ext : forall {X A} (f g : X -> option A) l,
  (forall x, In x l -> f x = g x) -> first_some f l = first_some g l.
Proof.
  induction l as [|x l IH]; cbn; intro H; [reflexivity|].
  rewrite (H x (or_introl eq_refl)), IH; auto.
Qed.

Lemma first_some_app : forall {X A} (f : X -> option A) l1 l2,
  first_some f (l1 ++ l2) =
  match first_some f l1 with Some a => Some a | None => first_some f l2 end.
Proof.
  induction l1 as [|x l1 IH]; cbn; intros; [reflexivity|].
  destruct (f x); auto.
Qed.

Lemma first_some_map : forall {X Y A} (h : X -> Y) (f : Y -> option A) l,
  first_some f (map h l) = first_some (fun x => f (h x)) l.
Proof.
  induction l as [|x l IH]; cbn; [reflexivity|]. now rewrite IH.
Qed.

Lemma first_some_flat_map : forall {X Y A} (h : X -> list Y) (f : Y -> option A) l,
  first_some f (flat_map h l) = first_some (fun x => first_some f (h x)) l.
Proof.
  induction l as [|x l IH]; cbn; [reflexivity|].
  now rewrite first_some_app, IH.
Qed.

Lemma first_some_none : forall {X A} (l : list X),
  first_some (fun _ => @None A) l = None.
Proof. induction l; cbn; auto. Qed.

Lemma first_some_in : forall {X A} (f : X -> option A) l a,
  first_some f l = Some a -> exists x, In x l /\ f x = Some a.
Proof.
  induction l as [|x l IH]; cbn; intros a H; [discriminate|].
  destruct (f x) eqn:E.
  - injection H as <-. exists x. auto.
  - destruct (IH _ H) as (y & Hy & Hf). exists y. auto.
Qed.

Lemma first_some_not_none : forall {X A} (f : X -> option A) l x,
  In x l -> f x <> None -> first_some f l <> None.
Proof.
  induction l as [|y l IH]; cbn; intros x Hin Hf; [contradiction|].
  destruct Hin as [->|Hin].
  - destruct (f x); [discriminate|contradiction].
  - destruct (f y); [discriminate|]. eapply IH; eauto.
Qed.

Lemma eat_app : forall w1 w2 prev s,
  eat (w1 ++ w2) prev s =
  match eat w1 prev s with
  | Some (p', s') => eat w2 p' s'
  | None => None
  end.
Proof.
  induction w1 as [|[p|] w1 IH]; cbn [eat app]; intros; [reflexivity| |].
  - destruct s as [|x s]; [reflexivity|]. destruct (mem fl (Lit p) x); auto.
  - destruct (bnd prev s); auto.
Qed.

Lemma run_plain : forall A r,
  plain r = true ->
  forall prev s gs (k : cont A),
    run fl r prev s gs k =
    first_some (fun w => match eat w prev s with
                         | Some (p', s') => k p' s' gs
                         | None => None
                         end) (lang r).
Proof.
  intros A. induction r as [|c|a IHa b IHb|a IHa b IHb|a IHa|n c|a IHa| | |];
    cbn [plain]; intros Hp prev s gs k; try discriminate.
  - cbn [run lang first_some eat]. now destruct (k prev s gs).
  - destruct c; try discriminate. cbn [run lang first_some eat].
    destruct s as [|x s]; [reflexivity|].
    destruct (mem fl (Lit c) x); [|reflexivity]. now destruct (k (Some x) s gs).
  - apply andb_true_iff in Hp as [Ha Hb]. cbn [run lang].
    rewrite (IHa Ha), first_some_flat_map.
    apply first_some_ext. intros x _. rewrite first_some_map.
    destruct (eat x prev s) as [[p' s']|] eqn:E.
    + rewrite (IHb Hb). apply first_some_ext. intros y _.
      now rewrite eat_app, E.
    + rewrite <- (first_some_none (lang b)) at 1.
      apply first_some_ext. intros y _. now rewrite eat_app, E.
  - apply andb_true_iff in Hp as [Ha Hb]. cbn [run lang].
    now rewrite first_some_app, (IHa Ha), (IHb Hb).
  - cbn [run lang]. rewrite first_some_app, (IHa Hp).
    cbn [first_some eat].
    destruct (first_some _ (lang a)); [reflexivity|]. now destruct (k prev s gs).
  - cbn [run lang first_some eat]. unfold bnd.
    destruct (xorb _ _); [|reflexivity]. now destruct (k prev s gs).
Qed.

(** What [match_at] returns on a pattern without repetition. *)
Lemma match_at_plain : forall r prev s,
  plain r = true ->
  match_at fl r prev s false =
  first_some (fun w => match eat w prev s with
                       | Some (_, s') => Some (List.length s - List.length s', [])
                       | None => None
                       end) (lang r).
Proof.
  intros r prev s Hp. unfold match_at. rewrite (run_plain _ Hp).
  apply first_some_ext. intros w _. destruct (eat w prev s) as [[? ?]|]; reflexivity.
Qed.

Lemma rep_groups : forall A c n prev s gs (k : cont A) a,
  rep fl c n prev s gs k = Some a ->
  exists p' s', k p' s' gs = Some a.
Proof.
  intros A c n prev s. revert n prev.
  induction s as [|x s IH]; intros n prev gs k a H; cbn in H.
  - destruct n; [eauto|discriminate].
  - destruct (mem fl c x).
    + destruct (rep fl c (pred n) (Some x) s gs k) eqn:E.
      * injection H as <-. eapply IH; eauto.
      * destruct n; [eauto|discriminate].
    + destruct n; [eauto|discriminate].
Qed.

Lemma run_groups : forall A r prev s gs (k : cont A) a,
  run fl r prev s gs k = Some a ->
  exists p' s' gs',
    k p' s' gs' = Some a /\ List.length gs + groups r <= List.length gs'.
Proof.
  intros A. induction r as [|c|r1 IH1 r2 IH2|r1 IH1 r2 IH2|r1 IH1|n c|r1 IH1| | |];
    intros prev s gs k a H; cbn [run groups] in *.
  - exists prev, s, gs. split; [assumption|lia].
  - destruct s as [|x s]; [discriminate|].
    destruct (mem fl c x); [|discriminate]. exists (Some x), s, gs. split; [assumption|lia].
  - apply IH1 in H as (p1 & s1 & g1 & H & L1).
    apply IH2 in H as (p2 & s2 & g2 & H & L2).
    exists p2, s2, g2. split; [assumption|lia].
  - destruct (run fl r1 prev s gs k) eqn:E.
    + injection H as <-. apply IH1 in E as (p1 & s1 & g1 & H & L1).
      exists p1, s1, g1. split; [assumption|lia].
    + apply IH2 in H as (p1 & s1 & g1 & H & L1).
      exists p1, s1, g1. split; [assumption|lia].
  - destruct (run fl r1 prev s gs k) eqn:E.
    + injection H as <-. apply IH1 in E as (p1 & s1 & g1 & H & L1).
      exists p1, s1, g1. split; [assumption|lia].
    + exists prev, s, gs. split; [assumption|lia].
  - apply rep_groups in H as (p' & s' & H). exists p', s', gs. split; [assumption|lia].
  - apply IH1 in H as (p1 & s1 & g1 & H & L1).
    eexists _, _, _. split; [exact H|]. rewrite length_app. cbn. lia.
  - destruct (xorb _ _); [|discriminate]. exists prev, s, gs. split; [assumption|lia].
  - destruct prev as [c|].
    + destruct (multiline fl && (c =? 10)%N); [|discriminate].
      eexists _, _, _. split; [exact H|lia].
    + eexists _, _, _. split; [exact H|lia].
  - destruct s as [|c s'].
    + eexists _, _, _. split; [exact H|lia].
    + destruct (_ && _); [|discriminate]. eexists _, _, _. split; [exact H|lia].
Qed.

Lemma match_at_groups : forall r prev s b n gs,
  match_at fl r prev s b = Some (n, gs) ->
  groups r <= List.length gs /\ n <= List.length s.
Proof.
  intros r prev s b n gs H. unfold match_at in H.
  apply run_groups in H as (p' & s' & gs' & H & L).
  destruct (b && _); [discriminate|]. injection H as <- <-.
  cbn in L. split; lia.
Qed.

(** Every match [scan] reports has at least [groups r] groups. *)
Lemma scan_groups : forall r s prev skip,
  Forall (fun p => match p with
                   | Hit m => groups r <= List.length (caps m)
                   | Keep _ => True
                   end) (scan fl r prev s skip).
Proof.
  intros r. induction s as [|c s IH]; intros prev skip.
  - destruct skip; cbn; [|constructor].
    destruct (match_at fl r prev [] false) as [[[|n] gs]|] eqn:E;
      repeat constructor; cbn; eapply match_at_groups; eauto.
  - destruct skip; cbn; [|apply IH].
    destruct (match_at fl r prev (c :: s) false) as [[[|n] gs]|] eqn:E.
    + constructor; [cbn; eapply match_at_groups; eauto|].
      destruct (match_at fl r prev (c :: s) true) as [[[|n] gs']|] eqn:E';
        constructor; auto; cbn; eapply match_at_groups; eauto.
    + constructor; [cbn; eapply match_at_groups; eauto|apply IH].
    + constructor; auto.
Qed.

End MatcherFacts.

(** ** No stage raises *)

Section Totality.
Context {U : Unicode}.

Definition returns {A} (x : result A) : Prop := exists a, x = Ok a.

Lemma returns_bind : forall {A B} (x : result A) (f : A -> result B),
  returns x -> (forall a, returns (f a)) -> returns (x <- x ;; f x).
Proof.
  intros A B x f [a ->] Hf. cbn. apply Hf.
Qed.

Lemma group_ok : forall m n,
  n <= List.length (caps m) -> returns (group m n).
Proof.
  intros m [|i] H; cbn; [now eexists|].
  destruct (nth_error (caps m) i) eqn:E; [now eexists|].
  apply nth_error_None in E. lia.
Qed.

Lemma sub_pieces_ok : forall repl ps,
  Forall (fun p => match p with Hit m => returns (repl m) | Keep _ => True end) ps ->
  returns (sub_pieces repl ps).
Proof.
  induction ps as [|[c|m] ps IH]; intro H; cbn [sub_pieces].
  - now eexists.
  - inversion_clear H. apply returns_bind; [auto|]. intros; now eexists.
  - inversion_clear H. apply returns_bind; [assumption|]. intros x.
    apply returns_bind; [auto|]. intros; now eexists.
Qed.

(** [re.sub] with a function returns as soon as the function returns on
    every match object with as many groups as the pattern has. *)
Lemma sub_f_ok : forall fl r repl text,
  (forall m, groups r <= List.length (caps m) -> returns (repl m)) ->
  returns (sub_f fl r repl text).
Proof.
  intros fl r repl text H. unfold sub_f. apply sub_pieces_ok.
  eapply Forall_impl; [|apply scan_groups].
  intros [c|m]; auto.
Qed.

Lemma capitalize_first_ok : forall s, nonempty s = true -> returns (capitalize_first s).
Proof.
  intros [|c s] H; [discriminate|]. cbn. now eexists.
Qed.

Lemma recapitalize_ok : forall s, returns (recapitalize s).
Proof.
  intros s. unfold recapitalize. destruct (nonempty s) eqn:E; [|now eexists].
  destruct s as [|c s]; [discriminate|]. cbn [index0 bind].
  destruct (islower [c]); [|now eexists]. now apply capitalize_first_ok.
Qed.

Lemma em_dash_parts_ok : forall parts i cleaned,
  returns (em_dash_parts i parts cleaned).
Proof.
  induction parts as [|part rest IH]; intros i cleaned; cbn [em_dash_parts].
  - now eexists.
  - cbv zeta. destruct (nonempty (strip part)) eqn:E; [|apply IH].
    apply returns_bind; [|intros; apply IH].
    destruct ((0 <? i)%nat && true); [|now eexists].
    destruct (1 <? _)%nat; [|now eexists]. now apply capitalize_first_ok.
Qed.

Lemma fix_punctuation_tells_ok : forall text, returns (fix_punctuation_tells text).
Proof.
  intros text. unfold fix_punctuation_tells.
  apply returns_bind; [|intros; now eexists].
  destruct (contains em_dash text); [|now eexists].
  apply returns_bind; [apply em_dash_parts_ok|intros; now eexists].
Qed.

Lemma expand_ok : forall t m,
  Forall (fun i => match i with
                   | TGroup n => n <= List.length (caps m)
                   | TText _ => True
                   end) t ->
  returns (expand t m).
Proof.
  induction t as [|[s|n] t IH]; intros m H; cbn [expand].
  - now eexists.
  - inversion_clear H. apply returns_bind; [auto|]. intros; now eexists.
  - inversion_clear H. apply returns_bind.
    { unfold template_group. destruct (@group_ok m n) as [g ->]; [assumption|].
      now eexists. }
    intros g. apply returns_bind; [auto|]. intros; now eexists.
Qed.

Lemma add_space_after_punct_ok : forall m,
  2 <= List.length (caps m) -> returns (add_space_after_punct m).
Proof.
  intros m H. unfold add_space_after_punct.
  apply returns_bind; [apply group_ok; lia|]. intros punct.
  apply returns_bind; [apply group_ok; lia|]. intros following.
  destruct (_ && _); [apply group_ok; lia|now eexists].
Qed.

Lemma clean_whitespace_ok : forall text, returns (clean_whitespace text).
Proof.
  intros text. unfold clean_whitespace. cbv zeta.
  apply returns_bind.
  { apply sub_f_ok. intros m Hm. apply expand_ok.
    repeat constructor. exact Hm. }
  intros t1. apply returns_bind.
  { apply sub_f_ok. intros m Hm. apply expand_ok.
    repeat constructor. exact Hm. }
  intros t2. apply returns_bind.
  { apply sub_f_ok. intros m Hm. apply add_space_after_punct_ok. exact Hm. }
  intros; now eexists.
Qed.

Lemma humanize_ok : forall self text content_type,
  returns (humanize self text content_type).
Proof.
  intros self text ct. unfold humanize.
  destruct (_ || _); [now eexists|].
  apply returns_bind; [apply fix_punctuation_tells_ok|]. intros t1.
  cbv zeta. apply returns_bind.
  { unfold remove_hedging_language. apply recapitalize_ok. }
  intros t2. apply returns_bind.
  { destruct (str_eqb ct _); [now eexists|].
    destruct (str_eqb ct _); [|destruct (str_eqb ct _); now eexists].
    unfold fix_youtube_description_tells. apply recapitalize_ok. }
  intros t3. apply returns_bind; [apply clean_whitespace_ok|].
  intros; now eexists.
Qed.

(** C8.  Whatever the text, the content type and the aggressive flag,
    [humanize] returns a string: no [s[0]], [match.group(n)] or template
    reference inside a stage raises. *)
Theorem humanize_never_raises :
  forall (aggressive : bool) (text content_type : str),
    exists out : str,
      humanize_text text content_type aggressive = Ok out.
Proof.
  intros a text ct. apply humanize_ok.
Qed.

(** C10.  Every content type other than ['youtube_title'] and
    ['youtube_description'] is accepted and gives what ['general'] gives. *)
Theorem humanize_unknown_type_is_general :
  forall (aggressive : bool) (text content_type : str),
    content_type <> utf8 "youtube_title" ->
    content_type <> utf8 "youtube_description" ->
    exists out : str,
      humanize_text text content_type aggressive = Ok out /\
      humanize_text text (utf8 "general") aggressive = Ok out.
Proof.
  intros a text ct H1 H2. unfold humanize_text. cbv zeta.
  destruct (humanize_ok (init a) text ct) as [out E].
  exists out. split; [assumption|].
  now rewrite <- (humanize_other_type (init a) text H1 H2).
Qed.

End Totality.

(** The witness of C10: the spec's own enum name ['title'] is not
    ['youtube_title'], so a title passed with it is treated as general
    text. *)
Lemma humanize_unknown_type_is_general_witness :
  exists out,
    humanize_text (U := Sample.tables) (utf8 "EPIC  news!!!") (utf8 "title") true = Ok out /\
    humanize_text (U := Sample.tables) (utf8 "EPIC  news!!!") (utf8 "general") true = Ok out.
Proof.
  apply (@humanize_unknown_type_is_general Sample.tables true
           (utf8 "EPIC  news!!!") (utf8 "title")).
  - vm_compute. discriminate.
  - vm_compute. discriminate.
Defined.

(** ** The em-dash rule of the Punctuation Normalizer *)

(** The rule in the spec's words: the text is split on the em dash, the
    segments are trimmed, the empty ones are dropped, and every remaining
    segment but what was the first gets its first character in upper
    case. *)
Section EmDashRule.
Context {U : Unicode}.

Definition capitalized (segment : str) : str :=
  match segment with
  | [] => []
  | c :: rest => upper [c] ++ rest
  end.

Definition em_dash_segments (text : str) : list str :=
  match map strip (split em_dash text) with
  | [] => []
  | first :: others =>
      filter nonempty [first] ++ map capitalized (filter nonempty others)
  end.

(** The three repeated-punctuation substitutions that close
    [fix_punctuation_tells]. *)
Definition collapse_repeats (text : str) : str :=
  sub NOFLAG (Rep 3 (chars ".")) (utf8 "...")
    (sub NOFLAG (Rep 2 (chars "?")) (utf8 "?")
       (sub NOFLAG (Rep 2 (chars "!")) (utf8 "!") text)).

Lemma upper1_nonempty : forall c, upper1 c <> [].
Proof.
  intros c. unfold upper1. destruct (is_ascii c) eqn:Ea; [discriminate|].
  destruct (N.eqb_spec c em_dash); [discriminate|].
  apply upper_some; [|assumption].
  unfold is_ascii in Ea. apply N.ltb_ge in Ea. exact Ea.
Qed.

Lemma capitalized_nonempty : forall p, nonempty p = true -> nonempty (capitalized p) = true.
Proof.
  intros [|c p] H; [discriminate|]. cbn. rewrite app_nil_r.
  destruct (upper1 c) eqn:E; [now apply upper1_nonempty in E|reflexivity].
Qed.

Lemma capitalize_source : forall part,
  nonempty part = true ->
  (if (1 <? List.length part)%nat then capitalize_first part else Ok (upper part))
  = Ok (capitalized part).
Proof.
  intros [|c [|d p]] H; [discriminate| |]; cbn; now rewrite ?app_nil_r.
Qed.

Lemma em_dash_parts_later : forall parts i cleaned,
  em_dash_parts (S i) parts cleaned
  = Ok (cleaned ++ map capitalized (filter nonempty (map strip parts))).
Proof.
  induction parts as [|part rest IH]; intros i cleaned; cbn [em_dash_parts map filter].
  - now rewrite app_nil_r.
  - cbv zeta. destruct (nonempty (strip part)) eqn:E.
    + replace ((0 <? S i)%nat && true) with true by reflexivity.
      rewrite (capitalize_source _ E). cbn [bind]. rewrite IH.
      cbn [map]. now rewrite <- app_assoc.
    + apply IH.
Qed.

Lemma em_dash_parts_spec : forall text,
  em_dash_parts 0 (split em_dash text) [] = Ok (em_dash_segments text).
Proof.
  intros text. unfold em_dash_segments.
  destruct (split em_dash text) as [|first others]; [reflexivity|].
  cbn [em_dash_parts map filter]. cbv zeta.
  destruct (nonempty (strip first)) eqn:E.
  - cbn [andb Nat.ltb Nat.leb bind]. now rewrite em_dash_parts_later.
  - now rewrite em_dash_parts_later.
Qed.

Lemma em_dash_segments_nonempty : forall text,
  Forall (fun segment => nonempty segment = true) (em_dash_segments text).
Proof.
  intros text. unfold em_dash_segments.
  destruct (map strip (split em_dash text)) as [|first others]; [constructor|].
  apply Forall_app. split.
  - cbn. destruct (nonempty first) eqn:E; repeat constructor; assumption.
  - apply Forall_forall. intros x Hx. apply in_map_iff in Hx as (y & <- & Hy).
    apply filter_In in Hy as [_ Hy]. now apply capitalized_nonempty.
Qed.

Lemma fix_punctuation_tells_spec : forall text,
  fix_punctuation_tells text =
  Ok (collapse_repeats
        (if contains em_dash text
         then join (utf8 ". ") (em_dash_segments text)
         else text)).
Proof.
  intros text. unfold fix_punctuation_tells, collapse_repeats.
  destruct (contains em_dash text); [|reflexivity].
  now rewrite em_dash_parts_spec.
Qed.

(** C5.  When the text holds an em dash, [fix_punctuation_tells] joins with
    ". " the trimmed, non-empty segments between the dashes, the later ones
    capitalized; no segment of the joined text is empty; and the spec's
    example comes out as documented. *)
Theorem em_dash_rule :
  (forall text,
     fix_punctuation_tells text =
     Ok (collapse_repeats
           (if contains em_dash text
            then join (utf8 ". ") (em_dash_segments text)
            else text))) /\
  (forall text,
     Forall (fun segment => nonempty segment = true) (em_dash_segments text)) /\
  fix_punctuation_tells (utf8 "This is a test — and it continues here")
  = Ok (utf8 "This is a test. And it continues here") /\
  fix_punctuation_tells (utf8 "one —— two — ") = Ok (utf8 "one. Two").
Proof.
  split; [exact fix_punctuation_tells_spec|].
  split; [exact em_dash_segments_nonempty|split; vm_compute; reflexivity].
Qed.

End EmDashRule.

(** ** The Tell Detector *)

Section TellDetector.
Context {U : Unicode}.

(** The three groups of records in the spec's words. *)
Definition word_records (text : str) : list (str * evidence) :=
  flat_map
    (fun word =>
       map (fun occurrence => (utf8 word, Matched occurrence))
           (findall IGNORECASE (ai_word_pattern word) text))
    ai_words.

Definition em_dash_record (text : str) : list (str * evidence) :=
  if contains em_dash text
  then [(utf8 "em_dash", Counted (count em_dash text))]
  else [].

Definition hedging_records (text : str) : list (str * evidence) :=
  map (fun phrase => (utf8 "hedging", Matched (utf8 phrase)))
      (filter (fun phrase => substring_in (utf8 phrase) (lower text)) hedging).

Lemma detect_words_spec : forall words text tells,
  detect_words words text tells =
  tells ++
  flat_map
    (fun word =>
       map (fun occurrence => (utf8 word, Matched occurrence))
           (findall IGNORECASE (ai_word_pattern word) text))
    words.
Proof.
  induction words as [|word rest IH]; intros text tells; cbn [detect_words flat_map].
  - now rewrite app_nil_r.
  - cbv zeta. rewrite IH.
    destruct (findall IGNORECASE (ai_word_pattern word) text) as [|m ms];
      cbn [nonempty map app]; [reflexivity|].
    now rewrite <- app_assoc.
Qed.

Lemma detect_hedging_spec : forall phrases text tells,
  detect_hedging phrases text tells =
  tells ++
  map (fun phrase => (utf8 "hedging", Matched (utf8 phrase)))
      (filter (fun phrase => substring_in (utf8 phrase) (lower text)) phrases).
Proof.
  induction phrases as [|phrase rest IH]; intros text tells;
    cbn [detect_hedging filter map].
  - now rewrite app_nil_r.
  - cbv zeta. rewrite IH.
    destruct (substring_in (utf8 phrase) (lower text)); [|reflexivity].
    cbn [map]. now rewrite <- app_assoc.
Qed.

Lemma startswith_app : forall p rest : str, startswith p (p ++ rest) = true.
Proof.
  induction p as [|a p IH]; intros rest; [reflexivity|].
  cbn [app startswith]. now rewrite N.eqb_refl, IH.
Qed.

Lemma substring_in_app : forall p pre rest : str,
  substring_in p (pre ++ p ++ rest) = true.
Proof.
  intros p. induction pre as [|x pre IH]; intros rest.
  - cbn [app]. destruct (p ++ rest) eqn:E; cbn [substring_in];
      rewrite <- E, startswith_app; reflexivity.
  - cbn [app substring_in]. rewrite IH. apply orb_true_r.
Qed.

(** [str.lower] maps an ASCII character to its lower case whatever stands
    around it. *)
Lemma lower_from_ascii : forall (w before post : str),
  forallb is_ascii w = true ->
  lower_from before (w ++ post) =
  map ascii_lower w ++ lower_from (before ++ w) post.
Proof.
  induction w as [|c w IH]; intros before post H.
  - now rewrite app_nil_r.
  - cbn [forallb] in H. apply andb_true_iff in H as [Hc Hw].
    cbn [app lower_from map]. unfold lower1. rewrite Hc. cbn [app].
    rewrite (IH (before ++ [c]) post Hw). now rewrite <- app_assoc.
Qed.

Lemma lower_from_inside : forall (pre before w post : str),
  forallb is_ascii w = true ->
  exists l1 l2,
    lower_from before (pre ++ w ++ post) = l1 ++ map ascii_lower w ++ l2.
Proof.
  induction pre as [|c pre IH]; intros before w post H.
  - exists [], (lower_from (before ++ w) post). cbn [app].
    now apply lower_from_ascii.
  - destruct (IH (before ++ [c]) w post H) as (l1 & l2 & E).
    exists (lower1 before c (pre ++ w ++ post) ++ l1), l2.
    cbn [app lower_from]. now rewrite E, <- app_assoc.
Qed.

(** A hedging phrase is found in the text whatever the case it is written
    in. *)
Lemma hedging_found_in_capitals : forall (phrase : string) (pre post : str),
  In phrase hedging ->
  substring_in (utf8 phrase)
    (lower (pre ++ map ascii_upper (utf8 phrase) ++ post)) = true.
Proof.
  intros phrase pre post Hin. unfold lower.
  assert (Ha : forallb is_ascii (map ascii_upper (utf8 phrase)) = true /\
               map ascii_lower (map ascii_upper (utf8 phrase)) = utf8 phrase).
  { cbn in Hin. repeat (destruct Hin as [<-|Hin]; [split; vm_compute; reflexivity|]).
    contradiction. }
  destruct Ha as [Ha Hl].
  destruct (lower_from_inside pre [] _ post Ha) as (l1 & l2 & ->).
  rewrite Hl. apply substring_in_app.
Qed.

(** C9.  [detect_ai_tells] lists one record per occurrence of each AI word,
    word by word in the order of [ai_words]; then one record with the
    number of em dashes if there is any; then one record per hedging
    phrase present in the lower-cased text, in the order of [hedging],
    however often the phrase occurs.  The hedging search does not look at
    the case: a phrase written in capitals is reported, wherever it stands
    in the text. *)
Theorem detect_ai_tells_order :
  (forall text,
     detect_ai_tells text =
     word_records text ++ em_dash_record text ++ hedging_records text) /\
  (forall pre post : str,
     Forall
       (fun phrase =>
          In (utf8 "hedging", Matched (utf8 phrase))
             (detect_ai_tells (pre ++ map ascii_upper (utf8 phrase) ++ post)))
       hedging) /\
  detect_ai_tells
    (utf8 "Robust! Delve and delves — Generally speaking, generally speaking — ok")
  = [ (utf8 "delve", Matched (utf8 "Delve"));
      (utf8 "delve", Matched (utf8 "delves"));
      (utf8 "robust", Matched (utf8 "Robust"));
      (utf8 "em_dash", Counted 2);
      (utf8 "hedging", Matched (utf8 "generally speaking")) ] /\
  detect_ai_tells
    (utf8 "In Today's Digital Landscape, it's WORTH noting: Generally Speaking, ok")
  = [ (utf8 "hedging", Matched (utf8 "it's worth noting"));
      (utf8 "hedging", Matched (utf8 "generally speaking"));
      (utf8 "hedging", Matched (utf8 "in today's digital landscape")) ].
Proof.
  assert (Order : forall text,
            detect_ai_tells text =
            word_records text ++ em_dash_record text ++ hedging_records text).
  { intros text.
    unfold detect_ai_tells, word_records, em_dash_record, hedging_records.
    cbv zeta. rewrite detect_hedging_spec, detect_words_spec. cbn [app].
    destruct (contains em_dash text); cbn [app].
    - now rewrite <- app_assoc.
    - reflexivity. }
  split; [exact Order|]. split; [|split; vm_compute; reflexivity].
  intros pre post. apply Forall_forall. intros phrase Hin.
  rewrite Order. apply in_or_app. right. apply in_or_app. right.
  unfold hedging_records.
  apply (in_map (fun phrase => (utf8 "hedging", Matched (utf8 phrase)))).
  apply filter_In. split; [assumption|].
  now apply hedging_found_in_capitals.
Qed.

End TellDetector.

(** ** Word and phrase rules

    Every rule of the Lexical Substituter reads [\b], a phrase written in
    lower-case letters and single spaces, and [\b] again.  This section
    describes what such a pattern matches, character by character. *)

(** The characters rule phrases are written with. *)
Definition pchar (c : char) : bool := ascii_islower c || (c =? 32)%N.

(** The first token of a phrase and what follows it. *)
Fixpoint first_tok (w : str) : str :=
  match w with
  | c :: w' => if ascii_islower c then c :: first_tok w' else []
  | [] => []
  end.

Fixpoint after_tok (w : str) : str :=
  match w with
  | c :: w' => if ascii_islower c then after_tok w' else w
  | [] => []
  end.

(** The suffixes of a phrase that start a token: the phrase itself and
    what follows each space. *)
Fixpoint starts_after_space (w : str) : list str :=
  match w with
  | [] => []
  | c :: w' => (if (c =? 32)%N then [w'] else []) ++ starts_after_space w'
  end.
Definition starts (w : str) : list str := w :: starts_after_space w.

(** The tokens of a phrase. *)
Definition vocab (w : str) : list str := map first_tok (starts w).

(** A well-formed phrase: letters and spaces, a letter first and last. *)
Definition wf_phrase (w : str) : bool :=
  forallb pchar w &&
  match w with c :: _ => ascii_islower c | [] => false end &&
  match rev w with c :: _ => ascii_islower c | [] => false end.

Definition frame (w : str) : list item := IBnd :: map IChar w ++ [IBnd].

Definition unframe (w : list item) : str :=
  flat_map (fun i => match i with IChar c => [c] | IBnd => [] end) w.

(** The phrases a rule pattern can match, in backtracking order. *)
Definition phrases (r : re) : list str := map unframe (lang r).

Section PhraseMatching.
Context {U : Unicode}.

(** Reading the characters of [w], case-insensitively. *)
Fixpoint eatw (w : str) (prev : option char) (s : str)
    : option (option char * str) :=
  match w with
  | [] => Some (prev, s)
  | p :: w' =>
      match s with
      | x :: s' => if ci_match p x then eatw w' (Some x) s' else None
      | [] => None
      end
  end.

(** [w] against the whole of [t], case-insensitively. *)
Fixpoint ci_eq (w t : str) : bool :=
  match w, t with
  | [], [] => true
  | p :: w', c :: t' => ci_match p c && ci_eq w' t'
  | _, _ => false
  end.

(** [w] can be read at the current position and ends on a boundary. *)
Definition cand (w : str) (prev : option char) (s : str) : bool :=
  match eatw w prev s with
  | Some (p', s') => bnd p' s'
  | None => false
  end.

(** Some phrase of [L] matches at the current position. *)
Definition hits (L : list str) (prev : option char) (s : str) : bool :=
  bnd prev s && existsb (fun w => cand w prev s) L.

Definition phrase_match (L : list str) (prev : option char) (s : str) : option nat :=
  first_some (fun w => match eat IGNORECASE (frame w) prev s with
                       | Some (_, s') => Some (List.length s - List.length s')
                       | None => None
                       end) L.

(** A letter of a pattern only accepts word characters. *)
Lemma ci_match_letter_word : forall p c,
  ascii_islower p = true -> ci_match p c = true -> isword c = true.
Proof.
  intros p c Hp H. unfold ci_match in H.
  unfold ascii_isalpha in H. rewrite Hp, orb_true_r in H.
  assert (Hlo : ascii_lower p = p).
  { unfold ascii_lower, ascii_isupper, ascii_islower in *.
    destruct (N.leb_spec 65 p), (N.leb_spec p 90), (N.leb_spec 97 p);
      cbn in *; try reflexivity; try discriminate; lia. }
  rewrite Hlo in H. cbv zeta in H.
  assert (Hp' : (97 <= p <= 122)%N).
  { unfold ascii_islower in Hp. apply andb_true_iff in Hp as [A B].
    apply N.leb_le in A, B. lia. }
  unfold isword, isalnum, sre_lower in *.
  destruct (is_ascii c) eqn:Ea.
  - unfold is_ascii in Ea. apply N.ltb_lt in Ea.
    assert (Hf : existsb (N.eqb (ascii_lower c)) (sre_fixes p) = false).
    { unfold sre_fixes, ascii_lower.
      destruct (p =? 105)%N; [|destruct (p =? 115)%N]; cbn; try reflexivity;
        rewrite orb_false_r; apply N.eqb_neq; destruct (ascii_isupper c); lia. }
    rewrite Hf, orb_false_r in H. apply N.eqb_eq in H.
    unfold ascii_lower, ascii_isalpha, ascii_isupper, ascii_islower in *.
    destruct (N.leb_spec 65 c), (N.leb_spec c 90), (N.leb_spec 97 c),
      (N.leb_spec c 122); cbn in *; try reflexivity; lia.
  - destruct (N.eqb_spec c em_dash) as [->|Hd].
    + exfalso. unfold sre_fixes, em_dash in H.
      destruct (N.eqb_spec 8212 p); [lia|]. cbn in H.
      destruct (p =? 105)%N; [|destruct (p =? 115)%N]; cbn in H; discriminate.
    + unfold is_ascii in Ea. apply N.ltb_ge in Ea.
      rewrite (@fold_alnum _ c Ea); [reflexivity|].
      apply orb_true_iff in H as [H|H].
      * apply N.eqb_eq in H. rewrite H.
        replace (p <? 128)%N with true; [reflexivity|].
        symmetry. apply N.ltb_lt. lia.
      * unfold sre_fixes in H.
        destruct (p =? 105)%N; [|destruct (p =? 115)%N]; cbn in H;
          try discriminate; rewrite orb_false_r in H; rewrite H;
          now rewrite ?orb_true_r.
Qed.

(** The space of a pattern only accepts a space. *)
Lemma ci_match_space : forall c, ci_match 32%N c = true -> c = 32%N.
Proof.
  intros c H. unfold ci_match in H. cbn in H. now apply N.eqb_eq in H.
Qed.

Lemma pchar_cases : forall p, pchar p = true -> ascii_islower p = true \/ p = 32%N.
Proof.
  intros p H. unfold pchar in H. apply orb_true_iff in H as [H|H]; [now left|].
  right. now apply N.eqb_eq in H.
Qed.

Lemma islower_word : forall c, ascii_islower c = true -> isword c = true.
Proof.
  intros c H. unfold isword, isalnum, is_ascii, ascii_isalpha.
  unfold ascii_islower in *. apply andb_true_iff in H as [A B].
  apply N.leb_le in A, B.
  replace (c <? 128)%N with true by (symmetry; apply N.ltb_lt; lia).
  rewrite (proj2 (N.leb_le 97 c) A), (proj2 (N.leb_le c 122) B). cbn.
  now rewrite orb_true_r.
Qed.

End PhraseMatching.

Local Close Scope string_scope.

(** ** Reading a phrase in the text *)

Section Reading.
Context {U : Unicode}.

Lemma eat_chars : forall w prev s,
  eat IGNORECASE (map IChar w) prev s = eatw w prev s.
Proof.
  induction w as [|p w IH]; intros prev s; cbn [map eat eatw]; [reflexivity|].
  destruct s as [|x s]; [reflexivity|]. cbn [mem ignorecase IGNORECASE].
  destruct (ci_match p x); auto.
Qed.

Lemma eat_frame : forall w prev s,
  eat IGNORECASE (frame w) prev s =
  if bnd prev s then
    match eatw w prev s with
    | Some (p', s') => if bnd p' s' then Some (p', s') else None
    | None => None
    end
  else None.
Proof.
  intros w prev s. unfold frame. cbn [eat].
  destruct (bnd prev s); [|reflexivity].
  rewrite eat_app, eat_chars.
  destruct (eatw w prev s) as [[p' s']|]; [|reflexivity].
  cbn [eat]. now destruct (bnd p' s').
Qed.

Lemma eatw_length : forall w prev s p' s',
  eatw w prev s = Some (p', s') -> List.length s = List.length w + List.length s'.
Proof.
  induction w as [|p w IH]; intros prev s p' s' H; cbn [eatw] in H.
  - now injection H as <- <-.
  - destruct s as [|x s]; [discriminate|].
    destruct (ci_match p x); [|discriminate].
    apply IH in H. cbn. lia.
Qed.

(** Reading [w] only looks at the first [length w] characters. *)
Lemma eatw_more : forall w prev s y p' s',
  eatw w prev s = Some (p', s') -> eatw w prev (s ++ y) = Some (p', s' ++ y).
Proof.
  induction w as [|p w IH]; intros prev s y p' s' H; cbn [eatw] in *.
  - now injection H as <- <-.
  - destruct s as [|x s]; [discriminate|]. cbn [app].
    destruct (ci_match p x); [|discriminate]. now apply IH.
Qed.

Lemma eatw_less : forall w prev u y p' s',
  eatw w prev (u ++ y) = Some (p', s') ->
  List.length w <= List.length u ->
  exists u', eatw w prev u = Some (p', u') /\ s' = u' ++ y.
Proof.
  induction w as [|p w IH]; intros prev u y p' s' H L; cbn [eatw] in *.
  - injection H as <- <-. now exists u.
  - destruct u as [|x u]; [cbn in L; lia|]. cbn [app] in H.
    destruct (ci_match p x); [|discriminate].
    apply IH in H; [assumption|cbn in L; lia].
Qed.

(** Reading [w] across the end of [u]: the part of [w] that covers [u] and
    the part that goes on. *)
Lemma eatw_split : forall u w prev y r,
  eatw w prev (u ++ y) = Some r ->
  List.length u <= List.length w ->
  exists w1 w2,
    w = w1 ++ w2 /\ List.length w1 = List.length u /\
    ci_eq w1 u = true /\ eatw w2 (lastp prev u) y = Some r.
Proof.
  induction u as [|x u IH]; intros w prev y r H L.
  - exists [], w. repeat split; assumption.
  - destruct w as [|p w]; [cbn in L; lia|]. cbn [app eatw] in H.
    destruct (ci_match p x) eqn:E; [|discriminate].
    apply IH in H as (w1 & w2 & -> & L1 & C & H); [|cbn in L; lia].
    exists (p :: w1), w2. repeat split.
    + cbn. now rewrite L1.
    + cbn. now rewrite E.
    + replace (lastp prev (x :: u)) with (lastp (Some x) u); [assumption|].
      unfold lastp. cbn [rev]. destruct (rev u) as [|z zs]; reflexivity.
Qed.

Lemma lastp_cons : forall prev x u, lastp prev (x :: u) = lastp (Some x) u.
Proof.
  intros. unfold lastp. cbn [rev]. destruct (rev u) as [|z zs]; reflexivity.
Qed.

Lemma lastp_app : forall prev a b, lastp prev (a ++ b) = lastp (lastp prev a) b.
Proof.
  intros prev a. revert prev. induction a as [|x a IH]; intros prev b; [reflexivity|].
  cbn [app]. now rewrite !lastp_cons, IH.
Qed.

Lemma lastp_snoc : forall prev a c, lastp prev (a ++ [c]) = Some c.
Proof. intros. now rewrite lastp_app. Qed.

Lemma ci_eq_app : forall w1 t1 w2 t2,
  List.length w1 = List.length t1 ->
  ci_eq (w1 ++ w2) (t1 ++ t2) = ci_eq w1 t1 && ci_eq w2 t2.
Proof.
  induction w1 as [|p w1 IH]; destruct t1 as [|c t1]; cbn; intros w2 t2 L;
    try discriminate; [reflexivity|].
  rewrite IH by lia. now rewrite andb_assoc.
Qed.

(** A phrase read at the start of a token [t] of the text, up to a word
    boundary, has a first token that spells [t]. *)
Lemma tok_align : forall w t prev post p' s',
  forallb pchar w = true ->
  forallb isword t = true ->
  (w = [] -> isword_at prev = true) ->
  (t = [] -> isword_at prev = true) ->
  isword_at (hd_error post) = false ->
  eatw w prev (t ++ post) = Some (p', s') ->
  bnd p' s' = true ->
  ci_eq (first_tok w) t = true.
Proof.
  induction w as [|x w IH]; intros t prev post p' s' Hw Ht Hwp Htp Hpost H B.
  - cbn [eatw] in H. injection H as <- <-.
    unfold bnd in B. rewrite (Hwp eq_refl) in B.
    destruct t as [|c t]; [reflexivity|].
    cbn in Ht. apply andb_true_iff in Ht as [Hc _].
    cbn in B. rewrite Hc in B. discriminate.
  - cbn [forallb] in Hw. apply andb_true_iff in Hw as [Hx Hw].
    cbn [first_tok]. destruct (pchar_cases _ Hx) as [Hl| ->].
    + rewrite Hl. destruct t as [|c t].
      * cbn [app] in H. destruct post as [|d post]; [discriminate|].
        cbn [eatw] in H. destruct (ci_match x d) eqn:E; [|discriminate].
        apply (ci_match_letter_word _ _ Hl) in E. cbn in Hpost. congruence.
      * cbn [app eatw] in H. destruct (ci_match x c) eqn:E; [|discriminate].
        cbn [ci_eq]. rewrite E. cbn [andb].
        cbn in Ht. apply andb_true_iff in Ht as [Hc Ht].
        apply (IH t (Some c) post p' s'); auto.
    + cbn. destruct t as [|c t]; [reflexivity|].
      cbn [app eatw] in H. destruct (ci_match 32%N c) eqn:E; [|discriminate].
      apply ci_match_space in E. subst c.
      cbn in Ht. discriminate.
Qed.

End Reading.

(** ** The scan of [re.sub] on patterns that consume text *)

(** What [re.sub] writes for one piece of the scan. *)
Definition render (repl : str) (p : piece) : str :=
  match p with
  | Keep c => [c]
  | Hit _ => repl
  end.

Section ScanFacts.
Context {U : Unicode}.
Variable fl : flags.
Variable r : re.
Variable repl : str.

(** [re.sub] from a position inside the text. *)
Definition sub_from (prev : option char) (s : str) : str :=
  flat_map (render repl) (scan fl r prev s 0).

Lemma sub_is_sub_from : forall text, sub fl r repl text = sub_from None text.
Proof. reflexivity. Qed.

Lemma scan_skip : forall k s prev,
  k <= List.length s ->
  scan fl r prev s k = scan fl r (lastp prev (firstn k s)) (skipn k s) 0.
Proof.
  induction k as [|k IH]; intros s prev L; [reflexivity|].
  destruct s as [|c s]; [cbn in L; lia|].
  cbn [scan firstn skipn]. rewrite lastp_cons. apply IH. cbn in L. lia.
Qed.

Hypothesis match_advances : forall prev s n gs,
  match_at fl r prev s false = Some (n, gs) -> 0 < n.

Lemma sub_from_nil : forall prev, sub_from prev [] = [].
Proof.
  intros prev. unfold sub_from. cbn [scan].
  destruct (match_at fl r prev [] false) as [[[|n] gs]|] eqn:E; [| |reflexivity].
  - apply match_advances in E. lia.
  - apply match_at_groups in E as [_ E]. cbn in E. lia.
Qed.

Lemma sub_from_cons : forall prev c s,
  sub_from prev (c :: s) =
  match match_at fl r prev (c :: s) false with
  | None => c :: sub_from (Some c) s
  | Some (n, _) =>
      repl ++ sub_from (lastp prev (firstn n (c :: s))) (skipn n (c :: s))
  end.
Proof.
  intros prev c s. unfold sub_from at 1. cbn [scan].
  destruct (match_at fl r prev (c :: s) false) as [[[|n] gs]|] eqn:E.
  - apply match_advances in E. lia.
  - cbn [flat_map render firstn skipn]. rewrite lastp_cons. f_equal.
    unfold sub_from. f_equal. apply scan_skip.
    apply match_at_groups in E as [_ E]. cbn in E. lia.
  - reflexivity.
Qed.

End ScanFacts.

Lemma first_some_option_map : forall {X A B} (g : A -> B) (f : X -> option A) l,
  first_some (fun x => option_map g (f x)) l = option_map g (first_some f l).
Proof.
  induction l as [|x l IH]; cbn [first_some]; [reflexivity|].
  destruct (f x); cbn [option_map]; auto.
Qed.

Section PhraseRule.
Context {U : Unicode}.

Lemma phrase_match_some : forall L prev s n,
  phrase_match L prev s = Some n ->
  bnd prev s = true /\
  exists w, In w L /\ cand w prev s = true /\ n = List.length w /\
            n <= List.length s.
Proof.
  intros L prev s n H. unfold phrase_match in H.
  apply first_some_in in H as (w & Hw & H). rewrite eat_frame in H.
  destruct (bnd prev s); [|discriminate]. split; [reflexivity|].
  exists w. unfold cand.
  destruct (eatw w prev s) as [[p' s']|] eqn:E; [|discriminate].
  destruct (bnd p' s'); [|discriminate].
  injection H as <-. apply eatw_length in E.
  repeat split; auto; lia.
Qed.

Lemma phrase_match_none : forall L prev s,
  phrase_match L prev s = None <-> hits L prev s = false.
Proof.
  intros L prev s. unfold phrase_match, hits. split.
  - intro H. destruct (bnd prev s) eqn:B; [|reflexivity]. cbn.
    destruct (existsb _ L) eqn:E; [|reflexivity].
    apply existsb_exists in E as (w & Hw & C). exfalso.
    eapply first_some_not_none; [exact Hw| |exact H].
    cbv beta. rewrite eat_frame, B. unfold cand in C.
    destruct (eatw w prev s) as [[p' s']|]; [|discriminate].
    rewrite C. discriminate.
  - intro H. destruct (first_some _ L) eqn:E; [|reflexivity]. exfalso.
    apply first_some_in in E as (w & Hw & E). rewrite eat_frame in E.
    destruct (bnd prev s); [|discriminate]. cbn in H.
    assert (C : cand w prev s = true).
    { unfold cand. destruct (eatw w prev s) as [[p' s']|]; [|discriminate].
      now destruct (bnd p' s'). }
    assert (existsb (fun w => cand w prev s) L = true)
      by (apply existsb_exists; eauto).
    congruence.
Qed.

Variable r : re.
Variable repl : str.
Hypothesis r_plain : plain r = true.
Hypothesis r_lang : lang r = map frame (phrases r).
Hypothesis r_wf : forallb wf_phrase (phrases r) = true.

Lemma match_at_phrase : forall prev s,
  match_at IGNORECASE r prev s false =
  option_map (fun n => (n, [])) (phrase_match (phrases r) prev s).
Proof.
  intros prev s. rewrite (match_at_plain _ _ _ _ r_plain), r_lang.
  unfold phrase_match. rewrite first_some_map, <- first_some_option_map.
  apply first_some_ext. intros w _.
  now destruct (eat IGNORECASE (frame w) prev s) as [[? ?]|].
Qed.

Lemma wf_phrase_nonempty : forall w, wf_phrase w = true -> 0 < List.length w.
Proof.
  intros [|c w] H; [discriminate|]. cbn. lia.
Qed.

Lemma phrase_advances : forall prev s n gs,
  match_at IGNORECASE r prev s false = Some (n, gs) -> 0 < n.
Proof.
  intros prev s n gs H. rewrite match_at_phrase in H.
  destruct (phrase_match (phrases r) prev s) as [m|] eqn:E; [|discriminate].
  injection H as <- _.
  apply phrase_match_some in E as (_ & w & Hw & _ & -> & _).
  apply wf_phrase_nonempty.
  rewrite forallb_forall in r_wf. auto.
Qed.

Definition psub := sub_from IGNORECASE r repl.

Lemma psub_nil : forall prev, psub prev [] = [].
Proof. intros. apply sub_from_nil, phrase_advances. Qed.

Lemma psub_cons : forall prev c s,
  psub prev (c :: s) =
  match phrase_match (phrases r) prev (c :: s) with
  | None => c :: psub (Some c) s
  | Some n => repl ++ psub (lastp prev (firstn n (c :: s))) (skipn n (c :: s))
  end.
Proof.
  intros prev c s. unfold psub.
  rewrite (@sub_from_cons U IGNORECASE r repl phrase_advances), match_at_phrase.
  destruct (phrase_match (phrases r) prev (c :: s)); reflexivity.
Qed.

End PhraseRule.

(** ** Matches of phrase rules in a text *)

(** No phrase of [L] matches anywhere in [s]. *)
Fixpoint cleanb {U : Unicode} (L : list str) (prev : option char) (s : str) : bool :=
  negb (hits L prev s) &&
  match s with
  | [] => true
  | c :: s' => cleanb L (Some c) s'
  end.

(** No phrase of [L] matches at a position of [x] in the text [x ++ y]. *)
Fixpoint free {U : Unicode} (L : list str) (prev : option char) (x y : str) : bool :=
  match x with
  | [] => true
  | c :: x' => negb (hits L prev (x ++ y)) && free L (Some c) x' y
  end.

Section PhraseFacts.
Context {U : Unicode}.

Lemma wf_phrase_pchar : forall w, wf_phrase w = true -> forallb pchar w = true.
Proof.
  intros w H. unfold wf_phrase in H.
  apply andb_true_iff in H as [H _]. now apply andb_true_iff in H as [H _].
Qed.

Lemma wf_phrase_head : forall w,
  wf_phrase w = true -> exists c w', w = c :: w' /\ ascii_islower c = true.
Proof.
  intros [|c w] H; unfold wf_phrase in H.
  - rewrite andb_false_r in H. discriminate.
  - apply andb_true_iff in H as [H _]. apply andb_true_iff in H as [_ H]. eauto.
Qed.

Lemma wf_phrase_last : forall w,
  wf_phrase w = true -> exists w' c, w = w' ++ [c] /\ ascii_islower c = true.
Proof.
  intros w H. unfold wf_phrase in H. apply andb_true_iff in H as [_ H].
  destruct (rev w) as [|c rw] eqn:E; [discriminate|].
  exists (rev rw), c. split; [|assumption].
  rewrite <- (rev_involutive w), E. reflexivity.
Qed.

Lemma cand_prev : forall w p1 p2 s,
  isword_at p1 = isword_at p2 -> cand w p1 s = cand w p2 s.
Proof.
  intros [|p w] p1 p2 s H; unfold cand; cbn [eatw].
  - unfold bnd. now rewrite H.
  - destruct s as [|x s]; reflexivity.
Qed.

Lemma hits_prev : forall L p1 p2 s,
  isword_at p1 = isword_at p2 -> hits L p1 s = hits L p2 s.
Proof.
  intros L p1 p2 s H. unfold hits, bnd. rewrite H. f_equal.
  induction L as [|w L IH]; cbn; [reflexivity|].
  now rewrite IH, (cand_prev w p1 p2 s H).
Qed.

Lemma cleanb_prev : forall L p1 p2 s,
  isword_at p1 = isword_at p2 -> cleanb L p1 s = cleanb L p2 s.
Proof.
  intros L p1 p2 [|c s] H; cbn [cleanb]; now rewrite (hits_prev L p1 p2 _ H).
Qed.

(** A phrase starts with a letter, so no match starts at a character that
    is not a word character, nor at the end of the text. *)
Lemma cand_nonword_head : forall w prev s,
  wf_phrase w = true -> isword_at (hd_error s) = false -> cand w prev s = false.
Proof.
  intros w prev s Hw Hs. destruct (wf_phrase_head _ Hw) as (c & w' & -> & Hc).
  unfold cand. cbn [eatw]. destruct s as [|x s]; [reflexivity|].
  destruct (ci_match c x) eqn:E; [|reflexivity].
  apply (ci_match_letter_word _ _ Hc) in E. cbn in Hs. congruence.
Qed.

Lemma hits_nonword_head : forall L prev s,
  forallb wf_phrase L = true -> isword_at (hd_error s) = false ->
  hits L prev s = false.
Proof.
  intros L prev s HL Hs. unfold hits.
  replace (existsb (fun w => cand w prev s) L) with false; [apply andb_false_r|].
  symmetry. induction L as [|w L IH]; [reflexivity|].
  cbn in HL |- *. apply andb_true_iff in HL as [Hw HL].
  now rewrite (cand_nonword_head w prev s Hw Hs), IH.
Qed.

Lemma hits_inside_token : forall L prev s,
  isword_at prev = true -> isword_at (hd_error s) = true -> hits L prev s = false.
Proof.
  intros L prev s H1 H2. unfold hits, bnd. now rewrite H1, H2.
Qed.

Lemma hits_true : forall L prev s,
  hits L prev s = true ->
  bnd prev s = true /\ exists w, In w L /\ cand w prev s = true.
Proof.
  intros L prev s H. unfold hits in H. apply andb_true_iff in H as [B E].
  apply existsb_exists in E. auto.
Qed.

Lemma hits_intro : forall L prev s w,
  bnd prev s = true -> In w L -> cand w prev s = true -> hits L prev s = true.
Proof.
  intros L prev s w B Hw C. unfold hits. rewrite B. cbn.
  apply existsb_exists. eauto.
Qed.

Lemma cleanb_app : forall L x prev y,
  cleanb L prev (x ++ y) = free L prev x y && cleanb L (lastp prev x) y.
Proof.
  intros L. induction x as [|c x IH]; intros prev y; [reflexivity|].
  cbn [app cleanb free]. rewrite IH, lastp_cons. now rewrite andb_assoc.
Qed.

(** A match that ends before the end of [u] does not depend on what
    follows [u]. *)
Lemma cand_local : forall w prev u y y',
  cand w prev (u ++ y) = true -> List.length w < List.length u ->
  cand w prev (u ++ y') = true.
Proof.
  intros w prev u y y' C L. unfold cand in *.
  destruct (eatw w prev (u ++ y)) as [[p' s']|] eqn:E; [|discriminate].
  apply eatw_less in E as (u' & E & ->); [|lia].
  rewrite (eatw_more _ _ _ y' E).
  pose proof (eatw_length _ _ _ E) as Len.
  destruct u' as [|d u']; [cbn in Len; lia|]. exact C.
Qed.

Lemma in_starts_after_space : forall w0 w2,
  In w2 (starts_after_space (w0 ++ 32%N :: w2)).
Proof.
  induction w0 as [|c w0 IH]; intros w2; cbn [app starts_after_space].
  - cbn. now left.
  - apply in_or_app. right. apply IH.
Qed.

(** A phrase is never read across the start of a token it does not
    contain: if [t] is a token of the text that is none of the phrase's
    tokens, a match starting before [t] ends before it. *)
Lemma no_match_across : forall w u t post prev,
  wf_phrase w = true ->
  isword_at (lastp prev u) = false ->
  forallb isword t = true -> t <> [] ->
  isword_at (hd_error post) = false ->
  (forall tok, In tok (vocab w) -> ci_eq tok t = false) ->
  cand w prev (u ++ t ++ post) = true ->
  List.length w < List.length u.
Proof.
  intros w u t post prev Hw Hu Ht Hne Hpost Hvoc C.
  destruct (Nat.lt_ge_cases (List.length w) (List.length u)) as [|L]; [assumption|].
  exfalso. unfold cand in C.
  destruct (eatw w prev (u ++ t ++ post)) as [[p' s']|] eqn:E; [|discriminate].
  apply eatw_split in E as (w1 & w2 & Hsplit & L1 & C1 & E); [|assumption].
  pose proof (wf_phrase_pchar _ Hw) as Hp.
  destruct u as [|c0 u0] using rev_ind.
  - destruct w1; [|discriminate]. cbn in Hsplit. subst w2.
    assert (A : ci_eq (first_tok w) t = true).
    { apply (@tok_align U w t prev post p' s'); auto.
      intros ->. discriminate Hw. }
    rewrite Hvoc in A; [discriminate|]. unfold vocab, starts. cbn. now left.
  - clear IHu0. rewrite lastp_snoc in Hu. cbn in Hu.
    destruct w1 as [|x0 w0] using rev_ind.
    { rewrite length_app in L1. cbn in L1. lia. }
    clear IHw0. rewrite !length_app in L1. cbn in L1.
    rewrite ci_eq_app in C1 by lia. apply andb_true_iff in C1 as [_ C1].
    cbn in C1. rewrite andb_true_r in C1.
    subst w. rewrite !forallb_app in Hp. apply andb_true_iff in Hp as [Hp1 Hp2].
    apply andb_true_iff in Hp1 as [_ Hx]. cbn in Hx. rewrite andb_true_r in Hx.
    destruct (pchar_cases _ Hx) as [Hl| ->].
    { apply (ci_match_letter_word _ _ Hl) in C1. congruence. }
    destruct w2 as [|y w2].
    + destruct (wf_phrase_last _ Hw) as (w' & c & Eq & Hc).
      rewrite app_nil_r in Eq. apply app_inj_tail in Eq as [_ <-]. discriminate.
    + assert (A : ci_eq (first_tok (y :: w2)) t = true).
      { rewrite lastp_snoc in E.
        apply (@tok_align U (y :: w2) t (Some c0) post p' s'); auto.
        intros; discriminate. }
      rewrite Hvoc in A; [discriminate|]. unfold vocab, starts.
      apply in_map. right. rewrite <- app_assoc. apply in_starts_after_space.
Qed.

Lemma hits_across : forall L u t post prev y',
  forallb wf_phrase L = true ->
  isword_at (lastp prev u) = false ->
  forallb isword t = true -> t <> [] ->
  isword_at (hd_error post) = false ->
  (forall w tok, In w L -> In tok (vocab w) -> ci_eq tok t = false) ->
  hits L prev (u ++ t ++ post) = true ->
  u <> [] /\ hits L prev (u ++ y') = true.
Proof.
  intros L u t post prev y' HL Hu Ht Hne Hpost Hvoc H.
  apply hits_true in H as (B & w & Hw & C).
  assert (Hwf : wf_phrase w = true) by (rewrite forallb_forall in HL; auto).
  pose proof (@no_match_across w u t post prev Hwf Hu Ht Hne Hpost
                (fun tok => Hvoc w tok Hw) C) as Len.
  destruct u as [|c u]; [cbn in Len; lia|].
  split; [discriminate|].
  apply hits_intro with w; auto.
  eapply cand_local; eauto.
Qed.

End PhraseFacts.

(** Wherever the phrases of [Lq] match in [s], those of [Lp] match too. *)
Fixpoint quietb {U : Unicode} (Lp Lq : list str) (prev : option char) (s : str) : bool :=
  (hits Lp prev s || negb (hits Lq prev s)) &&
  match s with
  | [] => true
  | c :: s' => quietb Lp Lq (Some c) s'
  end.

Section TokenFacts.
Context {U : Unicode}.

Lemma tok_split : forall w, first_tok w ++ after_tok w = w.
Proof.
  induction w as [|c w IH]; cbn; [reflexivity|].
  destruct (ascii_islower c); cbn; [now rewrite IH|reflexivity].
Qed.

Lemma first_tok_word : forall w, forallb isword (first_tok w) = true.
Proof.
  induction w as [|c w IH]; cbn; [reflexivity|].
  destruct (ascii_islower c) eqn:E; cbn; [|reflexivity].
  now rewrite (islower_word _ E), IH.
Qed.

Lemma after_tok_head : forall w z,
  forallb pchar w = true -> isword_at (hd_error z) = false ->
  isword_at (hd_error (after_tok w ++ z)) = false.
Proof.
  induction w as [|c w IH]; intros z Hw Hz; cbn; [assumption|].
  cbn in Hw. apply andb_true_iff in Hw as [Hc Hw].
  destruct (ascii_islower c) eqn:E; [now apply IH|].
  destruct (pchar_cases _ Hc) as [Hl| ->]; [congruence|reflexivity].
Qed.

Lemma eatw_app : forall w1 w2 prev s,
  eatw (w1 ++ w2) prev s =
  match eatw w1 prev s with
  | Some (p', s') => eatw w2 p' s'
  | None => None
  end.
Proof.
  induction w1 as [|p w1 IH]; intros w2 prev s; cbn [app eatw]; [reflexivity|].
  destruct s as [|x s]; [reflexivity|]. destruct (ci_match p x); auto.
Qed.

Lemma eatw_result : forall w prev s p' s',
  eatw w prev s = Some (p', s') ->
  p' = lastp prev (firstn (List.length w) s) /\ s' = skipn (List.length w) s.
Proof.
  induction w as [|p w IH]; intros prev s p' s' H; cbn [eatw] in H.
  - injection H as <- <-. now split.
  - destruct s as [|x s]; [discriminate|].
    destruct (ci_match p x); [|discriminate].
    apply IH in H as [-> ->]. cbn [List.length firstn skipn].
    now rewrite lastp_cons.
Qed.

Lemma eatw_last_word : forall w prev s p' s',
  wf_phrase w = true -> eatw w prev s = Some (p', s') -> isword_at p' = true.
Proof.
  intros w prev s p' s' Hw H.
  destruct (wf_phrase_last _ Hw) as (w' & c & -> & Hc).
  rewrite eatw_app in H.
  destruct (eatw w' prev s) as [[p1 s1]|]; [|discriminate].
  cbn [eatw] in H. destruct s1 as [|x s1]; [discriminate|].
  destruct (ci_match c x) eqn:E; [|discriminate].
  injection H as <- _. cbn. eapply ci_match_letter_word; eauto.
Qed.

Lemma cand_head_word : forall w prev s,
  wf_phrase w = true -> cand w prev s = true -> isword_at (hd_error s) = true.
Proof.
  intros w prev s Hw C.
  destruct (isword_at (hd_error s)) eqn:E; [reflexivity|].
  now rewrite (cand_nonword_head w prev s Hw E) in C.
Qed.

Lemma lastp_nonempty : forall p1 p2 s, s <> [] -> lastp p1 s = lastp p2 s.
Proof.
  intros p1 p2 s H. unfold lastp. destruct (rev s) eqn:E; [|reflexivity].
  apply (f_equal (@rev _)) in E. rewrite rev_involutive in E. contradiction.
Qed.

Lemma quietb_self : forall L prev s, quietb L L prev s = true.
Proof.
  intros L prev s. revert prev. induction s as [|c s IH]; intros prev; cbn [quietb].
  - now destruct (hits L prev []).
  - rewrite IH. now destruct (hits L prev (c :: s)).
Qed.

Lemma quietb_of_clean : forall Lp Lq prev s,
  cleanb Lq prev s = true -> quietb Lp Lq prev s = true.
Proof.
  intros Lp Lq prev s. revert prev.
  induction s as [|c s IH]; intros prev H; cbn [quietb cleanb] in *;
    apply andb_true_iff in H as [H1 H2]; rewrite H1, orb_true_r; cbn [andb]; auto.
Qed.

Lemma quietb_skipn : forall Lp Lq n s prev,
  quietb Lp Lq prev s = true ->
  quietb Lp Lq (lastp prev (firstn n s)) (skipn n s) = true.
Proof.
  intros Lp Lq. induction n as [|n IH]; intros s prev H; [assumption|].
  destruct s as [|c s]; [assumption|].
  cbn [firstn skipn]. rewrite lastp_cons. apply IH.
  cbn [quietb] in H. now apply andb_true_iff in H as [_ H].
Qed.

Lemma quietb_head : forall Lp Lq prev s,
  quietb Lp Lq prev s = true -> hits Lp prev s = false -> hits Lq prev s = false.
Proof.
  intros Lp Lq prev [|c s] H Hp; cbn [quietb] in H;
    apply andb_true_iff in H as [H _]; rewrite Hp in H; cbn in H;
    now apply negb_true_iff in H.
Qed.

End TokenFacts.

(** ** One phrase rule *)

Section RuleTheory.
Context {U : Unicode}.
Variable r : re.
Variable repl : str.
Hypothesis r_plain : plain r = true.
Hypothesis r_lang : lang r = map frame (phrases r).
Hypothesis r_wf : forallb wf_phrase (phrases r) = true.
Hypothesis repl_wf : wf_phrase repl = true.

Lemma ps_nil : forall prev, psub r repl prev [] = [].
Proof. exact (@psub_nil U r repl r_plain r_lang r_wf). Qed.

Lemma ps_cons : forall prev c s,
  psub r repl prev (c :: s) =
  match phrase_match (phrases r) prev (c :: s) with
  | None => c :: psub r repl (Some c) s
  | Some n => repl ++ psub r repl (lastp prev (firstn n (c :: s))) (skipn n (c :: s))
  end.
Proof. exact (@psub_cons U r repl r_plain r_lang r_wf). Qed.

(** Where no phrase of the rule matches, the rule changes nothing. *)
Lemma ps_clean : forall s prev,
  cleanb (phrases r) prev s = true -> psub r repl prev s = s.
Proof.
  induction s as [|c s IH]; intros prev H; [apply ps_nil|].
  rewrite ps_cons. cbn [cleanb] in H. apply andb_true_iff in H as [H1 H2].
  apply negb_true_iff, phrase_match_none in H1. rewrite H1. f_equal. auto.
Qed.

Lemma ps_head_nonword : forall s prev,
  isword_at (hd_error s) = false ->
  isword_at (hd_error (psub r repl prev s)) = false.
Proof.
  intros [|d s] prev H; [now rewrite ps_nil|].
  rewrite ps_cons.
  rewrite (proj2 (phrase_match_none (phrases r) prev (d :: s)));
    [assumption|]. now apply hits_nonword_head.
Qed.

(** A match of the rule starts after a non-word character, ends with a
    word character and is followed by a non-word character. *)
Lemma match_shape : forall prev s n,
  phrase_match (phrases r) prev s = Some n ->
  0 < n /\ n <= List.length s /\
  isword_at prev = false /\
  isword_at (lastp prev (firstn n s)) = true /\
  isword_at (hd_error (skipn n s)) = false.
Proof.
  intros prev s n H.
  apply phrase_match_some in H as (B & w & Hw & C & -> & Len).
  assert (Hwf : wf_phrase w = true) by (rewrite forallb_forall in r_wf; auto).
  pose proof (cand_head_word w prev s Hwf C) as Hh.
  pose proof (wf_phrase_nonempty _ Hwf).
  unfold cand in C.
  destruct (eatw w prev s) as [[p' s']|] eqn:E; [|discriminate].
  pose proof (eatw_last_word _ _ _ Hwf E) as Hl.
  apply eatw_result in E as [-> ->].
  repeat split; auto.
  - unfold bnd in B. rewrite Hh in B. now destruct (isword_at prev).
  - unfold bnd in C. rewrite Hl in C.
    now destruct (isword_at (hd_error (skipn (List.length w) s))).
Qed.

(** The output of the rule is the text itself, or the text up to the first
    match, the replacement, and more. *)
Lemma ps_shape : forall s prev,
  psub r repl prev s = s \/
  exists u v z,
    s = u ++ v /\ psub r repl prev s = u ++ repl ++ z /\
    isword_at (lastp prev u) = false /\ isword_at (hd_error z) = false.
Proof.
  induction s as [|c s IH]; intros prev; [left; apply ps_nil|].
  rewrite ps_cons.
  destruct (phrase_match (phrases r) prev (c :: s)) as [n|] eqn:E.
  - right. apply match_shape in E as (_ & _ & Hp & _ & Hn).
    exists [], (c :: s), (psub r repl (lastp prev (firstn n (c :: s))) (skipn n (c :: s))).
    repeat split; auto. now apply ps_head_nonword.
  - destruct (IH (Some c)) as [->|(u & v & z & -> & -> & Hu & Hz)]; [now left|].
    right. exists (c :: u), v, z. repeat split; auto.
    now rewrite lastp_cons.
Qed.

Section Other.
Variable Lq : list str.
Hypothesis Lq_wf : forallb wf_phrase Lq = true.
Hypothesis compat1 : forall w tok,
  In w Lq -> In tok (vocab w) -> ci_eq tok (first_tok repl) = false.
Hypothesis compat2 : forall w tk,
  In w Lq -> In tk (vocab repl) -> ci_eq (first_tok w) tk = false.

(** No phrase of [Lq] matches at a position inside a replacement. *)
Lemma free_suffix : forall b a prev0 z,
  repl = a ++ b -> isword_at (hd_error z) = false ->
  free Lq (lastp prev0 a) b z = true.
Proof.
  induction b as [|c b IH]; intros a prev0 z Hr Hz; [reflexivity|].
  cbn [free]. apply andb_true_iff. split.
  2:{ rewrite <- (lastp_snoc prev0 a c). apply IH; [|assumption].
      now rewrite <- app_assoc. }
  apply negb_true_iff.
  destruct (hits Lq (lastp prev0 a) ((c :: b) ++ z)) eqn:H; [exfalso|reflexivity].
  apply hits_true in H as (B & w & Hw & C).
  assert (Hwf : wf_phrase w = true) by (rewrite forallb_forall in Lq_wf; auto).
  pose proof (wf_phrase_pchar _ repl_wf) as Hp. rewrite Hr, forallb_app in Hp.
  apply andb_true_iff in Hp as [Hpa Hpb].
  pose proof Hpb as Hpb'. cbn in Hpb'. apply andb_true_iff in Hpb' as [Hc _].
  destruct (pchar_cases _ Hc) as [Hl| ->].
  2:{ now rewrite (cand_nonword_head w _ ((32%N :: b) ++ z) Hwf) in C. }
  assert (Hprev : isword_at (lastp prev0 a) = false).
  { unfold bnd in B. cbn in B. rewrite (islower_word _ Hl) in B.
    now destruct (isword_at (lastp prev0 a)). }
  assert (Hin : In (first_tok (c :: b)) (vocab repl)).
  { unfold vocab. apply in_map. unfold starts.
    destruct a as [|d a0] using rev_ind; [left; now rewrite Hr|].
    clear IHa0. right. rewrite lastp_snoc in Hprev. cbn in Hprev.
    rewrite forallb_app in Hpa. apply andb_true_iff in Hpa as [_ Hd].
    cbn in Hd. rewrite andb_true_r in Hd.
    destruct (pchar_cases _ Hd) as [Hdl| ->].
    { rewrite (islower_word _ Hdl) in Hprev. discriminate. }
    rewrite Hr, <- app_assoc. apply in_starts_after_space. }
  assert (A : ci_eq (first_tok w) (first_tok (c :: b)) = true).
  { unfold cand in C.
    destruct (eatw w (lastp prev0 a) ((c :: b) ++ z)) as [[p' s']|] eqn:E;
      [|discriminate].
    rewrite <- (tok_split (c :: b)), <- app_assoc in E.
    apply (@tok_align U w (first_tok (c :: b)) (lastp prev0 a)
             (after_tok (c :: b) ++ z) p' s'); auto.
    - now apply wf_phrase_pchar.
    - apply first_tok_word.
    - intros ->. discriminate Hwf.
    - cbn. rewrite Hl. discriminate.
    - now apply after_tok_head. }
  now rewrite (@compat2 _ _ Hw Hin) in A.
Qed.

Lemma free_repl : forall prev z,
  isword_at (hd_error z) = false -> free Lq prev repl z = true.
Proof.
  intros prev z Hz. exact (free_suffix repl [] prev z eq_refl Hz).
Qed.

Lemma repl_first_tok :
  forallb isword (first_tok repl) = true /\ first_tok repl <> [].
Proof.
  split; [apply first_tok_word|].
  destruct (wf_phrase_head _ repl_wf) as (c & w' & -> & Hc).
  cbn. rewrite Hc. discriminate.
Qed.

Lemma repl_last_word : forall prev, isword_at (lastp prev repl) = true.
Proof.
  intros prev. destruct (wf_phrase_last _ repl_wf) as (w' & c & -> & Hc).
  rewrite lastp_snoc. cbn. now apply islower_word.
Qed.

(** The rule creates no match of [Lq]: if [Lq] only matched in [s] where
    the rule itself matches, it matches nowhere in the output. *)
Lemma clean_after : forall n s prev,
  List.length s <= n ->
  quietb (phrases r) Lq prev s = true ->
  cleanb Lq prev (psub r repl prev s) = true.
Proof.
  induction n as [|n IH]; intros s prev Len Q.
  - destruct s; [|cbn in Len; lia]. rewrite ps_nil. cbn.
    now rewrite hits_nonword_head.
  - destruct s as [|c s].
    { rewrite ps_nil. cbn. now rewrite hits_nonword_head. }
    rewrite ps_cons.
    destruct (phrase_match (phrases r) prev (c :: s)) as [m|] eqn:E.
    + pose proof (match_shape _ _ E) as (M0 & M1 & Mp & Ml & Mn).
      rewrite cleanb_app. apply andb_true_iff. split.
      * apply free_repl. now apply ps_head_nonword.
      * rewrite (cleanb_prev Lq _ (lastp prev (firstn m (c :: s))));
          [|now rewrite repl_last_word, Ml].
        apply IH; [|now apply quietb_skipn].
        rewrite length_skipn. cbn [List.length] in Len |- *. lia.
    + cbn [cleanb]. apply andb_true_iff. split.
      2:{ apply IH; [cbn in Len; lia|].
          cbn [quietb] in Q. now apply andb_true_iff in Q as [_ Q]. }
      apply negb_true_iff.
      pose proof (quietb_head _ _ _ _ Q (proj1 (phrase_match_none _ _ _) E)) as Hq.
      destruct (ps_shape s (Some c)) as [->|(u & v & z & -> & -> & Hu & Hz)];
        [assumption|].
      destruct (hits Lq prev (c :: u ++ repl ++ z)) eqn:H; [exfalso|reflexivity].
      destruct repl_first_tok as [Ht Hne].
      rewrite <- (tok_split repl), <- app_assoc in H.
      apply (@hits_across U Lq (c :: u) (first_tok repl) (after_tok repl ++ z) prev v)
        in H as [_ H]; auto.
      * cbn [app] in H. congruence.
      * now rewrite lastp_cons.
      * apply after_tok_head; [now apply wf_phrase_pchar|assumption].
Qed.

End Other.

(** A token that is none of the rule's words keeps the rule's matches on
    either side of it apart. *)
Section Frame.
Variable t : str.
Hypothesis t_word : forallb isword t = true.
Hypothesis t_some : t <> [].
Hypothesis t_foreign : forall w tok,
  In w (phrases r) -> In tok (vocab w) -> ci_eq tok t = false.

Lemma ps_token : forall t2 t1 prev post,
  t = t1 ++ t2 -> (t1 = [] -> isword_at prev = false) ->
  isword_at (hd_error post) = false ->
  psub r repl (lastp prev t1) (t2 ++ post) = t2 ++ psub r repl None post.
Proof.
  induction t2 as [|c t2 IH]; intros t1 prev post Ht H1 Hpost.
  - cbn [app]. destruct post as [|d post]; [now rewrite !ps_nil|].
    rewrite !ps_cons.
    rewrite !(proj2 (phrase_match_none (phrases r) _ (d :: post)));
      try reflexivity; now apply hits_nonword_head.
  - cbn [app]. rewrite ps_cons.
    assert (Hc : isword c = true).
    { rewrite Ht, forallb_app in t_word.
      apply andb_true_iff in t_word as [_ Hw]. cbn in Hw.
      now apply andb_true_iff in Hw as [Hw _]. }
    assert (Hn : hits (phrases r) (lastp prev t1) (c :: t2 ++ post) = false).
    { destruct t1 as [|x t1] using rev_ind.
      - cbn in Ht. subst t.
        destruct (hits (phrases r) (lastp prev []) (c :: t2 ++ post)) eqn:H;
          [exfalso|reflexivity].
        apply (@hits_across U (phrases r) [] (c :: t2) post prev [])
          in H as [H _]; auto.
      - clear IHt1. rewrite lastp_snoc. apply hits_inside_token; [|exact Hc].
        rewrite Ht, !forallb_app in t_word.
        apply andb_true_iff in t_word as [Hw _].
        apply andb_true_iff in Hw as [_ Hw]. cbn in Hw.
        now apply andb_true_iff in Hw as [Hw _]. }
    rewrite (proj2 (phrase_match_none _ _ _) Hn). f_equal.
    rewrite <- (lastp_snoc prev t1 c). apply IH; auto.
    + now rewrite <- app_assoc.
    + intros E. now apply app_eq_nil in E as [_ E].
Qed.

Lemma phrase_match_frame : forall pre prev post,
  pre <> [] -> isword_at (lastp prev pre) = false ->
  isword_at (hd_error post) = false ->
  phrase_match (phrases r) prev (pre ++ t ++ post) =
  phrase_match (phrases r) prev pre.
Proof.
  intros pre prev post Hpre Hl Hpost. unfold phrase_match.
  apply first_some_ext. intros w Hw.
  assert (Hwf : wf_phrase w = true) by (rewrite forallb_forall in r_wf; auto).
  rewrite !eat_frame.
  replace (bnd prev (pre ++ t ++ post)) with (bnd prev pre)
    by (destruct pre; [contradiction|reflexivity]).
  destruct (bnd prev pre); [|reflexivity].
  destruct (Nat.lt_ge_cases (List.length w) (List.length pre)) as [Lt|Ge].
  - destruct (eatw w prev pre) as [[p' u']|] eqn:E.
    + rewrite (eatw_more _ _ _ (t ++ post) E).
      pose proof (eatw_length _ _ _ E) as Len.
      destruct u' as [|d u']; [cbn [List.length] in Len; lia|].
      cbn [app]. replace (bnd p' (d :: u' ++ t ++ post)) with (bnd p' (d :: u'))
        by reflexivity.
      destruct (bnd p' (d :: u')); [|reflexivity].
      f_equal. rewrite !length_app. cbn [List.length]. rewrite !length_app. lia.
    + destruct (eatw w prev (pre ++ t ++ post)) as [[p' s']|] eqn:E';
        [|reflexivity].
      apply eatw_less in E' as (u' & E' & _); [congruence|lia].
  - assert (A : match eatw w prev (pre ++ t ++ post) with
                | Some (p', s') => bnd p' s'
                | None => false
                end = false).
    { destruct (cand w prev (pre ++ t ++ post)) eqn:C; [|exact C].
      apply (@no_match_across U w pre t post prev) in C; auto; [lia|].
      intros tok. now apply t_foreign. }
    assert (B : match eatw w prev pre with
                | Some (p', s') => bnd p' s'
                | None => false
                end = false).
    { destruct (eatw w prev pre) as [[p' s']|] eqn:E; [|reflexivity].
      pose proof (eatw_length _ _ _ E) as Len.
      destruct s'; [|cbn in Len; lia].
      rewrite <- (app_nil_r pre) in E.
      apply eatw_split in E as (w1 & w2 & -> & L1 & _ & E); [|lia].
      rewrite length_app in Len. destruct w2; [|cbn in Len; lia].
      cbn in E. injection E as <-. unfold bnd. cbn. now rewrite Hl. }
    destruct (eatw w prev (pre ++ t ++ post)) as [[p1 s1]|];
      destruct (eatw w prev pre) as [[p2 s2]|];
      rewrite ?A, ?B; reflexivity.
Qed.

Lemma ps_frame : forall n pre prev post,
  List.length pre <= n ->
  isword_at (lastp prev pre) = false ->
  isword_at (hd_error post) = false ->
  psub r repl prev (pre ++ t ++ post) =
  psub r repl prev pre ++ t ++ psub r repl None post /\
  isword_at (lastp prev (psub r repl prev pre)) = false.
Proof.
  induction n as [|n IH]; intros pre prev post Len Hl Hpost.
  - destruct pre; [|cbn in Len; lia]. rewrite ps_nil. split; [|assumption].
    cbn [app]. exact (@ps_token t [] prev post eq_refl (fun _ => Hl) Hpost).
  - destruct pre as [|c pre].
    { rewrite ps_nil. split; [|assumption].
      cbn [app]. exact (@ps_token t [] prev post eq_refl (fun _ => Hl) Hpost). }
    cbn [app]. rewrite !ps_cons.
    change (c :: pre ++ t ++ post) with ((c :: pre) ++ t ++ post).
    rewrite phrase_match_frame by (auto; discriminate).
    destruct (phrase_match (phrases r) prev (c :: pre)) as [m|] eqn:E.
    + pose proof (match_shape _ _ E) as (M0 & M1 & Mp & Ml & Mn).
      assert (Hm : m < List.length (c :: pre)).
      { destruct (Nat.eq_dec m (List.length (c :: pre))) as [->|]; [|lia].
        rewrite firstn_all in Ml. congruence. }
      rewrite firstn_app, skipn_app.
      replace (m - List.length (c :: pre)) with 0 by lia.
      cbn [firstn skipn]. rewrite app_nil_r.
      destruct (IH (skipn m (c :: pre)) (lastp prev (firstn m (c :: pre))) post)
        as [Eq Hn].
      * rewrite length_skipn. cbn [List.length] in Len |- *. lia.
      * now rewrite <- lastp_app, firstn_skipn.
      * assumption.
      * rewrite Eq. split; [now rewrite <- app_assoc|].
        rewrite lastp_app.
        destruct (psub r repl (lastp prev (firstn m (c :: pre))) (skipn m (c :: pre)))
          as [|x xs] eqn:Ex; [cbn in Hn; congruence|].
        rewrite <- Hn. f_equal. apply lastp_nonempty. discriminate.
    + destruct (IH pre (Some c) post) as [Eq Hn]; [cbn in Len; lia| |assumption|].
      { now rewrite lastp_cons in Hl. }
      rewrite Eq. split; [reflexivity|]. now rewrite lastp_cons.
Qed.

End Frame.

End RuleTheory.

(** ** The table of the Lexical Substituter *)

(** A rule of the table is a phrase rule: its pattern is [\b], phrases of
    letters and single spaces, [\b]; its replacement is such a phrase
    too. *)
Definition rule_ok (rule : re * str) : Prop :=
  plain (fst rule) = true /\
  lang (fst rule) = map frame (phrases (fst rule)) /\
  forallb wf_phrase (phrases (fst rule)) = true /\
  wf_phrase (snd rule) = true.

(** The words the rules of the Lexical Substituter are written with. *)
Definition rule_vocabulary : list str :=
  flat_map (fun rule => flat_map vocab (phrases (fst rule))) the_word_replacements.

Section Table.
Context {U : Unicode}.

(** The replacement of one rule cannot take part in a match of another:
    its first token is no token of [Lq], and no phrase of [Lq] starts with
    one of its tokens. *)
Definition compat (Lq : list str) (repl : str) : bool :=
  forallb
    (fun w =>
       forallb (fun tok => negb (ci_eq tok (first_tok repl))) (vocab w) &&
       forallb (fun tk => negb (ci_eq (first_tok w) tk)) (vocab repl))
    Lq.

Definition table_compat (table : list (re * str)) : bool :=
  forallb (fun q => forallb (fun p => compat (phrases (fst q)) (snd p)) table)
          table.

(** [t] is none of the rule words, whatever the case. *)
Definition foreign (t : str) : bool :=
  forallb (fun tok => negb (ci_eq tok t)) rule_vocabulary.

Definition all_clean (rules : list (re * str)) (s : str) : bool :=
  forallb (fun q => cleanb (phrases (fst q)) None s) rules.

Lemma word_replacements_ok : Forall rule_ok the_word_replacements.
Proof.
  repeat (constructor; [repeat split; vm_compute; reflexivity|]).
  constructor.
Qed.

Lemma word_replacements_compat : table_compat the_word_replacements = true.
Proof. vm_compute. reflexivity. Qed.

Lemma compat1_of : forall Lq repl,
  compat Lq repl = true ->
  forall w tok, In w Lq -> In tok (vocab w) -> ci_eq tok (first_tok repl) = false.
Proof.
  intros Lq repl H w tok Hw Ht. unfold compat in H.
  rewrite forallb_forall in H. apply H in Hw.
  apply andb_true_iff in Hw as [Hw _]. rewrite forallb_forall in Hw.
  now apply negb_true_iff, Hw.
Qed.

Lemma compat2_of : forall Lq repl,
  compat Lq repl = true ->
  forall w tk, In w Lq -> In tk (vocab repl) -> ci_eq (first_tok w) tk = false.
Proof.
  intros Lq repl H w tk Hw Ht. unfold compat in H.
  rewrite forallb_forall in H. apply H in Hw.
  apply andb_true_iff in Hw as [_ Hw]. rewrite forallb_forall in Hw.
  now apply negb_true_iff, Hw.
Qed.

Lemma sub_psub : forall r repl s, sub IGNORECASE r repl s = psub r repl None s.
Proof. reflexivity. Qed.

(** One rule leaves no match of its own and creates none of a rule already
    applied. *)
Lemma sub_rule_clean : forall p q s,
  rule_ok p -> rule_ok q ->
  compat (phrases (fst q)) (snd p) = true ->
  quietb (phrases (fst p)) (phrases (fst q)) None s = true ->
  cleanb (phrases (fst q)) None (sub IGNORECASE (fst p) (snd p) s) = true.
Proof.
  intros [r repl] [rq replq] s (P1 & P2 & P3 & P4) (Q1 & Q2 & Q3 & Q4) C Q.
  cbn [fst snd] in *. rewrite sub_psub.
  apply (@clean_after U r repl P1 P2 P3 P4 (phrases rq) Q3
           (@compat1_of _ _ C) (@compat2_of _ _ C) (List.length s)); auto.
Qed.

Lemma all_clean_step : forall done p s,
  Forall rule_ok done -> rule_ok p ->
  forallb (fun q => compat (phrases (fst q)) (snd p)) (done ++ [p]) = true ->
  all_clean done s = true ->
  all_clean (done ++ [p]) (sub IGNORECASE (fst p) (snd p) s) = true.
Proof.
  intros done p s Hd Hp C A. unfold all_clean in *.
  rewrite forallb_app in C |- *. apply andb_true_iff in C as [C1 C2].
  apply andb_true_iff. split.
  - rewrite forallb_forall in A, C1 |- *. rewrite Forall_forall in Hd.
    intros q Hq. apply sub_rule_clean; auto.
    apply quietb_of_clean. auto.
  - cbn in C2 |- *. rewrite andb_true_r in C2 |- *.
    apply sub_rule_clean; auto. apply quietb_self.
Qed.

Lemma all_clean_run : forall todo done s,
  Forall rule_ok (done ++ todo) ->
  table_compat (done ++ todo) = true ->
  all_clean done s = true ->
  all_clean (done ++ todo) (sub_all IGNORECASE todo s) = true.
Proof.
  induction todo as [|p todo IH]; intros done s Hok Hc A.
  - now rewrite app_nil_r.
  - cbn [sub_all fold_left].
    replace (done ++ p :: todo) with ((done ++ [p]) ++ todo) in *
      by now rewrite <- app_assoc.
    apply IH; auto.
    pose proof Hok as Hok'. rewrite Forall_app in Hok'. destruct Hok' as [Hdp _].
    rewrite Forall_app in Hdp. destruct Hdp as [Hd Hp].
    apply all_clean_step; auto.
    + now inversion Hp.
    + unfold table_compat in Hc. rewrite forallb_forall in Hc.
      apply forallb_forall. intros q Hq.
      assert (Hq' : In q ((done ++ [p]) ++ todo)) by (apply in_or_app; now left).
      apply Hc in Hq'. rewrite forallb_forall in Hq'. apply Hq'.
      apply in_or_app. left. apply in_or_app. right. now left.
Qed.

Lemma sub_all_clean : forall rules s,
  Forall rule_ok rules -> all_clean rules s = true ->
  sub_all IGNORECASE rules s = s.
Proof.
  induction rules as [|[r repl] rules IH]; intros s Hok A; [reflexivity|].
  cbn [sub_all fold_left fst snd].
  apply Forall_cons_iff in Hok as [(P1 & P2 & P3 & P4) Hr].
  cbn [all_clean forallb fst] in A. apply andb_true_iff in A as [A1 A2].
  cbn [fst snd] in *.
  rewrite sub_psub, (@ps_clean U r repl P1 P2 P3 s None A1). now apply IH.
Qed.

Lemma sub_all_idempotent : forall table s,
  Forall rule_ok table -> table_compat table = true ->
  sub_all IGNORECASE table (sub_all IGNORECASE table s) = sub_all IGNORECASE table s.
Proof.
  intros table s Hok Hc. apply sub_all_clean; [assumption|].
  exact (all_clean_run table [] s Hok Hc eq_refl).
Qed.

Lemma replace_ai_word_choices_idempotent : forall aggressive text,
  replace_ai_word_choices (init aggressive)
    (replace_ai_word_choices (init aggressive) text)
  = replace_ai_word_choices (init aggressive) text.
Proof.
  intros a text. unfold replace_ai_word_choices. cbn [word_replacements init].
  apply sub_all_idempotent.
  - exact word_replacements_ok.
  - exact word_replacements_compat.
Qed.

(** The rules on both sides of a token that is none of their words. *)
Lemma sub_all_frame : forall rules t pre post,
  Forall rule_ok rules ->
  (forall rule w tok, In rule rules -> In w (phrases (fst rule)) ->
                      In tok (vocab w) -> ci_eq tok t = false) ->
  forallb isword t = true -> t <> [] ->
  isword_at (lastp None pre) = false ->
  isword_at (hd_error post) = false ->
  sub_all IGNORECASE rules (pre ++ t ++ post) =
  sub_all IGNORECASE rules pre ++ t ++ sub_all IGNORECASE rules post.
Proof.
  induction rules as [|[r repl] rules IH]; intros t pre post Hok Hf Ht Hne Hpre Hpost;
    [reflexivity|].
  cbn [sub_all fold_left fst snd].
  apply Forall_cons_iff in Hok as [(P1 & P2 & P3 & P4) Hr].
  cbn [fst snd] in *. rewrite !sub_psub.
  destruct (@ps_frame U r repl P1 P2 P3 t Ht Hne
              (fun w tok Hw => Hf (r, repl) w tok (or_introl eq_refl) Hw)
              (List.length pre) pre None post (le_n _) Hpre Hpost) as [Eq Hn].
  rewrite Eq. apply IH; auto.
  - intros rule w tok Hin. apply Hf. now right.
  - now apply ps_head_nonword.
Qed.

Lemma foreign_spec : forall t,
  foreign t = true ->
  forall rule w tok, In rule the_word_replacements -> In w (phrases (fst rule)) ->
                     In tok (vocab w) -> ci_eq tok t = false.
Proof.
  intros t H rule w tok Hr Hw Ht. unfold foreign in H.
  rewrite forallb_forall in H. apply negb_true_iff, H.
  unfold rule_vocabulary. apply in_flat_map. exists rule. split; [assumption|].
  apply in_flat_map. exists w. auto.
Qed.

End Table.

(** ** Runs of one character

    [re.sub('[c]{n,}', c * m, text)] rewrites the maximal runs of [c]; the
    text is read as its run-length encoding. *)

Fixpoint rle (s : str) : list (char * nat) :=
  match s with
  | [] => []
  | x :: s' =>
      match rle s' with
      | (y, k) :: rest =>
          if (x =? y)%N then (x, S k) :: rest else (x, 1) :: (y, k) :: rest
      | [] => [(x, 1)]
      end
  end.

Definition unrle (l : list (char * nat)) : str :=
  flat_map (fun e => repeat (fst e) (snd e)) l.

(** Runs are non-empty and neighbouring runs differ in their character. *)
Fixpoint normal (l : list (char * nat)) : bool :=
  match l with
  | [] => true
  | (x, k) :: l' =>
      (0 <? k) &&
      match l' with
      | (y, _) :: _ => negb (x =? y)%N
      | [] => true
      end && normal l'
  end.

(** A run of [c] of length [n] or more becomes a run of length [m]. *)
Definition squash (c : char) (n m : nat) (e : char * nat) : char * nat :=
  if (fst e =? c)%N && (n <=? snd e) then (fst e, m) else e.

(** The number of leading characters of [s] in the class. *)
Fixpoint lead {U : Unicode} (fl : flags) (k : cls) (s : str) : nat :=
  match s with
  | x :: s' => if mem fl k x then S (lead fl k s') else 0
  | [] => 0
  end.

Section Runs.
Context {U : Unicode}.

Lemma unrle_rle : forall s, unrle (rle s) = s.
Proof.
  induction s as [|x s IH]; [reflexivity|]. cbn [rle].
  destruct (rle s) as [|[y k] rest] eqn:E; [now rewrite <- IH|].
  destruct (N.eqb_spec x y) as [->|Hxy]; rewrite <- IH; reflexivity.
Qed.

Lemma normal_rle : forall s, normal (rle s) = true.
Proof.
  induction s as [|x s IH]; [reflexivity|]. cbn [rle].
  destruct (rle s) as [|[y k] rest] eqn:E; [reflexivity|].
  destruct (N.eqb_spec x y) as [->|Hxy].
  - cbn [normal] in IH |- *. apply andb_true_iff in IH as [IH1 IH2].
    apply andb_true_iff in IH1 as [_ IH1]. now rewrite IH1, IH2.
  - cbn [normal] in IH |- *. rewrite IH.
    apply N.eqb_neq in Hxy. now rewrite Hxy.
Qed.

Lemma rle_repeat_cons : forall k x l,
  match l with (y, _) :: _ => (x =? y)%N = false | [] => True end ->
  rle (unrle l) = l ->
  rle (repeat x (S k) ++ unrle l) = (x, S k) :: l.
Proof.
  induction k as [|k IH]; intros x l Hh Hl.
  - cbn [repeat app rle]. rewrite Hl. destruct l as [|[y j] l']; [reflexivity|].
    now rewrite Hh.
  - change (repeat x (S (S k)) ++ unrle l) with (x :: (repeat x (S k) ++ unrle l)).
    cbn [rle]. rewrite (IH x l Hh Hl). now rewrite N.eqb_refl.
Qed.

Lemma rle_unrle : forall l, normal l = true -> rle (unrle l) = l.
Proof.
  induction l as [|[x k] l IH]; intro H; [reflexivity|].
  cbn [normal] in H. apply andb_true_iff in H as [H H3].
  apply andb_true_iff in H as [H1 H2]. apply Nat.ltb_lt in H1.
  destruct k as [|k]; [lia|].
  change (unrle ((x, S k) :: l)) with (repeat x (S k) ++ unrle l).
  apply rle_repeat_cons; [|auto].
  destruct l as [|[y j] l']; [exact I|]. now apply negb_true_iff.
Qed.

Lemma normal_map : forall g l,
  (forall e, fst (g e) = fst e) ->
  (forall e, 0 < snd e -> 0 < snd (g e)) ->
  normal l = true -> normal (map g l) = true.
Proof.
  intros g l Hc Hp. induction l as [|[x k] l IH]; intro H; [reflexivity|].
  cbn [normal map] in *. apply andb_true_iff in H as [H H3].
  apply andb_true_iff in H as [H1 H2]. apply Nat.ltb_lt in H1.
  specialize (Hc (x, k)) as Hx. specialize (Hp (x, k) H1) as Hk.
  destruct (g (x, k)) as [x' k'] eqn:E. cbn [fst snd] in *. subst x'.
  rewrite (proj2 (Nat.ltb_lt _ _) Hk), (IH H3). cbn [andb].
  destruct l as [|[y j] l']; [reflexivity|]. cbn [map].
  specialize (Hc (y, j)). destruct (g (y, j)) as [y' j']. cbn [fst] in Hc.
  subst y'. now rewrite H2.
Qed.

Lemma squash_char : forall c n m e, fst (squash c n m e) = fst e.
Proof. intros c n m e. unfold squash. now destruct (_ && _). Qed.

Lemma squash_pos : forall c n m e, 0 < m -> 0 < snd e -> 0 < snd (squash c n m e).
Proof. intros c n m e Hm He. unfold squash. now destruct (_ && _). Qed.

(** Greedy repetition takes the whole run, when it is long enough. *)
Lemma rep_greedy : forall A fl c (k : cont A) s n prev gs,
  (forall p s' g, k p s' g <> None) ->
  rep fl c n prev s gs k =
  if n <=? lead fl c s
  then k (lastp prev (firstn (lead fl c s) s)) (skipn (lead fl c s) s) gs
  else None.
Proof.
  intros A fl c k. induction s as [|x s IH]; intros n prev gs Hk; cbn [rep lead].
  - destruct n; reflexivity.
  - destruct (mem fl c x) eqn:E.
    + rewrite IH by assumption. cbn [firstn skipn]. rewrite lastp_cons.
      destruct n as [|n]; cbn [pred].
      * cbn [Nat.leb].
        destruct (k (lastp (Some x) (firstn (lead fl c s) s)) (skipn (lead fl c s) s) gs) eqn:Ek;
          [reflexivity|now apply Hk in Ek].
      * change (S n <=? S (lead fl c s)) with (n <=? lead fl c s).
        destruct (n <=? lead fl c s); [|reflexivity].
        destruct (k (lastp (Some x) (firstn (lead fl c s) s)) (skipn (lead fl c s) s) gs) eqn:Ek;
          [reflexivity|now apply Hk in Ek].
    + destruct n; reflexivity.
Qed.

Lemma lead_le : forall fl c s, lead fl c s <= List.length s.
Proof.
  induction s as [|x s IH]; cbn; [lia|]. destruct (mem fl c x); cbn; lia.
Qed.

Lemma match_at_rep : forall fl c n prev s,
  match_at fl (Rep n c) prev s false =
  if n <=? lead fl c s then Some (lead fl c s, []) else None.
Proof.
  intros fl c n prev s. unfold match_at. cbn [run].
  rewrite rep_greedy by (intros; cbn; discriminate).
  destruct (n <=? lead fl c s); [|reflexivity]. cbn [andb].
  rewrite length_skipn. pose proof (lead_le fl c s). do 2 f_equal. lia.
Qed.

Section OneRun.
Variable c : char.
Variable n m : nat.
Hypothesis n_pos : 0 < n.

Definition run_re : re := Rep n (OneOf [(c, c)]).
Definition run_sub := sub_from NOFLAG run_re (repeat c m).

Lemma mem_one : forall x, mem NOFLAG (OneOf [(c, c)]) x = (x =? c)%N.
Proof.
  intros x. cbn. rewrite orb_false_r.
  destruct (N.eqb_spec x c) as [->|H].
  - now rewrite N.leb_refl.
  - destruct (N.leb_spec c x), (N.leb_spec x c); cbn; try reflexivity. lia.
Qed.

Lemma run_advances : forall prev s k gs,
  match_at NOFLAG run_re prev s false = Some (k, gs) -> 0 < k.
Proof.
  intros prev s k gs H. unfold run_re in H. rewrite match_at_rep in H.
  destruct (n <=? _) eqn:E; [|discriminate]. injection H as <- _.
  apply Nat.leb_le in E. lia.
Qed.

Lemma run_sub_nil : forall prev, run_sub prev [] = [].
Proof. intros. apply sub_from_nil, run_advances. Qed.

Lemma run_sub_cons : forall prev x s,
  run_sub prev (x :: s) =
  if n <=? lead NOFLAG (OneOf [(c, c)]) (x :: s)
  then repeat c m ++
       run_sub (lastp prev (firstn (lead NOFLAG (OneOf [(c, c)]) (x :: s)) (x :: s)))
               (skipn (lead NOFLAG (OneOf [(c, c)]) (x :: s)) (x :: s))
  else x :: run_sub (Some x) s.
Proof.
  intros prev x s. unfold run_sub.
  rewrite (@sub_from_cons U NOFLAG run_re (repeat c m) run_advances).
  unfold run_re. rewrite match_at_rep.
  now destruct (n <=? _).
Qed.

Lemma lead_repeat_same : forall k (rest : str),
  match rest with y :: _ => (c =? y)%N = false | [] => True end ->
  lead NOFLAG (OneOf [(c, c)]) (repeat c k ++ rest) = k.
Proof.
  induction k as [|k IH]; intros rest H; cbn [repeat app lead].
  - destruct rest as [|y rest]; [reflexivity|]. cbn [lead].
    rewrite mem_one, N.eqb_sym, H. reflexivity.
  - rewrite mem_one, N.eqb_refl. f_equal. now apply IH.
Qed.

Lemma skipn_repeat_app : forall (x : char) k (rest : str),
  skipn k (repeat x k ++ rest) = rest.
Proof. induction k; intros; cbn; auto. Qed.

(** A run the rule does not match is copied. *)
Lemma run_sub_keep : forall (x : char) k (rest : str) prev,
  (x =? c)%N = false \/ k < n ->
  match rest with y :: _ => (x =? y)%N = false | [] => True end ->
  exists prev', run_sub prev (repeat x k ++ rest) = repeat x k ++ run_sub prev' rest.
Proof.
  intros x. induction k as [|k IH]; intros rest prev Hx Hr; [now exists prev|].
  cbn [repeat app]. rewrite run_sub_cons.
  assert (E : (n <=? lead NOFLAG (OneOf [(c, c)]) (x :: repeat x k ++ rest)) = false).
  { apply Nat.leb_gt. destruct (N.eqb_spec x c) as [->|Hne].
    - destruct Hx as [Hx|Hx]; [discriminate|].
      change (c :: repeat c k ++ rest) with (repeat c (S k) ++ rest).
      now rewrite lead_repeat_same.
    - cbn [lead]. rewrite mem_one. apply N.eqb_neq in Hne. now rewrite Hne. }
  destruct (IH rest (Some x)) as [prev' Eq]; [|assumption|].
  { destruct Hx as [Hx|Hx]; [now left|right; lia]. }
  exists prev'. now rewrite E, Eq.
Qed.

Lemma run_sub_rle : forall l prev,
  normal l = true ->
  run_sub prev (unrle l) = unrle (map (squash c n m) l).
Proof.
  induction l as [|[x k] l IH]; intros prev H; [apply run_sub_nil|].
  cbn [normal] in H. apply andb_true_iff in H as [H H3].
  apply andb_true_iff in H as [H1 H2]. apply Nat.ltb_lt in H1.
  assert (Hr : match unrle l with y :: _ => (x =? y)%N = false | [] => True end).
  { destruct l as [|[y j] l']; [exact I|].
    cbn [normal] in H3. apply andb_true_iff in H3 as [H3 _].
    apply andb_true_iff in H3 as [H3 _]. apply Nat.ltb_lt in H3.
    destruct j; [lia|]. cbn. now apply negb_true_iff. }
  change (unrle ((x, k) :: l)) with (repeat x k ++ unrle l).
  change (unrle (map (squash c n m) ((x, k) :: l)))
    with (repeat (fst (squash c n m (x, k))) (snd (squash c n m (x, k)))
          ++ unrle (map (squash c n m) l)).
  unfold squash at 1 2. cbn [fst snd].
  destruct (N.eqb_spec x c) as [->|Hne]; cbn [andb].
  - destruct (n <=? k) eqn:E; cbn [fst snd].
    + destruct k as [|k]; [lia|]. cbn [repeat app]. rewrite run_sub_cons.
      change (c :: repeat c k ++ unrle l) with (repeat c (S k) ++ unrle l).
      rewrite lead_repeat_same by assumption. rewrite E.
      rewrite skipn_repeat_app. f_equal. now apply IH.
    + apply Nat.leb_gt in E.
      destruct (@run_sub_keep c k (unrle l) prev (or_intror E) Hr) as [prev' ->].
      f_equal. now apply IH.
  - apply N.eqb_neq in Hne.
    destruct (@run_sub_keep x k (unrle l) prev (or_introl Hne) Hr) as [prev' ->].
    f_equal. now apply IH.
Qed.

(** [re.sub] on runs of [c], read on the run-length encoding. *)
Lemma sub_run_rle : forall s,
  sub NOFLAG run_re (repeat c m) s = unrle (map (squash c n m) (rle s)).
Proof.
  intros s. rewrite sub_is_sub_from.
  rewrite <- (unrle_rle s) at 1. apply run_sub_rle, normal_rle.
Qed.

End OneRun.

End Runs.

Local Open Scope string_scope.
Local Open Scope list_scope.

(** ** The repeated-punctuation rules *)

(** What the three substitutions of [collapse_repeats] do to one run. *)
Definition collapse_run (e : char * nat) : char * nat :=
  squash 46%N 3 3 (squash 63%N 2 1 (squash 33%N 2 1 e)).

Section PunctuationNormalizer.
Context {U : Unicode}.

Lemma collapse_repeats_rle : forall text,
  collapse_repeats text = unrle (map collapse_run (rle text)).
Proof.
  intros text. unfold collapse_repeats.
  change (sub NOFLAG (Rep 2 (chars "!")) (utf8 "!") text)
    with (sub NOFLAG (run_re 33%N 2) (repeat 33%N 1) text).
  rewrite (@sub_run_rle U 33%N 2 1) by lia.
  change (sub NOFLAG (Rep 2 (chars "?")) (utf8 "?") ?x)
    with (sub NOFLAG (run_re 63%N 2) (repeat 63%N 1) x).
  rewrite (@sub_run_rle U 63%N 2 1) by lia.
  change (sub NOFLAG (Rep 3 (chars ".")) (utf8 "...") ?x)
    with (sub NOFLAG (run_re 46%N 3) (repeat 46%N 3) x).
  rewrite (@sub_run_rle U 46%N 3 3) by lia.
  rewrite !rle_unrle, !map_map; [reflexivity| |].
  - apply normal_map; [apply squash_char|intros; apply squash_pos; lia|].
    apply normal_rle.
  - apply normal_map; [apply squash_char|intros; apply squash_pos; lia|].
    rewrite rle_unrle.
    + apply normal_map; [apply squash_char|intros; apply squash_pos; lia|].
      apply normal_rle.
    + apply normal_map; [apply squash_char|intros; apply squash_pos; lia|].
      apply normal_rle.
Qed.

Lemma collapse_run_char : forall e, fst (collapse_run e) = fst e.
Proof. intros e. unfold collapse_run. now rewrite !squash_char. Qed.

Lemma collapse_run_pos : forall e, 0 < snd e -> 0 < snd (collapse_run e).
Proof.
  intros e H. unfold collapse_run. repeat apply squash_pos; auto; lia.
Qed.

Lemma squash_other : forall (c : char) n m (e : char * nat),
  (fst e =? c)%N = false -> squash c n m e = e.
Proof. intros c n m e H. unfold squash. now rewrite H. Qed.

Lemma collapse_run_idempotent : forall e, collapse_run (collapse_run e) = collapse_run e.
Proof.
  intros [x k]. unfold collapse_run.
  destruct (N.eqb_spec x 33) as [->|H1];
    [|destruct (N.eqb_spec x 63) as [->|H2];
      [|destruct (N.eqb_spec x 46) as [->|H3]]].
  1-3: destruct k as [|[|[|k]]]; reflexivity.
  apply N.eqb_neq in H1, H2, H3.
  now rewrite !squash_other by (rewrite ?squash_char; cbn [fst]; assumption).
Qed.

Lemma collapse_repeats_idempotent : forall text,
  collapse_repeats (collapse_repeats text) = collapse_repeats text.
Proof.
  intros text. rewrite !collapse_repeats_rle.
  rewrite rle_unrle.
  - rewrite map_map. f_equal. apply map_ext. apply collapse_run_idempotent.
  - apply normal_map; [apply collapse_run_char|apply collapse_run_pos|].
    apply normal_rle.
Qed.

(** [re.sub] writes characters of the text and of the replacement. *)
Lemma scan_keep_in : forall fl r s prev skip c,
  In (Keep c) (scan fl r prev s skip) -> In c s.
Proof.
  intros fl r. induction s as [|x s IH]; intros prev skip c H.
  - destruct skip; cbn [scan] in H; [|contradiction].
    destruct (match_at fl r prev [] false) as [[[|n] gs]|];
      cbn in H; intuition discriminate.
  - destruct skip; cbn [scan] in H; [|right; eapply IH; eauto].
    destruct (match_at fl r prev (x :: s) false) as [[[|n] gs]|].
    + destruct H as [H|H]; [discriminate|].
      destruct (match_at fl r prev (x :: s) true) as [[[|n] gs']|];
        destruct H as [H|H]; try discriminate;
        try (injection H as ->; now left); right; eapply IH; eauto.
    + destruct H as [H|H]; [discriminate|]. right; eapply IH; eauto.
    + destruct H as [H|H]; [injection H as ->; now left|].
      right; eapply IH; eauto.
Qed.

Lemma sub_chars : forall fl r repl s x,
  In x (sub fl r repl s) -> In x s \/ In x repl.
Proof.
  intros fl r repl s x H. unfold sub in H.
  apply in_flat_map in H as ([c|m] & Hp & Hx).
  - destruct Hx as [<-|[]]. left. eapply scan_keep_in; eauto.
  - now right.
Qed.

Lemma collapse_repeats_chars : forall text x,
  In x (collapse_repeats text) -> In x text \/ In x (utf8 "!?.").
Proof.
  intros text x H. unfold collapse_repeats in H.
  apply sub_chars in H as [H|H]; [|right; cbn in *; intuition].
  apply sub_chars in H as [H|H]; [|right; cbn in *; intuition].
  apply sub_chars in H as [H|H]; [now left|right; cbn in *; intuition].
Qed.

Lemma contains_in : forall c s, contains c s = true <-> In c s.
Proof.
  intros c s. unfold contains. rewrite existsb_exists. split.
  - intros (x & Hx & E). apply N.eqb_eq in E. now subst.
  - intros H. exists c. split; [assumption|apply N.eqb_refl].
Qed.

Lemma split_no_sep : forall c s p, In p (split c s) -> ~ In c p.
Proof.
  intros c. induction s as [|x s IH]; intros p H.
  - destruct H as [<-|[]]. intros [].
  - cbn [split] in H. destruct (N.eqb_spec x c) as [->|Hne].
    + destruct H as [<-|H]; [intros []|auto].
    + destruct (split c s) as [|q qs] eqn:E.
      * destruct H as [<-|[]]. intros [E1|[]]. congruence.
      * destruct H as [<-|H]; [|apply IH; now right].
        intros [E1|H1]; [congruence|]. apply (IH q); [now left|assumption].
Qed.

Lemma lstrip_in : forall s x, In x (lstrip s) -> In x s.
Proof.
  induction s as [|c s IH]; intros x H; [assumption|].
  cbn [lstrip] in H. destruct (isspace c); [right; auto|assumption].
Qed.

Lemma strip_in : forall s x, In x (strip s) -> In x s.
Proof.
  intros s x H. unfold strip, rstrip in H.
  apply in_rev, lstrip_in, in_rev in H. now apply lstrip_in.
Qed.

Lemma upper1_no_dash : forall c, c <> em_dash -> ~ In em_dash (upper1 c).
Proof.
  intros c Hc. unfold upper1. destruct (is_ascii c) eqn:Ea.
  - intros [E|[]]. unfold is_ascii, ascii_upper, ascii_islower, em_dash in *.
    apply N.ltb_lt in Ea. destruct (_ && _); lia.
  - destruct (N.eqb_spec c em_dash); [contradiction|].
    apply upper_no_dash; [|assumption].
    unfold is_ascii in Ea. now apply N.ltb_ge in Ea.
Qed.

Lemma capitalized_no_dash : forall p, ~ In em_dash p -> ~ In em_dash (capitalized p).
Proof.
  intros [|c p] H; [assumption|]. cbn [capitalized upper flat_map].
  rewrite app_nil_r. intros Hin. apply in_app_or in Hin as [Hin|Hin].
  - apply (@upper1_no_dash c); [|assumption]. intros ->. apply H. now left.
  - apply H. now right.
Qed.

Lemma join_in : forall sep parts x,
  In x (join sep parts) -> In x sep \/ exists p, In p parts /\ In x p.
Proof.
  intros sep. induction parts as [|p ps IH]; intros x H; [contradiction|].
  cbn [join] in H. destruct ps as [|q qs].
  - right. exists p. split; [now left|assumption].
  - apply in_app_or in H as [H|H]; [right; exists p; split; [now left|assumption]|].
    apply in_app_or in H as [H|H]; [now left|].
    apply IH in H as [H|(p' & Hp & Hx)]; [now left|].
    right. exists p'. split; [now right|assumption].
Qed.

Lemma em_dash_segments_no_dash : forall text p,
  In p (em_dash_segments text) -> ~ In em_dash p.
Proof.
  intros text p H. unfold em_dash_segments in H.
  assert (Hs : forall q, In q (map strip (split em_dash text)) -> ~ In em_dash q).
  { intros q Hq. apply in_map_iff in Hq as (q0 & <- & Hq0).
    intros Hin. apply strip_in in Hin. now apply (@split_no_sep _ _ _ Hq0). }
  destruct (map strip (split em_dash text)) as [|first others]; [contradiction|].
  apply in_app_or in H as [H|H].
  - cbn in H. destruct (nonempty first); [|contradiction].
    destruct H as [<-|[]]. apply Hs. now left.
  - apply in_map_iff in H as (q & <- & Hq). apply filter_In in Hq as [Hq _].
    apply capitalized_no_dash, Hs. now right.
Qed.

(** The Punctuation Normalizer finds nothing to change in its own
    output. *)
Lemma fix_punctuation_tells_idempotent : forall text,
  (text' <- fix_punctuation_tells text ;; fix_punctuation_tells text')
  = fix_punctuation_tells text.
Proof.
  intros text. rewrite (fix_punctuation_tells_spec text).
  cbn [bind]. rewrite fix_punctuation_tells_spec.
  set (y := if contains em_dash text then _ else text).
  assert (Hy : ~ In em_dash y).
  { subst y. destruct (contains em_dash text) eqn:E.
    - intros H. apply join_in in H as [H|(p & Hp & H)].
      + cbn in H. unfold em_dash in H. intuition discriminate.
      + now apply (@em_dash_segments_no_dash _ _ Hp).
    - intros H. apply contains_in in H. congruence. }
  replace (contains em_dash (collapse_repeats y)) with false.
  - now rewrite collapse_repeats_idempotent.
  - symmetry. apply not_true_is_false. intros H. apply contains_in in H.
    apply collapse_repeats_chars in H as [H|H]; [contradiction|].
    cbn in H. unfold em_dash in H. intuition discriminate.
Qed.

End PunctuationNormalizer.

(** ** Word boundaries and idempotence of the stages *)

Section StageProperties.
Context {U : Unicode}.

(** C6.  A token of the text (a maximal run of word characters) that is
    none of the words the rules are written with, in any case, is left as
    it is whatever surrounds it, and the rules act on the text before it
    and on the text after it as if each stood alone: no rule matches inside
    the token or across it. *)
Theorem word_boundary_anchoring :
  forall (aggressive : bool) (pre t post : str),
    t <> [] -> forallb isword t = true ->
    isword_at (lastp None pre) = false ->
    isword_at (hd_error post) = false ->
    foreign t = true ->
    replace_ai_word_choices (init aggressive) (pre ++ t ++ post) =
    replace_ai_word_choices (init aggressive) pre ++ t ++
    replace_ai_word_choices (init aggressive) post.
Proof.
  intros a pre t post Hne Ht Hpre Hpost Hf.
  unfold replace_ai_word_choices. cbn [word_replacements init].
  apply sub_all_frame; auto.
  - exact word_replacements_ok.
  - exact (foreign_spec t Hf).
Qed.

(** Matching is case-insensitive and anchored on both sides: "delver",
    "delve_x" and "undelve" are not touched, "DELVES" and "Delve's" are. *)
Lemma replace_ai_word_choices_examples :
  forall aggressive,
    replace_ai_word_choices (init aggressive)
      (utf8 "The delver DELVES; delve_x, Delve's undelve")
    = utf8 "The delver explore; delve_x, explore's undelve".
Proof. intros []; vm_compute; reflexivity. Qed.

(** C3 (as amended).  The Punctuation Normalizer and the Lexical
    Substituter are idempotent on every text.  The Hedge Remover and the
    Whitespace Normalizer are not: removing a hedge phrase can join the two
    halves of another one, and the rule for a space before a punctuation
    mark does not look again at the space it has just consumed. *)
Theorem stage_idempotence :
  (forall text,
     (text' <- fix_punctuation_tells text ;; fix_punctuation_tells text')
     = fix_punctuation_tells text) /\
  (forall aggressive text,
     replace_ai_word_choices (init aggressive)
       (replace_ai_word_choices (init aggressive) text)
     = replace_ai_word_choices (init aggressive) text) /\
  (forall aggressive,
     remove_hedging_language (init aggressive)
       (utf8 "In the In the world of world of x")
     = Ok (utf8 "In the world of x") /\
     remove_hedging_language (init aggressive) (utf8 "In the world of x")
     = Ok (utf8 "X")) /\
  (clean_whitespace (utf8 "a ! ! b") = Ok (utf8 "a! ! b") /\
   clean_whitespace (utf8 "a! ! b") = Ok (utf8 "a!! b")).
Proof.
  split; [exact fix_punctuation_tells_idempotent|].
  split; [exact replace_ai_word_choices_idempotent|].
  split; [intros []; split; vm_compute; reflexivity|].
  split; vm_compute; reflexivity.
Qed.

End StageProperties.

(** The witness of C6: "delver" between a rule word and a capitalized
    one. *)
Lemma word_boundary_anchoring_witness :
  replace_ai_word_choices (U := Sample.tables) (init false)
    (utf8 "thus the " ++ utf8 "delver" ++ utf8 " DELVES")
  = replace_ai_word_choices (U := Sample.tables) (init false) (utf8 "thus the ")
    ++ utf8 "delver"
    ++ replace_ai_word_choices (U := Sample.tables) (init false) (utf8 " DELVES").
Proof.
  apply (@word_boundary_anchoring Sample.tables false
           (utf8 "thus the ") (utf8 "delver") (utf8 " DELVES")).
  - vm_compute. discriminate.
  - vm_compute. reflexivity.
  - vm_compute. reflexivity.
  - vm_compute. reflexivity.
  - vm_compute. reflexivity.
Defined.

(** The counterexample to C3 as stated: the Hedge Remover changes its own
    output, and so does the Whitespace Normalizer. *)
Lemma stage_idempotence_counterexample :
  (remove_hedging_language (U := Sample.tables) (init false)
     (utf8 "In the In the world of world of x")
   = Ok (utf8 "In the world of x") /\
   remove_hedging_language (U := Sample.tables) (init false)
     (utf8 "In the world of x")
   = Ok (utf8 "X")) /\
  (clean_whitespace (U := Sample.tables) (utf8 "a ! ! b") = Ok (utf8 "a! ! b") /\
   clean_whitespace (U := Sample.tables) (utf8 "a! ! b") = Ok (utf8 "a!! b")).
Proof. repeat split; vm_compute; reflexivity. Qed.

(** ** What the pipeline returns *)

(** The text does not start with white space. *)
Definition starts_clean (s : str) : bool :=
  match s with
  | [] => true
  | c :: _ => negb (isspace c)
  end.

Section Trimmed.
Context {U : Unicode}.

Lemma lstrip_starts_clean : forall s : str, starts_clean (lstrip s) = true.
Proof.
  induction s as [|c s IH]; [reflexivity|]. cbn [lstrip].
  destruct (isspace c) eqn:E; [assumption|]. cbn. now rewrite E.
Qed.

Lemma lstrip_fixed : forall s : str, starts_clean s = true -> lstrip s = s.
Proof.
  intros [|c s] H; [reflexivity|]. cbn in *.
  now destruct (isspace c).
Qed.

Lemma lstrip_suffix : forall s : str, exists pre, s = pre ++ lstrip s.
Proof.
  induction s as [|c s [pre IH]]; [now exists []|]. cbn [lstrip].
  destruct (isspace c).
  - exists (c :: pre). cbn. now rewrite <- IH.
  - now exists [].
Qed.

Lemma rstrip_prefix : forall s : str, exists post, s = rstrip s ++ post.
Proof.
  intros s. unfold rstrip. destruct (lstrip_suffix (rev s)) as [pre E].
  exists (rev pre). rewrite <- rev_app_distr, <- E. now rewrite rev_involutive.
Qed.

Lemma rstrip_starts_clean : forall s : str,
  starts_clean s = true -> starts_clean (rstrip s) = true.
Proof.
  intros s H. destruct (rstrip_prefix s) as [post E].
  destruct (rstrip s) as [|c t]; [reflexivity|].
  rewrite E in H. exact H.
Qed.

(** [s.strip()] is already stripped. *)
Lemma strip_idempotent : forall s : str, strip (strip s) = strip s.
Proof.
  intros s. unfold strip at 1.
  rewrite lstrip_fixed.
  - unfold strip, rstrip. rewrite rev_involutive.
    rewrite (lstrip_fixed (lstrip (rev (lstrip s)))); [reflexivity|].
    apply lstrip_starts_clean.
  - unfold strip. apply rstrip_starts_clean, lstrip_starts_clean.
Qed.

(** X1.  The text [humanize] returns for a text that is not blank is
    trimmed; a blank text comes back as it is. *)
Theorem humanize_output_trimmed :
  forall (aggressive : bool) (text content_type : str),
    exists out : str,
      humanize_text text content_type aggressive = Ok out /\
      (if nonempty (strip text) then strip out else text) = out.
Proof.
  intros a text ct. unfold humanize_text. cbv zeta.
  destruct (humanize_ok (init a) text ct) as [out E].
  exists out. split; [assumption|].
  unfold humanize in E.
  destruct (nonempty (strip text)) eqn:Hs.
  - assert (Ht : nonempty text = true).
    { destruct text; [discriminate Hs|reflexivity]. }
    rewrite Ht in E. cbn [negb orb] in E.
    destruct (fix_punctuation_tells text) as [t1|]; [|discriminate].
    cbn [bind] in E. cbv zeta in E.
    destruct (remove_hedging_language _ _) as [t2|]; [|discriminate].
    cbn [bind] in E.
    match type of E with
    | (x <- ?e ;; _) = _ => destruct e as [t3|]; [|discriminate]
    end.
    cbn [bind] in E.
    destruct (clean_whitespace _) as [t4|]; [|discriminate].
    cbn [bind] in E. injection E as <-. apply strip_idempotent.
  - rewrite orb_true_r in E. now injection E.
Qed.

End Trimmed.

(** ** Where the characters of the output come from *)

(** Every character of [g] is a character of [s]. *)
Definition from_text (s g : str) : Prop := forall x : char, In x g -> In x s.

Section Provenance.
Context {U : Unicode}.
Variable fl : flags.

Lemma from_text_firstn : forall n (s : str), from_text s (firstn n s).
Proof.
  induction n as [|n IH]; intros s x H; [contradiction|].
  destruct s as [|c s]; [contradiction|]. cbn [firstn] in H.
  destruct H as [<-|H]; [now left|right; now apply IH].
Qed.

Lemma from_text_app : forall (pre s g : str), from_text s g -> from_text (pre ++ s) g.
Proof. intros pre s g H x Hx. apply in_or_app. right. auto. Qed.

Lemma rep_rest : forall A c n prev (s : str) gs (k : cont A) a,
  rep fl c n prev s gs k = Some a ->
  exists p' s', k p' s' gs = Some a /\ exists pre, s = pre ++ s'.
Proof.
  intros A c n prev s. revert n prev.
  induction s as [|x s IH]; intros n prev gs k a H; cbn [rep] in H.
  - destruct n; [|discriminate]. exists prev, []. split; [assumption|now exists []].
  - destruct (mem fl c x).
    + destruct (rep fl c (pred n) (Some x) s gs k) eqn:E.
      * injection H as <-. apply IH in E as (p' & s' & E & pre & ->).
        exists p', s'. split; [assumption|]. now exists (x :: pre).
      * destruct n; [|discriminate]. exists prev, (x :: s).
        split; [assumption|now exists []].
    + destruct n; [|discriminate]. exists prev, (x :: s).
      split; [assumption|now exists []].
Qed.

(** The groups a match records are pieces of the text it reads. *)
Lemma run_rest : forall A r prev (s : str) gs (k : cont A) a,
  run fl r prev s gs k = Some a ->
  exists p' s' gs',
    k p' s' gs' = Some a /\ (exists pre, s = pre ++ s') /\
    (forall g, In g gs' -> In g gs \/ from_text s g).
Proof.
  intros A. induction r as [|c|r1 IH1 r2 IH2|r1 IH1 r2 IH2|r1 IH1|n c|r1 IH1| | |];
    intros prev s gs k a H; cbn [run] in H.
  - exists prev, s, gs. repeat split; auto. now exists [].
  - destruct s as [|x s]; [discriminate|].
    destruct (mem fl c x); [|discriminate].
    exists (Some x), s, gs. repeat split; auto. now exists [x].
  - apply IH1 in H as (p1 & s1 & g1 & H & (pre1 & ->) & G1).
    apply IH2 in H as (p2 & s2 & g2 & H & (pre2 & ->) & G2).
    exists p2, s2, g2. split; [assumption|]. split.
    + exists (pre1 ++ pre2). now rewrite app_assoc.
    + intros g Hg. destruct (G2 g Hg) as [Hg1|Hf].
      * destruct (G1 g Hg1) as [Hg0|Hf]; [now left|now right].
      * right. now apply from_text_app.
  - destruct (run fl r1 prev s gs k) eqn:E.
    + injection H as <-. now apply IH1 in E.
    + now apply IH2 in H.
  - destruct (run fl r1 prev s gs k) eqn:E.
    + injection H as <-. now apply IH1 in E.
    + exists prev, s, gs. repeat split; auto. now exists [].
  - apply rep_rest in H as (p' & s' & H & Hs).
    exists p', s', gs. repeat split; auto.
  - apply IH1 in H as (p1 & s1 & g1 & H & Hs & G1).
    eexists _, _, _. split; [exact H|]. split; [assumption|].
    intros g Hg. apply in_app_or in Hg as [Hg|[<-|[]]]; [auto|].
    right. apply from_text_firstn.
  - destruct (xorb _ _); [|discriminate].
    exists prev, s, gs. repeat split; auto. now exists [].
  - destruct prev as [c|].
    + destruct (multiline fl && (c =? 10)%N); [|discriminate].
      eexists _, _, _. split; [exact H|]. split; [now exists []|auto].
    + eexists _, _, _. split; [exact H|]. split; [now exists []|auto].
  - destruct s as [|c s'].
    + eexists _, _, _. split; [exact H|]. split; [now exists []|auto].
    + destruct (_ && _); [|discriminate].
      eexists _, _, _. split; [exact H|]. split; [now exists []|auto].
Qed.

Lemma match_at_from_text : forall r prev (s : str) b n gs,
  match_at fl r prev s b = Some (n, gs) ->
  forall g, In g gs -> from_text s g.
Proof.
  intros r prev s b n gs H g Hg. unfold match_at in H.
  apply run_rest in H as (p' & s' & gs' & H & _ & G).
  destruct (b && _); [discriminate|]. injection H as _ <-.
  destruct (G g Hg) as [[]|Hf]. exact Hf.
Qed.

(** Every piece of the scan is made of characters of the text. *)
Lemma scan_from_text : forall r (s : str) prev skip,
  Forall (fun p => match p with
                   | Keep c => In c s
                   | Hit m => from_text s (g0 m) /\
                              forall g, In g (caps m) -> from_text s g
                   end) (scan fl r prev s skip).
Proof.
  intros r. induction s as [|c s IH]; intros prev skip.
  - destruct skip; cbn [scan]; [|constructor].
    destruct (match_at fl r prev [] false) as [[[|n] gs]|] eqn:E;
      repeat constructor; cbn [g0 caps];
      try apply from_text_firstn; try (intros x []);
      eapply match_at_from_text; eauto.
  - assert (Tail : forall p' k,
      Forall (fun p => match p with
                       | Keep c0 => In c0 (c :: s)
                       | Hit m => from_text (c :: s) (g0 m) /\
                                  forall g, In g (caps m) -> from_text (c :: s) g
                       end) (scan fl r p' s k)).
    { intros p' k. eapply Forall_impl; [|apply IH].
      intros [c0|m]; [now right|]. intros [H1 H2]. split.
      - now apply (from_text_app [c]).
      - intros g Hg. now apply (from_text_app [c]), H2. }
    destruct skip; cbn [scan]; [|apply Tail].
    destruct (match_at fl r prev (c :: s) false) as [[[|n] gs]|] eqn:E.
    + constructor.
      { cbn [g0 caps]. split; [intros x []|]. eapply match_at_from_text; eauto. }
      destruct (match_at fl r prev (c :: s) true) as [[[|n] gs']|] eqn:E'.
      * constructor; [now left|apply Tail].
      * constructor; [|apply Tail]. cbn [g0 caps].
        split; [apply from_text_firstn|]. eapply match_at_from_text; eauto.
      * constructor; [now left|apply Tail].
    + constructor; [|apply Tail]. cbn [g0 caps].
      split; [apply from_text_firstn|]. eapply match_at_from_text; eauto.
    + constructor; [now left|apply Tail].
Qed.

End Provenance.

Section NoDash.
Context {U : Unicode}.

(** The text holds no em dash. *)
Definition dash_free (s : str) : Prop := ~ In em_dash s.

Lemma dash_free_from_text : forall s g : str,
  dash_free s -> from_text s g -> dash_free g.
Proof. intros s g H F Hin. apply H, F, Hin. Qed.

Lemma dash_free_app : forall a b : str, dash_free a -> dash_free b -> dash_free (a ++ b).
Proof. intros a b Ha Hb H. apply in_app_or in H as [H|H]; auto. Qed.

Lemma sub_dash_free : forall fl r (repl text : str),
  dash_free repl -> dash_free text -> dash_free (sub fl r repl text).
Proof.
  intros fl r repl text Hr Ht H. apply sub_chars in H as [H|H]; auto.
Qed.

Lemma sub_pieces_dash_free : forall repl ps out,
  Forall (fun p => match p with
                   | Keep c => c <> em_dash
                   | Hit m => forall y, repl m = Ok y -> dash_free y
                   end) ps ->
  sub_pieces repl ps = Ok out -> dash_free out.
Proof.
  intros repl. induction ps as [|[c|m] ps IH]; intros out F E; cbn [sub_pieces] in E.
  - injection E as <-. intros [].
  - inversion_clear F as [|? ? Hc Hps].
    destruct (sub_pieces repl ps) as [rest|]; [|discriminate].
    cbn [bind] in E. injection E as <-.
    intros [H|H]; [congruence|]. now apply (IH rest Hps eq_refl).
  - inversion_clear F as [|? ? Hm Hps].
    destruct (repl m) as [x|] eqn:Ex; [|discriminate]. cbn [bind] in E.
    destruct (sub_pieces repl ps) as [rest|]; [|discriminate].
    cbn [bind] in E. injection E as <-.
    apply dash_free_app; [now apply Hm|now apply (IH rest Hps eq_refl)].
Qed.

Lemma sub_f_dash_free : forall fl r repl (text out : str),
  (forall m y,
     dash_free (g0 m) -> (forall g, In g (caps m) -> dash_free g) ->
     repl m = Ok y -> dash_free y) ->
  dash_free text ->
  sub_f fl r repl text = Ok out -> dash_free out.
Proof.
  intros fl r repl text out Hrepl Ht E. unfold sub_f in E.
  eapply sub_pieces_dash_free; [|exact E].
  eapply Forall_impl; [|apply scan_from_text].
  intros [c|m]; cbn beta iota.
  - intros Hc ->. now apply Ht.
  - intros [H0 Hg] y Ey. apply (Hrepl m y); auto.
    + now apply (dash_free_from_text Ht).
    + intros g Hin. apply (dash_free_from_text Ht). now apply Hg.
Qed.

Lemma group_dash_free : forall m n g,
  dash_free (g0 m) -> (forall g, In g (caps m) -> dash_free g) ->
  group m n = Ok g -> dash_free g.
Proof.
  intros m [|i] g H0 Hc E; cbn [group] in E; [now injection E as <-|].
  destruct (nth_error (caps m) i) as [g'|] eqn:En; [|discriminate].
  injection E as <-. apply Hc. eapply nth_error_In; eauto.
Qed.

Lemma expand_dash_free : forall t m y,
  Forall (fun i => match i with TText s => dash_free s | TGroup _ => True end) t ->
  dash_free (g0 m) -> (forall g, In g (caps m) -> dash_free g) ->
  expand t m = Ok y -> dash_free y.
Proof.
  induction t as [|[s|n] t IH]; intros m y F H0 Hc E; cbn [expand] in E.
  - injection E as <-. intros [].
  - inversion_clear F as [|? ? Hs Ht].
    destruct (expand t m) as [rest|] eqn:Er; [|discriminate].
    cbn [bind] in E. injection E as <-.
    apply dash_free_app; [assumption|]. now apply (IH m rest).
  - inversion_clear F as [|? ? _ Ht]. unfold template_group in E.
    destruct (group m n) as [g|] eqn:Eg; [|discriminate]. cbn [bind] in E.
    destruct (expand t m) as [rest|] eqn:Er; [|discriminate].
    cbn [bind] in E. injection E as <-.
    apply dash_free_app.
    + now apply (group_dash_free m n).
    + now apply (IH m rest).
Qed.

Lemma add_space_dash_free : forall m y,
  dash_free (g0 m) -> (forall g, In g (caps m) -> dash_free g) ->
  add_space_after_punct m = Ok y -> dash_free y.
Proof.
  intros m y H0 Hc E. unfold add_space_after_punct in E.
  destruct (group m 1) as [punct|] eqn:E1; [|discriminate]. cbn [bind] in E.
  destruct (group m 2) as [following|] eqn:E2; [|discriminate]. cbn [bind] in E.
  destruct (_ && _).
  - now apply (group_dash_free m 0).
  - injection E as <-.
    apply dash_free_app; [now apply (group_dash_free m 1)|].
    change (dash_free ([32%N] ++ following)).
    apply dash_free_app; [|now apply (group_dash_free m 2)].
    intros [H|[]]. discriminate H.
Qed.

Lemma clean_whitespace_dash_free : forall text out : str,
  dash_free text -> clean_whitespace text = Ok out -> dash_free out.
Proof.
  intros text out Ht E. unfold clean_whitespace in E. cbv zeta in E.
  destruct (sub_f NOFLAG _ _ _) as [t1|] eqn:E1; [|discriminate].
  cbn [bind] in E.
  destruct (sub_f MULTILINE _ _ t1) as [t2|] eqn:E2; [|discriminate].
  cbn [bind] in E.
  destruct (sub_f NOFLAG _ _ t2) as [t3|] eqn:E3; [|discriminate].
  cbn [bind] in E. injection E as <-.
  apply sub_dash_free; [intros [H|[H|[]]]; discriminate H|].
  eapply sub_f_dash_free; [|  |exact E3].
  { intros m y. apply add_space_dash_free. }
  eapply sub_f_dash_free; [| |exact E2].
  { intros m y H0 Hc. apply expand_dash_free; [repeat constructor|assumption..]. }
  eapply sub_f_dash_free; [| |exact E1].
  { intros m y H0 Hc. apply expand_dash_free; [|assumption..].
    constructor; [exact I|]. constructor; [|constructor].
    intros [H|[]]. discriminate H. }
  apply sub_dash_free; [intros [H|[]]; discriminate H|assumption].
Qed.

Lemma sub_all_dash_free : forall fl table (text : str),
  (forall rule, In rule table -> dash_free (snd rule)) ->
  dash_free text -> dash_free (sub_all fl table text).
Proof.
  intros fl. induction table as [|[r repl] table IH]; intros text Hr Ht; [assumption|].
  cbn [sub_all fold_left fst snd]. apply IH.
  - intros rule Hin. apply Hr. now right.
  - apply sub_dash_free; [|assumption]. apply (Hr (r, repl)). now left.
Qed.

Lemma remove_all_dash_free : forall fl patterns (text : str),
  dash_free text -> dash_free (remove_all fl patterns text).
Proof.
  intros fl. induction patterns as [|r patterns IH]; intros text Ht; [assumption|].
  cbn [remove_all fold_left]. apply IH. apply sub_dash_free; [intros []|assumption].
Qed.

Lemma strip_dash_free : forall s : str, dash_free s -> dash_free (strip s).
Proof. intros s H Hin. now apply H, strip_in. Qed.

Lemma recapitalize_dash_free : forall text out : str,
  dash_free text -> recapitalize text = Ok out -> dash_free out.
Proof.
  intros text out Ht E. unfold recapitalize in E.
  destruct text as [|c text]; [now injection E as <-|].
  cbn [nonempty index0 bind] in E.
  destruct (islower [c]); [|now injection E as <-].
  cbn in E. injection E as <-.
  now apply (capitalized_no_dash (c :: text)).
Qed.

Lemma table_dash_free : forall table : list (re * str),
  forallb (fun rule => negb (contains em_dash (snd rule))) table = true ->
  forall rule, In rule table -> dash_free (snd rule).
Proof.
  intros table H rule Hin Hd. rewrite forallb_forall in H.
  apply H in Hin. apply negb_true_iff in Hin.
  apply contains_in in Hd. congruence.
Qed.

Lemma fix_punctuation_tells_dash_free : forall text out : str,
  fix_punctuation_tells text = Ok out -> dash_free out.
Proof.
  intros text out E. rewrite fix_punctuation_tells_spec in E. injection E as <-.
  intros H. apply collapse_repeats_chars in H as [H|H].
  - destruct (contains em_dash text) eqn:Ec.
    + apply join_in in H as [H|(p & Hp & H)].
      * cbn in H. unfold em_dash in H. intuition discriminate.
      * now apply (@em_dash_segments_no_dash _ _ _ Hp).
    + apply contains_in in H. congruence.
  - cbn in H. unfold em_dash in H. intuition discriminate.
Qed.

Lemma fix_youtube_title_tells_dash_free : forall text : str,
  dash_free text -> dash_free (fix_youtube_title_tells text).
Proof.
  intros text Ht. unfold fix_youtube_title_tells. cbv zeta.
  set (t1 := sub NOFLAG _ [] text).
  assert (H1 : dash_free t1) by (apply sub_dash_free; [intros []|assumption]).
  set (t2 := if (30 <? _)%nat then _ else t1).
  assert (H2 : dash_free t2).
  { subst t2. destruct (30 <? _)%nat; [|assumption].
    generalize t1 H1. generalize buzzwords.
    induction l as [|w l IH]; intros t Hd; [assumption|].
    cbn [fold_left]. apply IH. apply sub_dash_free; [intros []|assumption]. }
  destruct (40 <? _)%nat; [|assumption].
  generalize t2 H2. generalize generic_adjectives.
  induction l as [|w l IH]; intros t Hd; [assumption|].
  cbn [fold_left]. apply IH. apply sub_dash_free; [|assumption].
  intros H. cbn in H. unfold em_dash in H. intuition discriminate.
Qed.

Lemma blank_dash_free : forall text : str,
  nonempty (strip text) = false -> dash_free text.
Proof.
  intros text H Hin.
  assert (A : forall s : str, lstrip s = [] -> forall x, In x s -> isspace x = true).
  { induction s as [|c s IH]; intros E x Hx; [contradiction|].
    cbn [lstrip] in E. destruct (isspace c) eqn:Ec; [|discriminate].
    destruct Hx as [<-|Hx]; auto. }
  assert (E : strip text = []) by (destruct (strip text); [reflexivity|discriminate]).
  unfold strip, rstrip in E.
  apply (f_equal (@rev char)) in E. rewrite rev_involutive in E. cbn in E.
  assert (L : lstrip text = []).
  { pose proof (lstrip_starts_clean text) as C.
    destruct (lstrip text) as [|c t] eqn:El; [reflexivity|].
    cbn in C. assert (S : isspace c = true).
    { apply (A _ E). apply in_rev. rewrite rev_involutive. now left. }
    rewrite S in C. discriminate. }
  pose proof (A _ L _ Hin) as S. discriminate S.
Qed.

Lemma humanize_text_dash_free :
  forall (aggressive : bool) (text content_type : str),
    exists out : str,
      humanize_text text content_type aggressive = Ok out /\ dash_free out.
Proof.
  intros a text ct. unfold humanize_text. cbv zeta.
  destruct (humanize_ok (init a) text ct) as [out E].
  exists out. split; [assumption|].
  unfold humanize in E.
  destruct (nonempty (strip text)) eqn:Hs.
  2:{ rewrite orb_true_r in E. injection E as <-. now apply blank_dash_free. }
  assert (Ht : nonempty text = true).
  { destruct text; [discriminate Hs|reflexivity]. }
  rewrite Ht in E. cbn [negb orb] in E.
  destruct (fix_punctuation_tells text) as [t1|] eqn:E1; [|discriminate].
  cbn [bind] in E. cbv zeta in E.
  apply fix_punctuation_tells_dash_free in E1.
  assert (D2 : dash_free (replace_ai_word_choices (init a) t1)).
  { unfold replace_ai_word_choices. cbn [word_replacements init].
    apply sub_all_dash_free; [|assumption]. now apply table_dash_free. }
  destruct (remove_hedging_language _ _) as [t2|] eqn:E2; [|discriminate].
  cbn [bind] in E.
  assert (D3 : dash_free t2).
  { unfold remove_hedging_language in E2. cbv zeta in E2.
    apply recapitalize_dash_free in E2; [assumption|].
    now apply strip_dash_free, remove_all_dash_free. }
  match type of E with
  | (x <- ?e ;; _) = _ => destruct e as [t3|] eqn:E3; [|discriminate]
  end.
  cbn [bind] in E.
  assert (D4 : dash_free t3).
  { destruct (str_eqb ct _).
    - injection E3 as <-. now apply fix_youtube_title_tells_dash_free.
    - destruct (str_eqb ct _).
      + unfold fix_youtube_description_tells in E3. cbv zeta in E3.
        apply recapitalize_dash_free in E3; [assumption|].
        now apply strip_dash_free, remove_all_dash_free, remove_all_dash_free.
      + destruct (str_eqb ct _); now injection E3 as <-. }
  destruct (clean_whitespace _) as [t4|] eqn:E4; [|discriminate].
  cbn [bind] in E. injection E as <-.
  apply strip_dash_free.
  eapply clean_whitespace_dash_free; [|exact E4].
  destruct (aggressive (init a)); [|assumption].
  unfold add_contractions. cbn [contractions init].
  apply sub_all_dash_free; [|assumption]. now apply table_dash_free.
Qed.

(** X2.  Whatever the text, the content type and the flag, the text
    [humanize] returns holds no em dash. *)
Theorem humanize_output_no_em_dash :
  forall (aggressive : bool) (text content_type : str),
    exists out : str,
      humanize_text text content_type aggressive = Ok out /\
      contains em_dash out = false.
Proof.
  intros a text ct.
  destruct (humanize_text_dash_free a text ct) as (out & E & D).
  exists out. split; [assumption|].
  apply not_true_is_false. intros Hc. now apply contains_in in Hc.
Qed.

End NoDash.

(** ** What the Punctuation Normalizer leaves of repeated marks *)

Section RepeatedMarks.
Context {U : Unicode}.

Lemma startswith_short_run : forall (c : char) j n (rest : str),
  j < n ->
  match rest with y :: _ => (c =? y)%N = false | [] => True end ->
  startswith (repeat c n) (repeat c j ++ rest) = false.
Proof.
  intros c. induction j as [|j IH]; intros n rest Hj Hr.
  - destruct n as [|n]; [lia|]. cbn [repeat app].
    destruct rest as [|y rest]; [reflexivity|]. cbn [startswith]. now rewrite Hr.
  - destruct n as [|n]; [lia|]. cbn [repeat app startswith].
    rewrite N.eqb_refl. cbn [andb]. apply IH; [lia|assumption].
Qed.

Lemma substring_in_run : forall (c x : char) m k (rest : str),
  ((x =? c)%N = false \/ k <= m) ->
  match rest with y :: _ => (x =? y)%N = false | [] => True end ->
  substring_in (repeat c (S m)) (repeat x k ++ rest)
  = substring_in (repeat c (S m)) rest.
Proof.
  intros c x m. induction k as [|k IH]; intros rest Hx Hr; [reflexivity|].
  change (repeat x (S k) ++ rest) with (x :: (repeat x k ++ rest)).
  cbn [substring_in].
  replace (startswith (repeat c (S m)) (x :: repeat x k ++ rest)) with false.
  - cbn [orb]. apply IH; [|assumption]. destruct Hx as [Hx|Hx]; [now left|right; lia].
  - symmetry. destruct (N.eqb_spec x c) as [->|Hne].
    + destruct Hx as [Hx|Hx]; [discriminate|].
      change (c :: repeat c k ++ rest) with (repeat c (S k) ++ rest).
      apply startswith_short_run; [lia|assumption].
    + cbn [repeat startswith]. apply N.eqb_neq in Hne.
      now rewrite N.eqb_sym, Hne.
Qed.

(** A text whose runs of [c] have at most [m] characters holds no run of
    [m + 1]. *)
Lemma no_long_run : forall (c : char) m (l : list (char * nat)),
  normal l = true ->
  (forall e, In e l -> fst e = c -> snd e <= m) ->
  substring_in (repeat c (S m)) (unrle l) = false.
Proof.
  intros c m. induction l as [|[x k] l IH]; intros Hn Hb; [reflexivity|].
  cbn [normal] in Hn. apply andb_true_iff in Hn as [Hn H3].
  apply andb_true_iff in Hn as [H1 H2].
  change (unrle ((x, k) :: l)) with (repeat x k ++ unrle l).
  rewrite substring_in_run.
  - apply IH; [assumption|]. intros e He. apply Hb. now right.
  - destruct (N.eqb_spec x c) as [->|Hne]; [right|now left].
    apply (Hb (c, k)); [now left|reflexivity].
  - destruct l as [|[y j] l']; [exact I|].
    cbn [normal] in H3. apply andb_true_iff in H3 as [H3 _].
    apply andb_true_iff in H3 as [H3 _]. apply Nat.ltb_lt in H3.
    destruct j; [lia|]. cbn. now apply negb_true_iff.
Qed.

Lemma collapse_run_bound : forall e : char * nat,
  (fst e = 33%N -> snd (collapse_run e) <= 1) /\
  (fst e = 63%N -> snd (collapse_run e) <= 1) /\
  (fst e = 46%N -> snd (collapse_run e) <= 3).
Proof.
  intros [x k]. cbn [fst]. repeat split; intros ->;
    destruct k as [|[|[|[|k]]]]; cbn; lia.
Qed.

Lemma collapse_repeats_no_repeats : forall y : str,
  substring_in (utf8 "!!") (collapse_repeats y) = false /\
  substring_in (utf8 "??") (collapse_repeats y) = false /\
  substring_in (utf8 "....") (collapse_repeats y) = false.
Proof.
  intros y. rewrite collapse_repeats_rle.
  assert (Hn : normal (map collapse_run (rle y)) = true).
  { apply normal_map; [apply collapse_run_char|apply collapse_run_pos|].
    apply normal_rle. }
  assert (Hb : forall e, In e (map collapse_run (rle y)) ->
             (fst e = 33%N -> snd e <= 1) /\
             (fst e = 63%N -> snd e <= 1) /\
             (fst e = 46%N -> snd e <= 3)).
  { intros e He. apply in_map_iff in He as (e0 & <- & _).
    rewrite collapse_run_char. apply collapse_run_bound. }
  repeat split.
  - apply (@no_long_run 33%N 1 _ Hn). intros e He. now apply Hb.
  - apply (@no_long_run 63%N 1 _ Hn). intros e He. now apply Hb.
  - apply (@no_long_run 46%N 3 _ Hn). intros e He. now apply Hb.
Qed.

(** X3.  In what [fix_punctuation_tells] returns no "!" follows a "!", no
    "?" follows a "?", and no more than three "." stand in a row. *)
Theorem fix_punctuation_tells_no_repeats :
  forall text : str,
    exists out : str,
      fix_punctuation_tells text = Ok out /\
      substring_in (utf8 "!!") out = false /\
      substring_in (utf8 "??") out = false /\
      substring_in (utf8 "....") out = false.
Proof.
  intros text. rewrite fix_punctuation_tells_spec.
  set (y := if contains em_dash text then _ else text).
  exists (collapse_repeats y). split; [reflexivity|].
  apply collapse_repeats_no_repeats.
Qed.

End RepeatedMarks.

(** ** No rule word is left by the Lexical Substituter *)

(** A pattern that reads [\b], phrases of lower-case letters and single
    spaces, [\b]. *)
Definition phrase_rule (r : re) : Prop :=
  plain r = true /\
  lang r = map frame (phrases r) /\
  forallb wf_phrase (phrases r) = true.

Section NothingLeft.
Context {U : Unicode}.

Lemma findall_keeps : forall s : str,
  flat_map (fun p => match p with Keep _ => [] | Hit m => [g0 m] end)
           (map Keep s) = [].
Proof. induction s as [|c s IH]; [reflexivity|exact IH]. Qed.

Lemma scan_clean : forall (r : re) (s : str) prev,
  phrase_rule r ->
  cleanb (phrases r) prev s = true ->
  scan IGNORECASE r prev s 0 = map Keep s.
Proof.
  intros r s prev (P1 & P2 & P3).
  revert prev. induction s as [|c s IH]; intros prev H.
  - cbn [cleanb] in H. apply andb_true_iff in H as [H _].
    apply negb_true_iff, phrase_match_none in H.
    cbn [scan]. rewrite (@match_at_phrase U r P1 P2), H. reflexivity.
  - cbn [cleanb] in H. apply andb_true_iff in H as [H H'].
    apply negb_true_iff, phrase_match_none in H.
    cbn [scan]. rewrite (@match_at_phrase U r P1 P2), H.
    cbn [option_map map]. now rewrite IH.
Qed.

Lemma findall_clean : forall (r : re) (s : str),
  phrase_rule r ->
  cleanb (phrases r) None s = true ->
  findall IGNORECASE r s = [].
Proof.
  intros r s Hok H. unfold findall.
  rewrite (@scan_clean r s None Hok H). apply findall_keeps.
Qed.

Lemma phrase_rule_of : forall rule : re * str,
  rule_ok rule -> phrase_rule (fst rule).
Proof. intros rule (P1 & P2 & P3 & _). now repeat split. Qed.

(** X4.  No pattern of the replacement table matches anywhere in what
    [replace_ai_word_choices] returns: [re.findall] of every rule's pattern
    on the result is the empty list. *)
Theorem replace_ai_word_choices_leaves_none :
  forall (aggressive : bool) (text : str),
    Forall
      (fun rule : re * str =>
         findall IGNORECASE (fst rule)
           (replace_ai_word_choices (init aggressive) text) = [])
      (word_replacements (init aggressive)).
Proof.
  intros a text. unfold replace_ai_word_choices. cbn [word_replacements init].
  pose proof (@all_clean_run U the_word_replacements [] text
                word_replacements_ok word_replacements_compat eq_refl) as A.
  cbn [app] in A. unfold all_clean in A. rewrite forallb_forall in A.
  apply Forall_forall. intros rule Hin.
  apply findall_clean.
  - pose proof word_replacements_ok as Hok. rewrite Forall_forall in Hok.
    apply phrase_rule_of. auto.
  - auto.
Qed.

End NothingLeft.

(** ** The length of a title *)

(** The least number of characters a match of the pattern takes. *)
Fixpoint min_len (r : re) : nat :=
  match r with
  | Eps => 0
  | One _ => 1
  | Cat r1 r2 => min_len r1 + min_len r2
  | Alt r1 r2 => Nat.min (min_len r1) (min_len r2)
  | Opt _ => 0
  | Rep n _ => n
  | Grp r1 => min_len r1
  | Bnd => 0
  | Bol => 0
  | Eol => 0
  end.

Section Lengths.
Context {U : Unicode}.
Variable fl : flags.

Lemma rep_min : forall A (c : cls) (s : str) n prev gs (k : cont A) a,
  rep fl c n prev s gs k = Some a ->
  exists p' s' gs', k p' s' gs' = Some a /\
                    List.length s' + n <= List.length s.
Proof.
  intros A c. induction s as [|x s IH]; intros n prev gs k a H.
  - cbn [rep] in H. destruct n; [|discriminate].
    exists prev, [], gs. split; [assumption|cbn; lia].
  - cbn [rep] in H.
    assert (Hk : match n with O => k prev (x :: s) gs | S _ => None end = Some a ->
                 exists p' s' gs', k p' s' gs' = Some a /\
                                   List.length s' + n <= List.length (x :: s)).
    { destruct n; [|discriminate]. intro Hk.
      exists prev, (x :: s), gs. split; [assumption|lia]. }
    destruct (mem fl c x); [|now apply Hk].
    destruct (rep fl c (pred n) (Some x) s gs k) as [a'|] eqn:E; [|now apply Hk].
    injection H as ->. apply IH in E as (p' & s' & gs' & Hk' & Hl).
    exists p', s', gs'. split; [assumption|]. cbn [List.length]. lia.
Qed.

Lemma run_min : forall A (r : re) prev (s : str) gs (k : cont A) a,
  run fl r prev s gs k = Some a ->
  exists p' s' gs', k p' s' gs' = Some a /\
                    List.length s' + min_len r <= List.length s.
Proof.
  intros A. induction r as [|c|r1 IH1 r2 IH2|r1 IH1 r2 IH2|r1 IH1|n c|r1 IH1| | |];
    intros prev s gs k a H; cbn [run min_len] in *.
  - exists prev, s, gs. split; [assumption|lia].
  - destruct s as [|x s]; [discriminate|].
    destruct (mem fl c x); [|discriminate].
    exists (Some x), s, gs. split; [assumption|cbn; lia].
  - apply IH1 in H as (p1 & s1 & gs1 & H & L1).
    apply IH2 in H as (p2 & s2 & gs2 & H & L2).
    exists p2, s2, gs2. split; [assumption|lia].
  - destruct (run fl r1 prev s gs k) as [a'|] eqn:E.
    + injection H as ->. apply IH1 in E as (p' & s' & gs' & Hk & L).
      exists p', s', gs'. split; [assumption|lia].
    + apply IH2 in H as (p' & s' & gs' & Hk & L).
      exists p', s', gs'. split; [assumption|lia].
  - destruct (run fl r1 prev s gs k) as [a'|] eqn:E.
    + injection H as ->. apply IH1 in E as (p' & s' & gs' & Hk & L).
      exists p', s', gs'. split; [assumption|lia].
    + exists prev, s, gs. split; [assumption|lia].
  - eapply rep_min. exact H.
  - apply IH1 in H as (p' & s' & gs' & Hk & L).
    exists p', s', (gs' ++ [firstn (List.length s - List.length s') s]).
    split; [assumption|lia].
  - destruct (xorb _ _); [|discriminate].
    exists prev, s, gs. split; [assumption|lia].
  - destruct prev as [c|].
    + destruct (multiline fl && (c =? 10)%N); [|discriminate].
      exists (Some c), s, gs. split; [assumption|lia].
    + exists None, s, gs. split; [assumption|lia].
  - destruct s as [|c s'].
    + exists prev, [], gs. split; [assumption|lia].
    + destruct ((c =? 10)%N && _); [|discriminate].
      exists prev, (c :: s'), gs. split; [assumption|lia].
Qed.

(** A match is at least as long as the pattern asks and no longer than the
    text. *)
Lemma match_at_min : forall (r : re) prev (s : str) b n gs,
  match_at fl r prev s b = Some (n, gs) ->
  min_len r <= n /\ n <= List.length s.
Proof.
  intros r prev s b n gs H. unfold match_at in H.
  apply run_min in H as (p' & s' & gs' & H & L).
  destruct (b && _); [discriminate|]. injection H as <- _. lia.
Qed.

Variable r : re.
Variable repl : str.
Hypothesis repl_short : List.length repl <= min_len r.

Lemma scan_length : forall (s : str) prev skip,
  List.length (flat_map (render repl) (scan fl r prev s skip))
  <= List.length s - skip.
Proof.
  induction s as [|c s IH]; intros prev skip.
  - destruct skip as [|k]; [|cbn; lia]. cbn [scan].
    destruct (match_at fl r prev [] false) as [[[|n] gs]|] eqn:E; [| |cbn; lia].
    + apply match_at_min in E. cbn [flat_map render List.length].
      rewrite app_nil_r. lia.
    + apply match_at_min in E. cbn [List.length] in E. lia.
  - destruct skip as [|k].
    + cbn [scan].
      destruct (match_at fl r prev (c :: s) false) as [[[|n] gs]|] eqn:E.
      * apply match_at_min in E as [E _].
        assert (R0 : repl = []) by (destruct repl; [reflexivity|cbn in *; lia]).
        cbn [flat_map render]. rewrite R0. cbn [app].
        destruct (match_at fl r prev (c :: s) true) as [[[|n] gs']|] eqn:E';
          cbn [flat_map render app List.length]; rewrite <- ?R0.
        -- specialize (IH (Some c) 0). lia.
        -- apply match_at_min in E'. rewrite R0. cbn [app].
           specialize (IH (Some c) n). rewrite R0 in IH. cbn [List.length] in *. lia.
        -- specialize (IH (Some c) 0). lia.
      * apply match_at_min in E. cbn [flat_map render]. rewrite length_app.
        specialize (IH (Some c) n). cbn [List.length] in *. lia.
      * cbn [flat_map render app List.length]. specialize (IH (Some c) 0). lia.
    + cbn [scan]. specialize (IH (Some c) k). cbn [List.length]. lia.
Qed.

(** A substitution whose replacement is no longer than the shortest match
    never makes the text longer. *)
Lemma sub_length : forall s : str,
  List.length (sub fl r repl s) <= List.length s.
Proof.
  intros s. pose proof (scan_length s None 0) as H.
  unfold sub. change (fun p => match p with Keep c => [c] | Hit _ => repl end)
    with (render repl). lia.
Qed.

End Lengths.

Section TitleLength.
Context {U : Unicode}.

Lemma fold_length : forall X (f : str -> X -> str) (l : list X),
  Forall (fun x => forall t, List.length (f t x) <= List.length t) l ->
  forall t, List.length (fold_left f l t) <= List.length t.
Proof.
  intros X f. induction l as [|x l IH]; intros H t; [cbn; lia|].
  apply Forall_cons_iff in H as [Hx Hl]. cbn [fold_left].
  specialize (IH Hl (f t x)). specialize (Hx t). lia.
Qed.

Lemma delete_length : forall fl (r : re) (s : str),
  List.length (sub fl r [] s) <= List.length s.
Proof. intros. apply sub_length. cbn. lia. Qed.

Lemma title_buzzwords_length : forall t : str,
  List.length
    (fold_left (fun t word => sub NOFLAG (Cat word (Rep 0 Space)) [] t)
               buzzwords t)
  <= List.length t.
Proof.
  apply fold_length. apply Forall_forall. intros x _ t. apply delete_length.
Qed.

Lemma title_adjectives_length : forall t : str,
  List.length
    (fold_left
       (fun t adj =>
          sub IGNORECASE (Cat adj (seq [Rep 1 Space; lit "guide"; Bnd]))
              (utf8 "guide") t)
       generic_adjectives t)
  <= List.length t.
Proof.
  apply fold_length.
  repeat (constructor; [intros t; apply sub_length; vm_compute; lia|]).
  constructor.
Qed.

(** X5.  [fix_youtube_title_tells] never makes a title longer. *)
Theorem fix_youtube_title_tells_no_longer :
  forall text : str,
    List.length (fix_youtube_title_tells text) <= List.length text.
Proof.
  intros text. unfold fix_youtube_title_tells.
  pose proof (delete_length NOFLAG (Rep 2 (chars "!?")) text) as H1.
  set (t1 := sub NOFLAG (Rep 2 (chars "!?")) [] text) in *.
  pose proof (title_buzzwords_length t1) as H2.
  set (t2 := if (30 <? List.length t1)%nat then _ else t1).
  assert (L2 : List.length t2 <= List.length t1).
  { subst t2. destruct (30 <? List.length t1)%nat; [exact H2|lia]. }
  pose proof (title_adjectives_length t2) as H3.
  destruct (40 <? List.length t2)%nat; lia.
Qed.

(** X6.  In a title of at most 30 characters [fix_youtube_title_tells]
    deletes the runs of two or more "!" and "?" and changes nothing else:
    the capitalised buzzwords and the "ultimate guide" phrases stay. *)
Theorem fix_youtube_title_tells_short :
  forall text : str,
    List.length text <= 30 ->
    fix_youtube_title_tells text = sub NOFLAG (Rep 2 (chars "!?")) [] text.
Proof.
  intros text H. unfold fix_youtube_title_tells.
  pose proof (delete_length NOFLAG (Rep 2 (chars "!?")) text) as H1.
  set (t1 := sub NOFLAG (Rep 2 (chars "!?")) [] text) in *.
  assert (E1 : (30 <? List.length t1)%nat = false) by (apply Nat.ltb_ge; lia).
  assert (E2 : (40 <? List.length t1)%nat = false) by (apply Nat.ltb_ge; lia).
  now rewrite E1, E2.
Qed.

End TitleLength.

(** The witness of X6: a short title keeps its buzzword. *)
Lemma fix_youtube_title_tells_short_witness :
  fix_youtube_title_tells (U := Sample.tables) (utf8 "EPIC ultimate guide!?!")
  = sub (U := Sample.tables) NOFLAG (Rep 2 (chars "!?")) []
        (utf8 "EPIC ultimate guide!?!").
Proof.
  apply (@fix_youtube_title_tells_short Sample.tables
           (utf8 "EPIC ultimate guide!?!")).
  vm_compute. lia.
Defined.

(** ** The intro rules of the description stage *)

(** A pattern that starts with [^]. *)
Definition anchored (r : re) : bool :=
  match r with
  | Cat Bol _ => true
  | _ => false
  end.

Section Anchored.
Context {U : Unicode}.
Variable fl : flags.
Hypothesis one_line : multiline fl = false.
Variable r : re.
Hypothesis r_anchored : anchored r = true.

(** Without MULTILINE, [^] matches at the start of the text only. *)
Lemma match_at_anchored : forall (c : char) (s : str) b,
  match_at fl r (Some c) s b = None.
Proof.
  intros c s b. destruct r as [| |r1 r2| | | | | | |]; try discriminate.
  destruct r1; try discriminate.
  unfold match_at. cbn [run]. now rewrite one_line.
Qed.

Lemma scan_anchored : forall (s : str) (c : char) k,
  scan fl r (Some c) s k = map Keep (skipn k s).
Proof.
  induction s as [|x s IH]; intros c k.
  - destruct k; cbn [scan]; [|reflexivity].
    now rewrite match_at_anchored.
  - destruct k as [|k]; cbn [scan skipn].
    + rewrite match_at_anchored. cbn [map]. f_equal. apply (IH x 0).
    + apply IH.
Qed.

Lemma delete_keeps : forall s : str, flat_map (render []) (map Keep s) = s.
Proof. induction s as [|c s IH]; [reflexivity|]. cbn. now f_equal. Qed.

(** Deleting the matches of an anchored pattern deletes a prefix of the
    text. *)
Lemma sub_anchored : forall s : str,
  exists n, sub fl r [] s = skipn n s.
Proof.
  intros s. unfold sub.
  change (fun p => match p with Keep c => [c] | Hit _ => [] end) with (render []).
  destruct s as [|c s].
  - exists 0. cbn [scan]. now destruct (match_at fl r None [] false) as [[[|n] gs]|].
  - cbn [scan].
    destruct (match_at fl r None (c :: s) false) as [[[|n] gs]|].
    + destruct (match_at fl r None (c :: s) true) as [[[|n] gs']|].
      * exists 0. cbn [flat_map render app skipn]. f_equal.
        rewrite (scan_anchored s c 0). apply delete_keeps.
      * exists (S n). cbn [flat_map render app skipn].
        rewrite scan_anchored. apply delete_keeps.
      * exists 0. cbn [flat_map render app skipn]. f_equal.
        rewrite (scan_anchored s c 0). apply delete_keeps.
    + exists (S n). cbn [flat_map render app skipn].
      rewrite scan_anchored. apply delete_keeps.
    + exists 0. cbn [flat_map render app skipn]. f_equal.
      rewrite (scan_anchored s c 0). apply delete_keeps.
Qed.

Hypothesis r_consumes : 1 <= min_len r.

(** A pattern that consumes text is deleted where it matches at the first
    character, and nowhere else. *)
Lemma sub_anchored_exact : forall s : str,
  sub fl r [] s =
  match match_at fl r None s false with
  | Some (n, _) => skipn n s
  | None => s
  end.
Proof.
  intros s. unfold sub.
  change (fun p => match p with Keep c => [c] | Hit _ => [] end) with (render []).
  destruct s as [|c s]; cbn [scan].
  - destruct (match_at fl r None [] false) as [[[|n] gs]|] eqn:E.
    + apply match_at_min in E. lia.
    + apply match_at_min in E. cbn [List.length] in E. lia.
    + reflexivity.
  - destruct (match_at fl r None (c :: s) false) as [[[|n] gs]|] eqn:E.
    + apply match_at_min in E. lia.
    + cbn [flat_map render app skipn]. rewrite scan_anchored. apply delete_keeps.
    + cbn [flat_map render app]. f_equal.
      rewrite (scan_anchored s c 0). apply delete_keeps.
Qed.

End Anchored.

(** What one intro rule does to the text: the match that starts at the
    first character, if there is one, is cut off. *)
Definition cut_start {U : Unicode} (p : re) (text : str) : str :=
  match match_at IGNORECASE p None text false with
  | Some (n, _) => skipn n text
  | None => text
  end.

Section IntroRules.
Context {U : Unicode}.

Lemma remove_all_cut : forall patterns : list re,
  forallb anchored patterns = true ->
  forallb (fun p => 1 <=? min_len p)%nat patterns = true ->
  forall text : str,
    remove_all IGNORECASE patterns text
    = fold_left (fun t p => cut_start p t) patterns text.
Proof.
  induction patterns as [|p ps IH]; intros Ha Hm text; [reflexivity|].
  cbn [forallb] in Ha, Hm.
  apply andb_true_iff in Ha as [Hp Hps]. apply andb_true_iff in Hm as [Hq Hqs].
  apply Nat.leb_le in Hq.
  unfold remove_all in *. cbn [fold_left].
  rewrite (@sub_anchored_exact U IGNORECASE eq_refl p Hp Hq text).
  apply (IH Hps Hqs).
Qed.

Lemma remove_all_anchored : forall fl (patterns : list re),
  multiline fl = false ->
  forallb anchored patterns = true ->
  forall text : str, exists n, remove_all fl patterns text = skipn n text.
Proof.
  intros fl patterns Hfl. induction patterns as [|p ps IH]; intros Ha text.
  - exists 0. reflexivity.
  - cbn [forallb] in Ha. apply andb_true_iff in Ha as [Hp Hps].
    unfold remove_all. cbn [fold_left].
    destruct (@sub_anchored U fl Hfl p Hp text) as [n ->].
    destruct (IH Hps (skipn n text)) as [m E]. unfold remove_all in E.
    rewrite E. exists (n + m). now rewrite skipn_skipn, Nat.add_comm.
Qed.

(** X7.  Each intro rule of [fix_youtube_description_tells] deletes its
    match at the very first character of the text it is given, if there is
    one, and nothing else: the first loop cuts the text at its start, rule
    by rule in the order of the table, and returns the text without some of
    its first characters.  A rule can delete a phrase that an earlier rule
    has brought to the start (the second line of the first example); a
    phrase that is not at the start when its rule runs stays (the other
    two). *)
Theorem intro_phrases_cut_a_prefix :
  (forall (aggressive : bool) (text : str),
     remove_all IGNORECASE (youtube_intro_phrases (init aggressive)) text
     = fold_left (fun t p => cut_start p t)
                 (youtube_intro_phrases (init aggressive)) text) /\
  (forall (aggressive : bool) (text : str),
     exists n : nat,
       remove_all IGNORECASE (youtube_intro_phrases (init aggressive)) text
       = skipn n text) /\
  remove_all IGNORECASE (youtube_intro_phrases (init false))
    (utf8 "Welcome to my channel!" ++ [10%N] ++ utf8 "Hey guys, let's go")
  = utf8 "let's go" /\
  fix_youtube_description_tells (init false)
    (utf8 "Welcome to my channel!" ++ [10%N] ++ utf8 "Hey guys, let's go")
  = Ok (utf8 "Let's go") /\
  remove_all IGNORECASE (youtube_intro_phrases (init false))
    (utf8 "Hey guys, welcome to my channel! Hi")
  = utf8 "welcome to my channel! Hi" /\
  remove_all IGNORECASE (youtube_intro_phrases (init false))
    (utf8 "So: in this video, we will cook")
  = utf8 "So: in this video, we will cook".
Proof.
  split; [|split; [|repeat split; vm_compute; reflexivity]].
  - intros a text. cbn [youtube_intro_phrases init].
    apply remove_all_cut; reflexivity.
  - intros a text. cbn [youtube_intro_phrases init].
    apply remove_all_anchored; reflexivity.
Qed.

End IntroRules.

(** ** The detector on a humanized text *)

Section DetectAfterHumanize.
Context {U : Unicode}.

Lemma detect_ai_tells_parts : forall text : str,
  detect_ai_tells text =
  word_records text ++ em_dash_record text ++ hedging_records text.
Proof.
  intros text. unfold detect_ai_tells, word_records, em_dash_record, hedging_records.
  cbv zeta. rewrite detect_hedging_spec, detect_words_spec. cbn [app].
  destruct (contains em_dash text); cbn [app].
  - now rewrite <- app_assoc.
  - reflexivity.
Qed.

(** Only the em-dash test writes a record labelled "em_dash". *)
Lemma em_dash_label : forall (text : str) (ev : evidence),
  In (utf8 "em_dash", ev) (detect_ai_tells text) -> In em_dash text.
Proof.
  intros text ev H. rewrite detect_ai_tells_parts in H.
  apply in_app_or in H as [H|H]; [|apply in_app_or in H as [H|H]].
  - exfalso. unfold word_records in H.
    apply in_flat_map in H as (word & Hw & H).
    apply in_map_iff in H as (m & E & _).
    injection E as E _. revert E.
    cbn in Hw. repeat (destruct Hw as [<-|Hw]; [vm_compute; discriminate|]).
    contradiction.
  - unfold em_dash_record in H.
    destruct (contains em_dash text) eqn:C; [|contradiction].
    now apply contains_in.
  - exfalso. unfold hedging_records in H.
    apply in_map_iff in H as (phrase & E & _).
    injection E as E _. revert E. vm_compute. discriminate.
Qed.

(** X8.  [detect_ai_tells] run on what [humanize] returns never lists an
    "em_dash" record. *)
Theorem detect_after_humanize_no_em_dash :
  forall (aggressive : bool) (text content_type : str),
    exists out : str,
      humanize_text text content_type aggressive = Ok out /\
      forall ev : evidence, ~ In (utf8 "em_dash", ev) (detect_ai_tells out).
Proof.
  intros a text ct.
  destruct (humanize_text_dash_free a text ct) as (out & E & D).
  exists out. split; [assumption|].
  intros ev H. apply D. eapply em_dash_label. exact H.
Qed.

End DetectAfterHumanize.

(** ** The texts a stage leaves as they are *)

Section FixedPoints.
Context {U : Unicode}.

Lemma unrle_split : forall (l : list (char * nat)) e,
  In e l ->
  exists pre post, unrle l = pre ++ repeat (fst e) (snd e) ++ post.
Proof.
  intros l e H. apply in_split in H as (l1 & l2 & ->).
  exists (unrle l1), (unrle l2). unfold unrle.
  now rewrite flat_map_app.
Qed.

(** A text with no run of [m + 1] characters [c] has runs of [c] of at most
    [m]. *)
Lemma short_runs : forall (c : char) m (s : str),
  substring_in (repeat c (S m)) s = false ->
  forall e, In e (rle s) -> fst e = c -> snd e <= m.
Proof.
  intros c m s H [x k] He Hx. cbn [fst snd] in *. subst x.
  destruct (Nat.le_gt_cases k m) as [L|L]; [assumption|exfalso].
  apply unrle_split in He as (pre & post & E). rewrite unrle_rle in E.
  cbn [fst snd] in E.
  replace k with (S m + (k - S m)) in E by lia.
  rewrite repeat_app, <- app_assoc in E.
  rewrite E, substring_in_app in H. discriminate.
Qed.

Lemma collapse_run_short : forall e : char * nat,
  (fst e = 33%N -> snd e <= 1) ->
  (fst e = 63%N -> snd e <= 1) ->
  (fst e = 46%N -> snd e <= 3) ->
  collapse_run e = e.
Proof.
  intros [x k] B1 B2 B3. cbn [fst snd] in *. unfold collapse_run.
  destruct (N.eqb_spec x 33) as [->|H1];
    [|destruct (N.eqb_spec x 63) as [->|H2];
      [|destruct (N.eqb_spec x 46) as [->|H3]]].
  - specialize (B1 eq_refl). destruct k as [|[|k]]; [reflexivity..|lia].
  - specialize (B2 eq_refl). destruct k as [|[|k]]; [reflexivity..|lia].
  - specialize (B3 eq_refl). destruct k as [|[|[|[|k]]]]; [reflexivity..|lia].
  - apply N.eqb_neq in H1, H2, H3.
    now rewrite !squash_other by (rewrite ?squash_char; cbn [fst]; assumption).
Qed.

Lemma collapse_repeats_fixed : forall text : str,
  substring_in (utf8 "!!") text = false ->
  substring_in (utf8 "??") text = false ->
  substring_in (utf8 "....") text = false ->
  collapse_repeats text = text.
Proof.
  intros text H1 H2 H3. rewrite collapse_repeats_rle.
  rewrite <- (unrle_rle text) at 2. f_equal.
  rewrite <- (map_id (rle text)) at 2. apply map_ext_in.
  intros e He. apply collapse_run_short.
  - now apply (@short_runs 33%N 1 text H1).
  - now apply (@short_runs 63%N 1 text H2).
  - now apply (@short_runs 46%N 3 text H3).
Qed.

(** X9.  [fix_punctuation_tells] returns the text as it is exactly when the
    text holds no em dash, no "!!", no "??" and no "....". *)
Theorem fix_punctuation_tells_fixed_points :
  forall text : str,
    fix_punctuation_tells text = Ok text <->
    contains em_dash text = false /\
    substring_in (utf8 "!!") text = false /\
    substring_in (utf8 "??") text = false /\
    substring_in (utf8 "....") text = false.
Proof.
  intros text. split.
  - intros E. split.
    + apply not_true_is_false. intros Hc. apply contains_in in Hc.
      exact (fix_punctuation_tells_dash_free _ E Hc).
    + rewrite fix_punctuation_tells_spec in E. injection E as E.
      rewrite <- E at 1 2 3. apply collapse_repeats_no_repeats.
  - intros (H0 & H1 & H2 & H3). rewrite fix_punctuation_tells_spec, H0.
    f_equal. now apply collapse_repeats_fixed.
Qed.

(** A text in which [re.findall] finds no match of a rule holds no match
    of it. *)
Lemma clean_of_findall : forall (r : re) (s : str) prev,
  phrase_rule r ->
  flat_map (fun p => match p with Keep _ => [] | Hit m => [g0 m] end)
           (scan IGNORECASE r prev s 0) = [] ->
  cleanb (phrases r) prev s = true.
Proof.
  intros r s prev (P1 & P2 & P3).
  revert prev. induction s as [|c s IH]; intros prev H.
  - cbn [scan] in H. cbn [cleanb]. rewrite andb_true_r.
    apply negb_true_iff, phrase_match_none.
    destruct (match_at IGNORECASE r prev [] false) as [[n gs]|] eqn:E.
    + destruct n; discriminate H.
    + rewrite (@match_at_phrase U r P1 P2) in E.
      now destruct (phrase_match (phrases r) prev []).
  - cbn [scan] in H. cbn [cleanb].
    destruct (match_at IGNORECASE r prev (c :: s) false) as [[n gs]|] eqn:E.
    + destruct n; discriminate H.
    + rewrite (@match_at_phrase U r P1 P2) in E.
      destruct (phrase_match (phrases r) prev (c :: s)) eqn:E'; [discriminate|].
      apply phrase_match_none in E'. rewrite E'. cbn [negb andb].
      apply IH. exact H.
Qed.

(** X10.  [replace_ai_word_choices] returns the text as it is exactly when
    no pattern of the replacement table matches in it. *)
Theorem replace_ai_word_choices_fixed_points :
  forall (aggressive : bool) (text : str),
    replace_ai_word_choices (init aggressive) text = text <->
    Forall
      (fun rule : re * str => findall IGNORECASE (fst rule) text = [])
      (word_replacements (init aggressive)).
Proof.
  intros a text. unfold replace_ai_word_choices. cbn [word_replacements init].
  pose proof word_replacements_ok as Hok. split.
  - intros E.
    pose proof (@all_clean_run U the_word_replacements [] text
                  word_replacements_ok word_replacements_compat eq_refl) as A.
    cbn [app] in A. rewrite E in A. unfold all_clean in A.
    rewrite forallb_forall in A. rewrite Forall_forall in Hok.
    apply Forall_forall. intros rule Hin.
    apply findall_clean; [apply phrase_rule_of|]; auto.
  - intros H. apply sub_all_clean; [assumption|].
    unfold all_clean. apply forallb_forall. intros rule Hin.
    rewrite Forall_forall in H, Hok.
    apply clean_of_findall; [apply phrase_rule_of; auto|]. apply (H rule Hin).
Qed.

End FixedPoints.

(** ** Patterns written with capitals

    Under IGNORECASE a pattern letter is compared folded, so the pattern
    with its letters in lower case matches the same texts. *)

Definition fold_cls (k : cls) : cls :=
  match k with
  | Lit p => Lit (ascii_lower p)
  | _ => k
  end.

Fixpoint fold_re (r : re) : re :=
  match r with
  | One c => One (fold_cls c)
  | Cat r1 r2 => Cat (fold_re r1) (fold_re r2)
  | Alt r1 r2 => Alt (fold_re r1) (fold_re r2)
  | Opt r1 => Opt (fold_re r1)
  | Rep n c => Rep n (fold_cls c)
  | Grp r1 => Grp (fold_re r1)
  | _ => r
  end.

Definition folded (table : list (re * str)) : list (re * str) :=
  map (fun rule => (fold_re (fst rule), snd rule)) table.

Section Folding.
Context {U : Unicode}.

Lemma ci_match_fold : forall p c : char, ci_match (ascii_lower p) c = ci_match p c.
Proof.
  intros p c. destruct (ascii_isupper p) eqn:E.
  - assert (Hp : (65 <= p <= 90)%N).
    { unfold ascii_isupper in E. apply andb_true_iff in E as [A B].
      apply N.leb_le in A, B. lia. }
    assert (L : ascii_lower p = (p + 32)%N) by (unfold ascii_lower; now rewrite E).
    assert (L2 : ascii_lower (p + 32)%N = (p + 32)%N).
    { unfold ascii_lower, ascii_isupper.
      replace (p + 32 <=? 90)%N with false by (symmetry; apply N.leb_gt; lia).
      now rewrite andb_false_r. }
    assert (A1 : ascii_isalpha p = true) by (unfold ascii_isalpha; now rewrite E).
    assert (A2 : ascii_isalpha (p + 32)%N = true).
    { unfold ascii_isalpha, ascii_islower.
      replace (97 <=? p + 32)%N with true by (symmetry; apply N.leb_le; lia).
      replace (p + 32 <=? 122)%N with true by (symmetry; apply N.leb_le; lia).
      apply orb_true_r. }
    unfold ci_match. now rewrite L, A1, A2, L2.
  - unfold ascii_lower at 1. now rewrite E.
Qed.

Lemma mem_fold : forall (k : cls) (c : char),
  mem IGNORECASE (fold_cls k) c = mem IGNORECASE k c.
Proof. intros [p|rs|] c; cbn; [apply ci_match_fold|reflexivity..]. Qed.

Lemma rep_fold : forall A (c : cls) (s : str) n prev gs (k1 k2 : cont A),
  (forall p s' g, k1 p s' g = k2 p s' g) ->
  rep IGNORECASE (fold_cls c) n prev s gs k1 = rep IGNORECASE c n prev s gs k2.
Proof.
  intros A c. induction s as [|x s IH]; intros n prev gs k1 k2 H; cbn [rep].
  - now rewrite H.
  - rewrite mem_fold, (IH (pred n) (Some x) gs k1 k2 H), H. reflexivity.
Qed.

Lemma run_fold : forall A (r : re) prev (s : str) gs (k1 k2 : cont A),
  (forall p s' g, k1 p s' g = k2 p s' g) ->
  run IGNORECASE (fold_re r) prev s gs k1 = run IGNORECASE r prev s gs k2.
Proof.
  intros A. induction r as [|c|r1 IH1 r2 IH2|r1 IH1 r2 IH2|r1 IH1|n c|r1 IH1| | |];
    intros prev s gs k1 k2 H; cbn [run fold_re].
  - apply H.
  - destruct s as [|x s]; [reflexivity|]. rewrite mem_fold.
    destruct (mem IGNORECASE c x); [apply H|reflexivity].
  - apply IH1. intros p s' g. now apply IH2.
  - now rewrite (IH1 prev s gs k1 k2 H), (IH2 prev s gs k1 k2 H).
  - now rewrite (IH1 prev s gs k1 k2 H), H.
  - now apply rep_fold.
  - apply IH1. intros p s' g. apply H.
  - now rewrite H.
  - now rewrite H.
  - now rewrite H.
Qed.

Lemma match_at_fold : forall (r : re) prev (s : str) b,
  match_at IGNORECASE (fold_re r) prev s b = match_at IGNORECASE r prev s b.
Proof. intros. unfold match_at. now apply run_fold. Qed.

Lemma scan_fold : forall (r : re) (s : str) prev skip,
  scan IGNORECASE (fold_re r) prev s skip = scan IGNORECASE r prev s skip.
Proof.
  intros r. induction s as [|c s IH]; intros prev skip.
  - destruct skip; cbn [scan]; now rewrite ?match_at_fold.
  - destruct skip as [|k]; cbn [scan]; [|apply IH].
    rewrite !match_at_fold.
    destruct (match_at IGNORECASE r prev (c :: s) false) as [[[|n] gs]|].
    + destruct (match_at IGNORECASE r prev (c :: s) true) as [[[|n] gs']|];
        now rewrite IH.
    + now rewrite IH.
    + now rewrite IH.
Qed.

Lemma sub_fold : forall (r : re) (repl s : str),
  sub IGNORECASE (fold_re r) repl s = sub IGNORECASE r repl s.
Proof. intros. unfold sub. now rewrite scan_fold. Qed.

Lemma findall_fold : forall (r : re) (s : str),
  findall IGNORECASE (fold_re r) s = findall IGNORECASE r s.
Proof. intros. unfold findall. now rewrite scan_fold. Qed.

Lemma sub_all_folded : forall (table : list (re * str)) (s : str),
  sub_all IGNORECASE (folded table) s = sub_all IGNORECASE table s.
Proof.
  unfold sub_all. induction table as [|[r repl] table IH]; intros s; [reflexivity|].
  cbn [folded map fold_left fst snd]. rewrite sub_fold. apply IH.
Qed.

End Folding.

(** ** Replacements with an apostrophe

    The replacement of a contraction is no phrase of letters and spaces;
    whether a phrase can be read where the replacement stands is decided
    by reading the phrase along the replacement. *)

Section Alignment.
Context {U : Unicode}.

(** [w] read along [b], which is followed by a character that is no word
    character or by the end of the text; [pw] tells whether the character
    before is a word character.  [true] when reading [w] up to a word
    boundary is not excluded. *)
Fixpoint align (w b : str) (pw : bool) : bool :=
  match w with
  | [] => xorb pw (match b with
                   | [] => false
                   | c :: _ => isword c
                   end)
  | x :: w' =>
      match b with
      | [] => negb (ascii_islower x)
      | c :: b' => ci_match x c && align w' b' (isword c)
      end
  end.

(** The suffixes of a text that follow one of its non-word characters. *)
Fixpoint rstarts (s : str) : list str :=
  match s with
  | [] => []
  | d :: s' => (if isword d then [] else [s']) ++ rstarts s'
  end.

Definition ends_word (s : str) : bool :=
  match rev s with
  | c :: _ => isword c
  | [] => false
  end.

(** The replacement [repl] takes no part in a match of a phrase of [Lq]:
    no phrase can be read from its start or from inside it, and no phrase
    that started before it can go on into it. *)
Definition fits (Lq : list str) (repl : str) : bool :=
  ends_word repl &&
  forallb
    (fun w =>
       forallb (fun b => negb (align w b false)) (repl :: rstarts repl) &&
       forallb (fun w2 => negb (align w2 repl false)) (starts_after_space w))
    Lq.

Definition table_fits (table : list (re * str)) : bool :=
  forallb (fun q => forallb (fun p => fits (phrases (fst q)) (snd p)) table)
          table.

Lemma align_sound : forall (w b z : str) prev p' s',
  isword_at (hd_error z) = false ->
  eatw w prev (b ++ z) = Some (p', s') ->
  bnd p' s' = true ->
  align w b (isword_at prev) = true.
Proof.
  induction w as [|x w IH]; intros b z prev p' s' Hz E B.
  - cbn [eatw] in E. injection E as <- <-. cbn [align]. unfold bnd in B.
    destruct b as [|c b]; cbn [app hd_error isword_at] in B.
    + now rewrite Hz in B.
    + exact B.
  - cbn [align]. destruct b as [|c b].
    + cbn [app] in E. destruct z as [|d z]; [discriminate|]. cbn [eatw] in E.
      destruct (ci_match x d) eqn:M; [|discriminate].
      destruct (ascii_islower x) eqn:L; [|reflexivity].
      apply (ci_match_letter_word _ _ L) in M. cbn in Hz. congruence.
    + cbn [app eatw] in E. destruct (ci_match x c) eqn:M; [|discriminate].
      cbn [andb]. exact (IH b z (Some c) p' s' Hz E B).
Qed.

Lemma in_rstarts : forall (a : str) (d : char) (b : str),
  isword d = false -> In b (rstarts (a ++ d :: b)).
Proof.
  induction a as [|x a IH]; intros d b H; cbn [app rstarts].
  - rewrite H. now left.
  - apply in_or_app. right. now apply IH.
Qed.

Lemma ends_word_last : forall (repl : str) prev,
  ends_word repl = true -> isword_at (lastp prev repl) = true.
Proof.
  intros repl prev H. unfold ends_word in H. unfold lastp.
  destruct (rev repl); [discriminate|exact H].
Qed.

(** A phrase that cannot go on into the replacement ends before it. *)
Lemma no_match_into : forall (w u repl z : str) prev,
  wf_phrase w = true ->
  isword_at (lastp prev u) = false ->
  isword_at (hd_error z) = false ->
  align w repl false = false ->
  (forall w2, In w2 (starts_after_space w) -> align w2 repl false = false) ->
  cand w prev (u ++ repl ++ z) = true ->
  List.length w < List.length u.
Proof.
  intros w u repl z prev Hw Hu Hz H0 Hj C.
  destruct (Nat.lt_ge_cases (List.length w) (List.length u)) as [|L]; [assumption|].
  exfalso. unfold cand in C.
  destruct (eatw w prev (u ++ repl ++ z)) as [[p' s']|] eqn:E; [|discriminate].
  apply eatw_split in E as (w1 & w2 & Hsplit & L1 & C1 & E); [|assumption].
  pose proof (wf_phrase_pchar _ Hw) as Hp.
  destruct u as [|c0 u0] using rev_ind.
  - destruct w1; [|discriminate]. cbn in Hsplit. subst w2.
    pose proof (align_sound w repl z _ Hz E C) as A.
    cbn in Hu. change (lastp prev []) with prev in A.
    rewrite Hu in A. congruence.
  - clear IHu0. rewrite lastp_snoc in Hu. cbn in Hu.
    destruct w1 as [|x0 w0] using rev_ind.
    { rewrite length_app in L1. cbn in L1. lia. }
    clear IHw0. rewrite !length_app in L1. cbn in L1.
    rewrite ci_eq_app in C1 by lia. apply andb_true_iff in C1 as [_ C1].
    cbn in C1. rewrite andb_true_r in C1.
    subst w. rewrite !forallb_app in Hp. apply andb_true_iff in Hp as [Hp1 Hp2].
    apply andb_true_iff in Hp1 as [_ Hx]. cbn in Hx. rewrite andb_true_r in Hx.
    destruct (pchar_cases _ Hx) as [Hl| ->].
    { apply (ci_match_letter_word _ _ Hl) in C1. congruence. }
    rewrite lastp_snoc in E.
    pose proof (align_sound w2 repl z _ Hz E C) as A.
    cbn [isword_at] in A. rewrite Hu in A.
    rewrite Hj in A; [discriminate|].
    rewrite <- app_assoc. apply in_starts_after_space.
Qed.

Lemma hits_into : forall (L : list str) (u repl z : str) prev (y' : str),
  forallb wf_phrase L = true ->
  isword_at (lastp prev u) = false ->
  isword_at (hd_error z) = false ->
  (forall w, In w L -> align w repl false = false) ->
  (forall w w2, In w L -> In w2 (starts_after_space w) ->
                align w2 repl false = false) ->
  hits L prev (u ++ repl ++ z) = true ->
  u <> [] /\ hits L prev (u ++ y') = true.
Proof.
  intros L u repl z prev y' HL Hu Hz H0 Hj H.
  apply hits_true in H as (B & w & Hw & C).
  assert (Hwf : wf_phrase w = true) by (rewrite forallb_forall in HL; auto).
  pose proof (@no_match_into w u repl z prev Hwf Hu Hz (H0 w Hw)
                (fun w2 => Hj w w2 Hw) C) as Len.
  destruct u as [|c u]; [cbn in Len; lia|].
  split; [discriminate|].
  apply hits_intro with w; auto.
  eapply cand_local; eauto.
Qed.

(** No phrase of [L] matches at a position inside the replacement. *)
Lemma free_into : forall (L : list str) (repl : str),
  forallb wf_phrase L = true ->
  (forall w b, In w L -> In b (repl :: rstarts repl) -> align w b false = false) ->
  forall (b a : str) prev0 (z : str),
    repl = a ++ b -> isword_at (hd_error z) = false ->
    free L (lastp prev0 a) b z = true.
Proof.
  intros L repl HL Hin. induction b as [|c b IH]; intros a prev0 z Hr Hz;
    [reflexivity|].
  cbn [free]. apply andb_true_iff. split.
  2:{ rewrite <- (lastp_snoc prev0 a c). apply IH; [|assumption].
      now rewrite <- app_assoc. }
  apply negb_true_iff.
  destruct (hits L (lastp prev0 a) ((c :: b) ++ z)) eqn:H; [exfalso|reflexivity].
  apply hits_true in H as (B & w & Hw & C).
  assert (Hwf : wf_phrase w = true) by (rewrite forallb_forall in HL; auto).
  pose proof (cand_head_word w _ _ Hwf C) as Hc. cbn in Hc.
  assert (Hprev : isword_at (lastp prev0 a) = false).
  { unfold bnd in B. cbn in B. rewrite Hc in B.
    now destruct (isword_at (lastp prev0 a)). }
  unfold cand in C.
  destruct (eatw w (lastp prev0 a) ((c :: b) ++ z)) as [[p' s']|] eqn:E;
    [|discriminate].
  pose proof (align_sound w (c :: b) z _ Hz E C) as A.
  rewrite Hprev in A. rewrite (Hin w (c :: b) Hw) in A; [discriminate|].
  destruct a as [|d a0] using rev_ind; [left; now rewrite Hr|].
  clear IHa0. right. rewrite lastp_snoc in Hprev. cbn in Hprev.
  rewrite Hr, <- app_assoc. now apply in_rstarts.
Qed.

End Alignment.

(** ** One contraction rule *)

Section ContractionRule.
Context {U : Unicode}.
Variable r : re.
Variable repl : str.
Hypothesis r_rule : phrase_rule r.
Variable Lq : list str.
Hypothesis Lq_wf : forallb wf_phrase Lq = true.
Hypothesis repl_fits : fits Lq repl = true.

Lemma fits_last : forall prev, isword_at (lastp prev repl) = true.
Proof.
  intros prev. apply ends_word_last.
  unfold fits in repl_fits. now apply andb_true_iff in repl_fits as [H _].
Qed.

Lemma fits_inside : forall w b,
  In w Lq -> In b (repl :: rstarts repl) -> align w b false = false.
Proof.
  intros w b Hw Hb. unfold fits in repl_fits.
  apply andb_true_iff in repl_fits as [_ H]. rewrite forallb_forall in H.
  apply H in Hw. apply andb_true_iff in Hw as [Hw _].
  rewrite forallb_forall in Hw. now apply negb_true_iff, Hw.
Qed.

Lemma fits_junction : forall w w2,
  In w Lq -> In w2 (starts_after_space w) -> align w2 repl false = false.
Proof.
  intros w w2 Hw H2. unfold fits in repl_fits.
  apply andb_true_iff in repl_fits as [_ H]. rewrite forallb_forall in H.
  apply H in Hw. apply andb_true_iff in Hw as [_ Hw].
  rewrite forallb_forall in Hw. now apply negb_true_iff, Hw.
Qed.

(** The rule creates no match of [Lq]. *)
Lemma clean_after_fits : forall n (s : str) prev,
  List.length s <= n ->
  quietb (phrases r) Lq prev s = true ->
  cleanb Lq prev (psub r repl prev s) = true.
Proof.
  destruct r_rule as (r_plain & r_lang & r_wf).
  induction n as [|n IH]; intros s prev Len Q.
  - destruct s; [|cbn in Len; lia]. rewrite (@ps_nil U r repl r_plain r_lang r_wf).
    cbn. now rewrite hits_nonword_head.
  - destruct s as [|c s].
    { rewrite (@ps_nil U r repl r_plain r_lang r_wf). cbn.
      now rewrite hits_nonword_head. }
    rewrite (@ps_cons U r repl r_plain r_lang r_wf).
    destruct (phrase_match (phrases r) prev (c :: s)) as [m|] eqn:E.
    + pose proof (@match_shape U r r_wf _ _ _ E)
        as (M0 & M1 & Mp & Ml & Mn).
      rewrite cleanb_app. apply andb_true_iff. split.
      * apply (@free_into U Lq repl Lq_wf fits_inside repl [] prev _ eq_refl).
        now apply (@ps_head_nonword U r repl r_plain r_lang r_wf).
      * rewrite (cleanb_prev Lq _ (lastp prev (firstn m (c :: s))));
          [|now rewrite fits_last, Ml].
        apply IH; [|now apply quietb_skipn].
        rewrite length_skipn. cbn [List.length] in Len |- *. lia.
    + cbn [cleanb]. apply andb_true_iff. split.
      2:{ apply IH; [cbn in Len; lia|].
          cbn [quietb] in Q. now apply andb_true_iff in Q as [_ Q]. }
      apply negb_true_iff.
      pose proof (quietb_head _ _ _ _ Q (proj1 (phrase_match_none _ _ _) E)) as Hq.
      destruct (@ps_shape U r repl r_plain r_lang r_wf s (Some c))
        as [->|(u & v & z & -> & -> & Hu & Hz)]; [assumption|].
      destruct (hits Lq prev (c :: u ++ repl ++ z)) eqn:H; [exfalso|reflexivity].
      apply (@hits_into U Lq (c :: u) repl z prev v) in H as [_ H]; auto.
      * cbn [app] in H. congruence.
      * now rewrite lastp_cons.
      * intros w Hw. apply fits_inside; [assumption|now left].
      * exact fits_junction.
Qed.

End ContractionRule.

(** ** The table of contractions *)

Section Contractions.
Context {U : Unicode}.

Definition rules_clean (rules : list (re * str)) (s : str) : bool :=
  forallb (fun q => cleanb (phrases (fst q)) None s) rules.

Lemma contractions_rules :
  Forall (fun rule => phrase_rule (fst rule)) (folded the_contractions).
Proof.
  repeat (constructor; [repeat split; vm_compute; reflexivity|]).
  constructor.
Qed.

Lemma contractions_fit : table_fits (folded the_contractions) = true.
Proof. vm_compute. reflexivity. Qed.

Lemma phrase_rule_wf : forall r, phrase_rule r -> forallb wf_phrase (phrases r) = true.
Proof. now intros r (_ & _ & H). Qed.

Lemma fits_rule_clean : forall (p q : re * str) (s : str),
  phrase_rule (fst p) -> phrase_rule (fst q) ->
  fits (phrases (fst q)) (snd p) = true ->
  quietb (phrases (fst p)) (phrases (fst q)) None s = true ->
  cleanb (phrases (fst q)) None (sub IGNORECASE (fst p) (snd p) s) = true.
Proof.
  intros [r repl] [rq replq] s P Q C H. cbn [fst snd] in *. rewrite sub_psub.
  apply (@clean_after_fits U r repl P (phrases rq) (phrase_rule_wf Q) C
           (List.length s)); auto.
Qed.

Lemma rules_clean_step : forall (done : list (re * str)) (p : re * str) (s : str),
  Forall (fun rule => phrase_rule (fst rule)) done -> phrase_rule (fst p) ->
  forallb (fun q => fits (phrases (fst q)) (snd p)) (done ++ [p]) = true ->
  rules_clean done s = true ->
  rules_clean (done ++ [p]) (sub IGNORECASE (fst p) (snd p) s) = true.
Proof.
  intros done p s Hd Hp C A. unfold rules_clean in *.
  rewrite forallb_app in C |- *. apply andb_true_iff in C as [C1 C2].
  apply andb_true_iff. split.
  - rewrite forallb_forall in A, C1 |- *. rewrite Forall_forall in Hd.
    intros q Hq. apply fits_rule_clean; auto.
    apply quietb_of_clean. auto.
  - cbn in C2 |- *. rewrite andb_true_r in C2 |- *.
    apply fits_rule_clean; auto. apply quietb_self.
Qed.

Lemma rules_clean_run : forall (todo done : list (re * str)) (s : str),
  Forall (fun rule => phrase_rule (fst rule)) (done ++ todo) ->
  table_fits (done ++ todo) = true ->
  rules_clean done s = true ->
  rules_clean (done ++ todo) (sub_all IGNORECASE todo s) = true.
Proof.
  induction todo as [|p todo IH]; intros done s Hok Hc A.
  - now rewrite app_nil_r.
  - cbn [sub_all fold_left].
    replace (done ++ p :: todo) with ((done ++ [p]) ++ todo) in *
      by now rewrite <- app_assoc.
    apply IH; auto.
    pose proof Hok as Hok'. rewrite Forall_app in Hok'. destruct Hok' as [Hdp _].
    rewrite Forall_app in Hdp. destruct Hdp as [Hd Hp].
    apply rules_clean_step; auto.
    + now inversion Hp.
    + unfold table_fits in Hc. rewrite forallb_forall in Hc.
      apply forallb_forall. intros q Hq.
      assert (Hq' : In q ((done ++ [p]) ++ todo)) by (apply in_or_app; now left).
      apply Hc in Hq'. rewrite forallb_forall in Hq'. apply Hq'.
      apply in_or_app. left. apply in_or_app. right. now left.
Qed.

Lemma rules_clean_fixed : forall (rules : list (re * str)) (s : str),
  Forall (fun rule => phrase_rule (fst rule)) rules ->
  rules_clean rules s = true ->
  sub_all IGNORECASE rules s = s.
Proof.
  induction rules as [|[r repl] rules IH]; intros s Hok A; [reflexivity|].
  cbn [sub_all fold_left fst snd].
  apply Forall_cons_iff in Hok as [(P1 & P2 & P3) Hr].
  cbn [rules_clean forallb fst] in A. apply andb_true_iff in A as [A1 A2].
  cbn [fst snd] in *.
  rewrite sub_psub, (@ps_clean U r repl P1 P2 P3 s None A1). now apply IH.
Qed.

Lemma contractions_clean : forall s : str,
  rules_clean (folded the_contractions)
    (sub_all IGNORECASE the_contractions s) = true.
Proof.
  intros s. rewrite <- sub_all_folded.
  exact (@rules_clean_run (folded the_contractions) [] s
           contractions_rules contractions_fit eq_refl).
Qed.

(** X11.  [add_contractions] is idempotent: run on its own output it
    changes nothing. *)
Theorem add_contractions_idempotent :
  forall (aggressive : bool) (text : str),
    add_contractions (init aggressive)
      (add_contractions (init aggressive) text)
    = add_contractions (init aggressive) text.
Proof.
  intros a text. unfold add_contractions. cbn [contractions init].
  rewrite <- (sub_all_folded the_contractions
                (sub_all IGNORECASE the_contractions text)).
  apply rules_clean_fixed; [exact contractions_rules|].
  apply contractions_clean.
Qed.

(** X12.  No pattern of the contraction table matches anywhere in what
    [add_contractions] returns. *)
Theorem add_contractions_leaves_none :
  forall (aggressive : bool) (text : str),
    Forall
      (fun rule : re * str =>
         findall IGNORECASE (fst rule)
           (add_contractions (init aggressive) text) = [])
      (contractions (init aggressive)).
Proof.
  intros a text. unfold add_contractions. cbn [contractions init].
  pose proof (contractions_clean text) as A.
  unfold rules_clean in A. rewrite forallb_forall in A.
  pose proof contractions_rules as Hok. rewrite Forall_forall in Hok.
  apply Forall_forall. intros rule Hin.
  rewrite <- findall_fold.
  assert (Hin' : In (fold_re (fst rule), snd rule) (folded the_contractions)).
  { unfold folded. apply in_map_iff. now exists rule. }
  apply findall_clean.
  - exact (Hok _ Hin').
  - exact (A _ Hin').
Qed.

End Contractions.

(** ** Single spaces

    The first substitution of [clean_whitespace] leaves no two spaces in a
    row; the later ones write none. *)

Definition hd_space (s : str) : bool :=
  match s with
  | c :: _ => (32 =? c)%N
  | [] => false
  end.

Definition double_space (s : str) : bool := substring_in [32%N; 32%N] s.

(** A replacement [x] written before [rest] that brings no two spaces
    together. *)
Definition tidy (x rest : str) : Prop :=
  x <> [] /\ hd_space x = false /\ double_space x = false /\
  (hd_space (rev x) = true -> hd_space rest = false).

Lemma double_space_cons : forall (c : char) (s : str),
  double_space (c :: s) = ((32 =? c)%N && hd_space s) || double_space s.
Proof.
  intros c s. unfold double_space. cbn [substring_in startswith].
  destruct s as [|d s]; cbn [startswith hd_space]; [reflexivity|].
  now rewrite andb_true_r.
Qed.

Lemma hd_space_snoc : forall (a : str) (c : char),
  a <> [] -> hd_space (rev (c :: a)) = hd_space (rev a).
Proof.
  intros a c H. cbn [rev]. destruct (rev a) as [|d t] eqn:E; [|reflexivity].
  apply (f_equal (@rev char)) in E. rewrite rev_involutive in E. contradiction.
Qed.

Lemma double_space_app : forall a b : str,
  double_space a = false -> double_space b = false ->
  (hd_space (rev a) = true -> hd_space b = false) ->
  double_space (a ++ b) = false.
Proof.
  induction a as [|c a IH]; intros b Ha Hb Hj; [exact Hb|].
  rewrite double_space_cons in Ha. apply orb_false_iff in Ha as [Ha1 Ha2].
  cbn [app]. rewrite double_space_cons. apply orb_false_iff. split.
  - destruct a as [|d a]; [|exact Ha1]. cbn [app].
    destruct (32 =? c)%N eqn:E; [|reflexivity]. cbn [andb]. apply Hj.
    cbn. exact E.
  - apply IH; auto. intros Hr. apply Hj.
    destruct a as [|d a]; [discriminate Hr|].
    now rewrite hd_space_snoc.
Qed.

Lemma double_space_parts : forall a b : str,
  double_space (a ++ b) = false -> double_space a = false /\ double_space b = false.
Proof.
  induction a as [|c a IH]; intros b H; [now split|].
  cbn [app] in H. rewrite double_space_cons in H.
  apply orb_false_iff in H as [H1 H2]. destruct (IH b H2) as [Ia Ib].
  split; [|assumption]. rewrite double_space_cons, Ia, orb_false_r.
  destruct a as [|d a]; [apply andb_false_r|exact H1].
Qed.

Lemma length_one_more : forall (y : char) (t : str),
  List.length (y :: t) - List.length t = 1.
Proof. intros. cbn [List.length]. lia. Qed.

Lemma skipn_exact : forall (a b : str), skipn (List.length a) (a ++ b) = b.
Proof. induction a as [|c a IH]; intros b; [reflexivity|apply IH]. Qed.

Section Spacing.
Context {U : Unicode}.

Lemma scan_ext : forall fl (r1 r2 : re),
  (forall prev (s : str) b,
     match_at fl r1 prev s b = match_at fl r2 prev s b) ->
  forall (s : str) prev skip, scan fl r1 prev s skip = scan fl r2 prev s skip.
Proof.
  intros fl r1 r2 H. induction s as [|c s IH]; intros prev skip.
  - destruct skip; cbn [scan]; now rewrite ?H.
  - destruct skip as [|k]; cbn [scan]; [|apply IH].
    rewrite !H.
    destruct (match_at fl r2 prev (c :: s) false) as [[[|n] gs]|].
    + destruct (match_at fl r2 prev (c :: s) true) as [[[|n] gs']|];
        now rewrite IH.
    + now rewrite IH.
    + now rewrite IH.
Qed.

Lemma rep_cls_ext : forall A fl (c1 c2 : cls),
  (forall x, mem fl c1 x = mem fl c2 x) ->
  forall (s : str) n prev gs (k : cont A),
    rep fl c1 n prev s gs k = rep fl c2 n prev s gs k.
Proof.
  intros A fl c1 c2 H. induction s as [|x s IH]; intros n prev gs k; cbn [rep];
    [reflexivity|].
  now rewrite H, IH.
Qed.

(** What stops a greedy repetition is no member of its class. *)
Lemma lead_stop : forall fl (c : cls) (s : str),
  match skipn (lead fl c s) s with
  | x :: _ => mem fl c x = false
  | [] => True
  end.
Proof.
  intros fl c. induction s as [|x s IH]; [exact I|]. cbn [lead].
  destruct (mem fl c x) eqn:E; [exact IH|exact E].
Qed.

Lemma sub_pieces_const : forall (repl : str) (ps : list piece),
  sub_pieces (fun _ => Ok repl) ps = Ok (flat_map (render repl) ps).
Proof.
  intros repl. induction ps as [|[c|m] ps IH]; cbn [sub_pieces flat_map render];
    [reflexivity| |]; rewrite IH; reflexivity.
Qed.

Section OnePattern.
Variable fl : flags.
Variable r : re.
Variable f : mobj -> result str.
Hypothesis r_consumes : 1 <= min_len r.
Hypothesis f_tidy : forall prev (s : str) n gs x,
  match_at fl r prev s false = Some (n, gs) ->
  f {| g0 := firstn n s; caps := gs |} = Ok x ->
  tidy x (skipn n s).

Lemma scan_spacing : forall (s : str) prev skip out,
  double_space s = false ->
  sub_pieces f (scan fl r prev s skip) = Ok out ->
  double_space out = false /\
  (hd_space out = true -> hd_space (skipn skip s) = true).
Proof.
  induction s as [|c s IH]; intros prev skip out Hs H.
  - destruct skip as [|k]; cbn [scan] in H.
    + destruct (match_at fl r prev [] false) as [[n gs]|] eqn:E.
      * apply match_at_min in E. cbn [List.length] in E. lia.
      * injection H as <-. now split.
    + injection H as <-. now split.
  - rewrite double_space_cons in Hs. apply orb_false_iff in Hs as [Hs1 Hs2].
    destruct skip as [|k]; cbn [scan] in H.
    2:{ exact (IH (Some c) k out Hs2 H). }
    destruct (match_at fl r prev (c :: s) false) as [[[|n] gs]|] eqn:E.
    + apply match_at_min in E. lia.
    + cbn [sub_pieces] in H.
      destruct (f _) as [x|] eqn:Ef; [|discriminate]. cbn [bind] in H.
      destruct (sub_pieces f (scan fl r (Some c) s n)) as [rest|] eqn:Er;
        [|discriminate].
      cbn [bind] in H. injection H as <-.
      destruct (f_tidy _ _ E Ef) as (T1 & T2 & T3 & T4). cbn [skipn] in T4.
      destruct (IH (Some c) n rest Hs2 Er) as [I1 I2].
      split.
      * apply double_space_app; auto. intros Hr.
        destruct (hd_space rest) eqn:Eh; [|reflexivity].
        rewrite (T4 Hr) in I2. symmetry. now apply I2.
      * destruct x as [|x0 x]; [contradiction|]. cbn [app hd_space] in *.
        congruence.
    + cbn [sub_pieces] in H.
      destruct (sub_pieces f (scan fl r (Some c) s 0)) as [rest|] eqn:Er;
        [|discriminate].
      cbn [bind] in H. injection H as <-.
      destruct (IH (Some c) 0 rest Hs2 Er) as [I1 I2]. cbn [skipn] in I2.
      split.
      * rewrite double_space_cons, I1, orb_false_r.
        destruct (32 =? c)%N; [|reflexivity]. cbn [andb] in *.
        destruct (hd_space rest); [|reflexivity].
        rewrite I2 in Hs1; [discriminate|reflexivity].
      * cbn [hd_space skipn]. auto.
Qed.

Lemma sub_f_spacing : forall (s out : str),
  double_space s = false -> sub_f fl r f s = Ok out -> double_space out = false.
Proof.
  intros s out Hs H. unfold sub_f in H.
  now destruct (scan_spacing s None 0 Hs H).
Qed.

End OnePattern.

(** A replacement text without spaces at its ends. *)
Lemma sub_spacing : forall fl (r : re) (repl s : str),
  1 <= min_len r -> tidy repl [32%N] ->
  double_space s = false -> double_space (sub fl r repl s) = false.
Proof.
  intros fl r repl s Hr (T1 & T2 & T3 & T4) Hs.
  apply (@sub_f_spacing fl r (fun _ => Ok repl) Hr) with (s := s); auto.
  - intros prev s0 n gs x _ E. injection E as <-.
    repeat split; auto. intros Hl. specialize (T4 Hl). discriminate T4.
  - unfold sub_f. now rewrite sub_pieces_const.
Qed.

(** The first substitution: [' {2,}'] by one space. *)
Lemma squeeze_spaces : forall text : str,
  double_space (sub NOFLAG (Rep 2 (Lit 32%N)) [32%N] text) = false.
Proof.
  intros text.
  assert (E : sub NOFLAG (Rep 2 (Lit 32%N)) [32%N] text
              = sub NOFLAG (run_re 32%N 2) (repeat 32%N 1) text).
  { unfold sub. f_equal. apply scan_ext. intros prev s b.
    unfold match_at, run_re. cbn [run]. apply rep_cls_ext.
    intros x. rewrite (@mem_one U 32%N 1) by lia. reflexivity. }
  rewrite E, (@sub_run_rle U 32%N 2 1) by lia.
  apply (@no_long_run 32%N 1).
  - apply normal_map; [apply squash_char|intros; apply squash_pos; lia|].
    apply normal_rle.
  - intros e He He'. apply in_map_iff in He as ([x k] & <- & _).
    rewrite squash_char in He'. cbn [fst] in He'. subst x.
    unfold squash. cbn [fst snd]. rewrite N.eqb_refl. cbn [andb].
    destruct k as [|[|k]]; cbn; lia.
Qed.

Lemma mark_no_space : forall (marks : string) (p : char),
  mem NOFLAG (chars marks) 32%N = false ->
  mem NOFLAG (chars marks) p = true -> (32 =? p)%N = false.
Proof.
  intros marks p H0 H. destruct (N.eqb_spec 32 p) as [<-|]; [|reflexivity].
  congruence.
Qed.

(** [\s+([!?.,;])\s+]: the group is one mark and the match takes all the
    white space after it. *)
Lemma spaced_mark_match : forall prev (s : str) n gs,
  match_at NOFLAG
    (seq [Rep 1 Space; Grp (One (chars "!?.,;")); Rep 1 Space]) prev s false
  = Some (n, gs) ->
  exists p, gs = [[p]] /\ (32 =? p)%N = false /\ hd_space (skipn n s) = false.
Proof.
  intros prev s n gs H. unfold match_at, seq in H. cbn [fold_right run] in H.
  apply rep_rest in H as (p' & s' & H & pre & Hs).
  destruct s' as [|x s'']; [discriminate|].
  destruct (mem NOFLAG (chars "!?.,;") x) eqn:M; [|discriminate].
  rewrite rep_greedy in H by (intros; cbn; discriminate).
  destruct (1 <=? lead NOFLAG Space s'')%nat; [|discriminate].
  rewrite length_one_more in H.
  cbn [andb] in H. injection H as Hn Hg.
  exists x. split; [now rewrite <- Hg|]. split.
  { apply (@mark_no_space "!?.,;"); [reflexivity|assumption]. }
  set (j := lead NOFLAG Space s'') in *.
  assert (Es : s = (pre ++ x :: firstn j s'') ++ skipn j s'').
  { rewrite <- app_assoc. cbn [app]. now rewrite firstn_skipn. }
  assert (En : n = List.length (pre ++ x :: firstn j s'')).
  { rewrite <- Hn. rewrite Es at 1. rewrite length_app. lia. }
  rewrite En, Es, skipn_exact.
  pose proof (lead_stop NOFLAG Space s'') as St. fold j in St.
  destruct (skipn j s'') as [|y t]; [reflexivity|]. cbn [hd_space].
  destruct (N.eqb_spec 32 y) as [<-|]; [|reflexivity].
  cbn in St. discriminate St.
Qed.

(** [\s+([!?.,;])$]: the group is one mark. *)
Lemma final_mark_match : forall prev (s : str) n gs,
  match_at MULTILINE
    (seq [Rep 1 Space; Grp (One (chars "!?.,;")); Eol]) prev s false
  = Some (n, gs) ->
  exists p, gs = [[p]] /\ (32 =? p)%N = false.
Proof.
  intros prev s n gs H. unfold match_at, seq in H. cbn [fold_right run] in H.
  apply rep_rest in H as (p' & s' & H & pre & Hs).
  destruct s' as [|x s'']; [discriminate|].
  destruct (mem MULTILINE (chars "!?.,;") x) eqn:M; [|discriminate].
  rewrite length_one_more in H.
  exists x. split.
  - destruct s'' as [|y t].
    + now injection H as _ <-.
    + destruct (_ && _); [|discriminate]. now injection H as _ <-.
  - apply (@mark_no_space "!?.,;"); [reflexivity|exact M].
Qed.

(** [([.,!?;:])([A-Za-z])]: the groups are a mark and a letter, and the
    match is the two of them. *)
Lemma mark_letter_match : forall prev (s : str) n gs,
  match_at NOFLAG
    (seq [Grp (One (chars ".,!?;:"));
          Grp (One (OneOf [(65, 90); (97, 122)]%N))]) prev s false
  = Some (n, gs) ->
  exists p l, gs = [[p]; [l]] /\ firstn n s = [p; l] /\
              (32 =? p)%N = false /\ (32 =? l)%N = false.
Proof.
  intros prev s n gs H. unfold match_at, seq in H. cbn [fold_right run] in H.
  destruct s as [|x s1]; [discriminate|].
  destruct (mem NOFLAG (chars ".,!?;:") x) eqn:M; [|discriminate].
  destruct s1 as [|y s2]; [discriminate|].
  destruct (mem NOFLAG (OneOf [(65, 90); (97, 122)]%N) y) eqn:L; [|discriminate].
  rewrite !length_one_more in H.
  replace (List.length (x :: y :: s2) - List.length s2) with 2 in H
    by (cbn [List.length]; lia).
  cbn [andb] in H. injection H as Hn Hg.
  exists x, y. subst n. repeat split.
  - now rewrite <- Hg.
  - apply (@mark_no_space ".,!?;:"); [reflexivity|exact M].
  - destruct (N.eqb_spec 32 y) as [<-|]; [|reflexivity]. discriminate L.
Qed.

Lemma pair_tidy : forall (p l : char) (rest : str),
  (32 =? p)%N = false -> (32 =? l)%N = false -> tidy [p; l] rest.
Proof.
  intros p l rest Hp Hl. unfold tidy. rewrite !double_space_cons.
  cbn [hd_space rev app]. rewrite Hp, Hl. repeat split; try discriminate.
Qed.

Lemma clean_whitespace_spacing : forall text out : str,
  clean_whitespace text = Ok out -> double_space out = false.
Proof.
  intros text out H. unfold clean_whitespace in H. cbv zeta in H.
  pose proof (squeeze_spaces text) as S1.
  change (utf8 " ") with [32%N] in H.
  set (t1 := sub NOFLAG (Rep 2 (Lit 32%N)) [32%N] text) in *.
  destruct (sub_f NOFLAG _ _ t1) as [t2|] eqn:E2; [|discriminate].
  cbn [bind] in H.
  destruct (sub_f MULTILINE _ _ t2) as [t3|] eqn:E3; [|discriminate].
  cbn [bind] in H.
  destruct (sub_f NOFLAG _ _ t3) as [t4|] eqn:E4; [|discriminate].
  cbn [bind] in H. injection H as <-.
  assert (S2 : double_space t2 = false).
  { eapply sub_f_spacing; [| |exact S1|exact E2]; [cbn; lia|].
    intros prev s n gs x Hm Hx.
    apply spaced_mark_match in Hm as (p & -> & Hp & Hrest).
    cbn in Hx. injection Hx as <-.
    unfold tidy. rewrite !double_space_cons. cbn [hd_space rev app].
    rewrite Hp. repeat split; auto; discriminate. }
  assert (S3 : double_space t3 = false).
  { eapply sub_f_spacing; [| |exact S2|exact E3]; [cbn; lia|].
    intros prev s n gs x Hm Hx.
    apply final_mark_match in Hm as (p & -> & Hp).
    cbn in Hx. injection Hx as <-.
    unfold tidy. rewrite !double_space_cons. cbn [hd_space rev app].
    rewrite Hp. repeat split; auto; discriminate. }
  assert (S4 : double_space t4 = false).
  { eapply sub_f_spacing; [| |exact S3|exact E4]; [cbn; lia|].
    intros prev s n gs x Hm Hx.
    apply mark_letter_match in Hm as (p & l & -> & Hf & Hp & Hl).
    rewrite Hf in Hx. unfold add_space_after_punct in Hx. cbn [group g0 caps nth_error bind] in Hx.
    destruct (_ && _).
    - injection Hx as <-. now apply pair_tidy.
    - injection Hx as <-. cbn [app].
      unfold tidy. rewrite !double_space_cons. cbn [hd_space rev app].
      rewrite Hp, Hl. repeat split; auto; discriminate. }
  apply sub_spacing; auto; [cbn; lia|].
  unfold tidy. rewrite !double_space_cons. cbn. repeat split; discriminate.
Qed.

(** X13.  [clean_whitespace] returns a text in which no two spaces stand
    in a row. *)
Theorem clean_whitespace_single_spaces :
  forall text : str,
    exists out : str,
      clean_whitespace text = Ok out /\
      substring_in (utf8 "  ") out = false.
Proof.
  intros text. destruct (clean_whitespace_ok text) as [out E].
  exists out. split; [assumption|].
  exact (clean_whitespace_spacing _ E).
Qed.

Lemma strip_spacing : forall s : str,
  double_space s = false -> double_space (strip s) = false.
Proof.
  intros s H. unfold strip.
  destruct (lstrip_suffix s) as [pre E]. rewrite E in H.
  apply double_space_parts in H as [_ H].
  destruct (rstrip_prefix (lstrip s)) as [post E']. rewrite E' in H.
  now apply double_space_parts in H as [H _].
Qed.

(** X14.  For a text that is not blank, what [humanize] returns holds no
    two spaces in a row, whatever the content type and the flag. *)
Theorem humanize_single_spaces :
  forall (aggressive : bool) (text content_type : str),
    nonempty (strip text) = true ->
    exists out : str,
      humanize_text text content_type aggressive = Ok out /\
      substring_in (utf8 "  ") out = false.
Proof.
  intros a text ct Hs. unfold humanize_text. cbv zeta.
  destruct (humanize_ok (init a) text ct) as [out E].
  exists out. split; [assumption|].
  unfold humanize in E. rewrite Hs in E.
  assert (Ht : nonempty text = true).
  { destruct text; [discriminate Hs|reflexivity]. }
  rewrite Ht in E. cbn [negb orb] in E.
  destruct (fix_punctuation_tells text) as [t1|]; [|discriminate].
  cbn [bind] in E. cbv zeta in E.
  destruct (remove_hedging_language _ _) as [t2|]; [|discriminate].
  cbn [bind] in E.
  match type of E with
  | (x <- ?e ;; _) = _ => destruct e as [t3|]; [|discriminate]
  end.
  cbn [bind] in E.
  destruct (clean_whitespace _) as [t4|] eqn:E4; [|discriminate].
  cbn [bind] in E. injection E as <-.
  apply strip_spacing. exact (clean_whitespace_spacing _ E4).
Qed.

End Spacing.

(** The witness of X14: a title with runs of spaces. *)
Lemma humanize_single_spaces_witness :
  exists out : str,
    humanize_text (U := Sample.tables) (utf8 "a  b   c , d") (utf8 "general") false
    = Ok out /\
    substring_in (utf8 "  ") out = false.
Proof.
  apply (@humanize_single_spaces Sample.tables false
           (utf8 "a  b   c , d") (utf8 "general")).
  vm_compute. reflexivity.
Defined.

(** ** Paragraph breaks *)

Section Newlines.
Context {U : Unicode}.

(** The last substitution: ['\n{3,}'] by two newlines. *)
Lemma squeeze_newlines : forall text : str,
  substring_in (repeat 10%N 3)
    (sub NOFLAG (Rep 3 (Lit 10%N)) [10; 10]%N text) = false.
Proof.
  intros text.
  assert (E : sub NOFLAG (Rep 3 (Lit 10%N)) [10; 10]%N text
              = sub NOFLAG (run_re 10%N 3) (repeat 10%N 2) text).
  { unfold sub. f_equal. apply scan_ext. intros prev s b.
    unfold match_at, run_re. cbn [run]. apply rep_cls_ext.
    intros x. rewrite (@mem_one U 10%N 1) by lia. reflexivity. }
  rewrite E, (@sub_run_rle U 10%N 3 2) by lia.
  apply (@no_long_run 10%N 2).
  - apply normal_map; [apply squash_char|intros; apply squash_pos; lia|].
    apply normal_rle.
  - intros e He He'. apply in_map_iff in He as ([x k] & <- & _).
    rewrite squash_char in He'. cbn [fst] in He'. subst x.
    unfold squash. cbn [fst snd]. rewrite N.eqb_refl. cbn [andb].
    destruct k as [|[|[|k]]]; cbn; lia.
Qed.

(** X15.  [clean_whitespace] returns a text with at most two newlines in
    a row. *)
Theorem clean_whitespace_paragraph_breaks :
  forall text : str,
    exists out : str,
      clean_whitespace text = Ok out /\
      substring_in [10; 10; 10]%N out = false.
Proof.
  intros text. destruct (clean_whitespace_ok text) as [out E].
  exists out. split; [assumption|].
  unfold clean_whitespace in E. cbv zeta in E.
  destruct (sub_f NOFLAG _ _ _) as [t2|]; [|discriminate]. cbn [bind] in E.
  destruct (sub_f MULTILINE _ _ t2) as [t3|]; [|discriminate]. cbn [bind] in E.
  destruct (sub_f NOFLAG _ _ t3) as [t4|]; [|discriminate]. cbn [bind] in E.
  injection E as <-. apply squeeze_newlines.
Qed.

End Newlines.
